(** * Kryon Go runtime: render-tree preparation, inheritance and layout

    A shallow embedding of the raylib renderer of kryon-go-runtime
    ([render/raylib/renderer_processing.go], the property resolver and
    [raylib_renderer.go]) together with the properties of the
    specification that were checked against it.

    Conventions of the embedding:
    - [*render.RenderElement] is a pointer into the backing array of a Go
      slice: a pair (backing array, index).  The store of all backing arrays
      is explicit, so that re-slicing, reallocation and aliasing behave as
      in Go.
    - [uint8]/[uint16]/[uint32] values are [Z] with the wrap-around written
      where the source can overflow; [int] indices and lengths are [nat].
    - [float32] is IEEE-754 binary32, computed with [SpecFloat] at
      precision 24.
    - [log.Printf] calls of level Warn/Error are recorded in a log; debug
      traces and the debug name [SourceElementName] are left out.
    - The package [krb] (document types, constants, value decoders) is not
      part of the sources at hand: it is the interface [Krb] below. *)

From Stdlib Require Import ZArith List Bool String Lia.
From Stdlib Require Import Floats.SpecFloat.
From stdpp Require Import base option list gmap strings relations.
Import ListNotations.

Local Open Scope Z_scope.

(** ** float32 *)

Module F32.

Definition prec : Z := 24.
Definition emax : Z := 128.

Definition float32 : Type := spec_float.

Definition zero : float32 := S754_zero false.

(** [float32(n)] for an integer [n]: rounding to nearest, ties to even. *)
Definition of_Z (n : Z) : float32 := binary_normalize prec emax n 0 false.

Definition add : float32 -> float32 -> float32 := SFadd prec emax.
Definition sub : float32 -> float32 -> float32 := SFsub prec emax.
Definition mul : float32 -> float32 -> float32 := SFmul prec emax.
Definition div : float32 -> float32 -> float32 := SFdiv prec emax.

Definition eqb : float32 -> float32 -> bool := SFeqb.
Definition ltb : float32 -> float32 -> bool := SFltb.
Definition leb : float32 -> float32 -> bool := SFleb.
Definition gtb (x y : float32) : bool := SFltb y x.

(** Integer part of a finite float, truncated towards zero. *)
Definition trunc (x : float32) : option Z :=
  match x with
  | S754_zero _ => Some 0
  | S754_finite s m e =>
      let a := match e with
               | Zneg p => Z.shiftr (Zpos m) (Zpos p)
               | _ => Z.shiftl (Zpos m) e
               end in
      Some (if s then - a else a)
  | _ => None
  end.

End F32.

Abbreviation float32 := F32.float32.

(** ** Go's [int] (64 bits) *)

Definition int_min : Z := - 2 ^ 63.
Definition int_max : Z := 2 ^ 63 - 1.

Definition wrap_int (n : Z) : Z := (n + 2 ^ 63) mod 2 ^ 64 - 2 ^ 63.

Definition in_int (n : Z) : Prop := int_min <= n <= int_max.

(** [int(x)] for a [float32] [x].  Go leaves the result unspecified when the
    value does not fit; amd64 yields the minimal integer, which is what is
    modelled. *)
Definition int_of_float32 (x : float32) : Z :=
  match F32.trunc x with
  | Some v => if (int_min <=? v) && (v <=? int_max) then v else int_min
  | None => int_min
  end.

(** ** [clampOpposingBorders] (raylib_renderer.go) *)

Definition clampOpposingBorders (borderA borderB totalSize : Z) : Z * Z :=
  if totalSize <=? 0 then (0, 0)
  else
    let borderA := if borderA <? 0 then 0 else borderA in
    let borderB := if borderB <? 0 then 0 else borderB in
    if wrap_int (borderA + borderB) >? totalSize then
      let sum := F32.of_Z (wrap_int (borderA + borderB)) in
      let borderA :=
        int_of_float32
          (F32.mul (F32.div (F32.of_Z borderA) sum) (F32.of_Z totalSize)) in
      let borderB := wrap_int (totalSize - borderA) in
      (borderA, borderB)
    else (borderA, borderB).

(** ** Data model *)

(** [rl.Color] of raylib: four [uint8] channels. *)
Record Color : Type := mkColor { cR : N; cG : N; cB : N; cA : N }.

Definition Blank : Color := mkColor 0 0 0 0.
Definition RayWhite : Color := mkColor 245 245 245 255.
Definition Gray : Color := mkColor 130 130 130 255.

Definition hasAlpha (c : Color) : bool := (0 <? cA c)%N.

Definition Color_eqb (c d : Color) : bool :=
  ((cR c =? cR d) && (cG c =? cG d) && (cB c =? cB d) && (cA c =? cA d))%N.

(** A [[4]uint8] of insets: top, right, bottom, left. *)
Record Edges : Type := mkEdges { eTop : Z; eRight : Z; eBottom : Z; eLeft : Z }.

Definition noEdges : Edges := mkEdges 0 0 0 0.

(** The part of [rl.Texture2D] the layout reads. *)
Record Texture2D : Type := mkTexture { texID : Z; texWidth : Z; texHeight : Z }.

(** *** Types of package [krb], as the renderer uses them *)

Record ElementHeader : Type := mkElementHeader {
  Type_ : Z;
  ID : Z;
  PosX : Z;
  PosY : Z;
  Width : Z;
  Height : Z;
  Layout : Z;
  StyleID : Z;
  PropertyCount : Z;
  ChildCount : Z;
  EventCount : Z;
  AnimationCount : Z;
  CustomPropCount : Z
}.

Record Property : Type := mkProperty {
  propID : Z;
  propValueType : Z;
  propSize : Z;
  propValue : list Z
}.

Record Style : Type := mkStyle {
  styleID : Z;
  styleNameIndex : Z;
  styleProperties : list Property
}.

Record ChildRef : Type := mkChildRef { ChildOffset : Z }.

Record KrbComponentDefinition : Type := mkCompDef {
  NameIndex : Z;
  RootElementTemplateData : list Z
}.

Record DocHeader : Type := mkDocHeader { Flags : Z; ElementCount : Z }.

(** [ElementStartOffsets] and the entries of [ChildRefs] are tested against
    [nil] by the linker, hence the options ([None] is the nil slice); for
    the other slices [nil] and the empty slice behave alike. *)
Record Document : Type := mkDocument {
  docHeader : DocHeader;
  Elements : list ElementHeader;
  Properties : list (list Property);
  CustomProperties : list (list Property);
  Strings : list string;
  Styles : list Style;
  ChildRefs : list (option (list ChildRef));
  ElementStartOffsets : option (list Z);
  ComponentDefinitions : list KrbComponentDefinition
}.

Record EventCallbackInfo : Type := mkEventCallbackInfo {
  evEventType : Z;
  evHandlerName : string
}.

(** *** Render elements and the store of backing arrays *)

(** A [*render.RenderElement]: backing array and index in it. *)
Definition ptr : Type := (nat * nat)%type.

Record RenderElement : Type := mkRenderElement {
  Header : ElementHeader;
  OriginalIndex : nat;
  Parent : option ptr;
  Children : list ptr;
  BgColor : Color;
  FgColor : Color;
  BorderColor : Color;
  BorderWidths : Edges;
  Padding : Edges;
  ResolvedFontSize : float32;
  TextAlignment : Z;
  Text : string;
  ResourceIndex : Z;
  Texture : Texture2D;
  TextureLoaded : bool;
  RenderX : float32;
  RenderY : float32;
  RenderW : float32;
  RenderH : float32;
  IsVisible : bool;
  IsInteractive : bool;
  IsExpandedAsNestedComponent : bool;
  EventHandlers : list EventCallbackInfo
}.

Definition set_Header (v : ElementHeader) (e : RenderElement) : RenderElement :=
  mkRenderElement v (OriginalIndex e) (Parent e) (Children e) (BgColor e)
    (FgColor e) (BorderColor e) (BorderWidths e) (Padding e) (ResolvedFontSize
    e) (TextAlignment e) (Text e) (ResourceIndex e) (Texture e) (TextureLoaded
    e) (RenderX e) (RenderY e) (RenderW e) (RenderH e) (IsVisible e)
    (IsInteractive e) (IsExpandedAsNestedComponent e) (EventHandlers e).

Definition set_OriginalIndex (v : nat) (e : RenderElement) : RenderElement :=
  mkRenderElement (Header e) v (Parent e) (Children e) (BgColor e) (FgColor e)
    (BorderColor e) (BorderWidths e) (Padding e) (ResolvedFontSize e)
    (TextAlignment e) (Text e) (ResourceIndex e) (Texture e) (TextureLoaded e)
    (RenderX e) (RenderY e) (RenderW e) (RenderH e) (IsVisible e)
    (IsInteractive e) (IsExpandedAsNestedComponent e) (EventHandlers e).

Definition set_Parent (v : option ptr) (e : RenderElement) : RenderElement :=
  mkRenderElement (Header e) (OriginalIndex e) v (Children e) (BgColor e)
    (FgColor e) (BorderColor e) (BorderWidths e) (Padding e) (ResolvedFontSize
    e) (TextAlignment e) (Text e) (ResourceIndex e) (Texture e) (TextureLoaded
    e) (RenderX e) (RenderY e) (RenderW e) (RenderH e) (IsVisible e)
    (IsInteractive e) (IsExpandedAsNestedComponent e) (EventHandlers e).

Definition set_Children (v : list ptr) (e : RenderElement) : RenderElement :=
  mkRenderElement (Header e) (OriginalIndex e) (Parent e) v (BgColor e)
    (FgColor e) (BorderColor e) (BorderWidths e) (Padding e) (ResolvedFontSize
    e) (TextAlignment e) (Text e) (ResourceIndex e) (Texture e) (TextureLoaded
    e) (RenderX e) (RenderY e) (RenderW e) (RenderH e) (IsVisible e)
    (IsInteractive e) (IsExpandedAsNestedComponent e) (EventHandlers e).

Definition set_BgColor (v : Color) (e : RenderElement) : RenderElement :=
  mkRenderElement (Header e) (OriginalIndex e) (Parent e) (Children e) v
    (FgColor e) (BorderColor e) (BorderWidths e) (Padding e) (ResolvedFontSize
    e) (TextAlignment e) (Text e) (ResourceIndex e) (Texture e) (TextureLoaded
    e) (RenderX e) (RenderY e) (RenderW e) (RenderH e) (IsVisible e)
    (IsInteractive e) (IsExpandedAsNestedComponent e) (EventHandlers e).

Definition set_FgColor (v : Color) (e : RenderElement) : RenderElement :=
  mkRenderElement (Header e) (OriginalIndex e) (Parent e) (Children e)
    (BgColor e) v (BorderColor e) (BorderWidths e) (Padding e)
    (ResolvedFontSize e) (TextAlignment e) (Text e) (ResourceIndex e) (Texture
    e) (TextureLoaded e) (RenderX e) (RenderY e) (RenderW e) (RenderH e)
    (IsVisible e) (IsInteractive e) (IsExpandedAsNestedComponent e)
    (EventHandlers e).

Definition set_BorderColor (v : Color) (e : RenderElement) : RenderElement :=
  mkRenderElement (Header e) (OriginalIndex e) (Parent e) (Children e)
    (BgColor e) (FgColor e) v (BorderWidths e) (Padding e) (ResolvedFontSize
    e) (TextAlignment e) (Text e) (ResourceIndex e) (Texture e) (TextureLoaded
    e) (RenderX e) (RenderY e) (RenderW e) (RenderH e) (IsVisible e)
    (IsInteractive e) (IsExpandedAsNestedComponent e) (EventHandlers e).

Definition set_BorderWidths (v : Edges) (e : RenderElement) : RenderElement :=
  mkRenderElement (Header e) (OriginalIndex e) (Parent e) (Children e)
    (BgColor e) (FgColor e) (BorderColor e) v (Padding e) (ResolvedFontSize e)
    (TextAlignment e) (Text e) (ResourceIndex e) (Texture e) (TextureLoaded e)
    (RenderX e) (RenderY e) (RenderW e) (RenderH e) (IsVisible e)
    (IsInteractive e) (IsExpandedAsNestedComponent e) (EventHandlers e).

Definition set_Padding (v : Edges) (e : RenderElement) : RenderElement :=
  mkRenderElement (Header e) (OriginalIndex e) (Parent e) (Children e)
    (BgColor e) (FgColor e) (BorderColor e) (BorderWidths e) v
    (ResolvedFontSize e) (TextAlignment e) (Text e) (ResourceIndex e) (Texture
    e) (TextureLoaded e) (RenderX e) (RenderY e) (RenderW e) (RenderH e)
    (IsVisible e) (IsInteractive e) (IsExpandedAsNestedComponent e)
    (EventHandlers e).

Definition set_ResolvedFontSize (v : float32) (e : RenderElement) : RenderElement :=
  mkRenderElement (Header e) (OriginalIndex e) (Parent e) (Children e)
    (BgColor e) (FgColor e) (BorderColor e) (BorderWidths e) (Padding e) v
    (TextAlignment e) (Text e) (ResourceIndex e) (Texture e) (TextureLoaded e)
    (RenderX e) (RenderY e) (RenderW e) (RenderH e) (IsVisible e)
    (IsInteractive e) (IsExpandedAsNestedComponent e) (EventHandlers e).

Definition set_TextAlignment (v : Z) (e : RenderElement) : RenderElement :=
  mkRenderElement (Header e) (OriginalIndex e) (Parent e) (Children e)
    (BgColor e) (FgColor e) (BorderColor e) (BorderWidths e) (Padding e)
    (ResolvedFontSize e) v (Text e) (ResourceIndex e) (Texture e)
    (TextureLoaded e) (RenderX e) (RenderY e) (RenderW e) (RenderH e)
    (IsVisible e) (IsInteractive e) (IsExpandedAsNestedComponent e)
    (EventHandlers e).

Definition set_Text (v : string) (e : RenderElement) : RenderElement :=
  mkRenderElement (Header e) (OriginalIndex e) (Parent e) (Children e)
    (BgColor e) (FgColor e) (BorderColor e) (BorderWidths e) (Padding e)
    (ResolvedFontSize e) (TextAlignment e) v (ResourceIndex e) (Texture e)
    (TextureLoaded e) (RenderX e) (RenderY e) (RenderW e) (RenderH e)
    (IsVisible e) (IsInteractive e) (IsExpandedAsNestedComponent e)
    (EventHandlers e).

Definition set_ResourceIndex (v : Z) (e : RenderElement) : RenderElement :=
  mkRenderElement (Header e) (OriginalIndex e) (Parent e) (Children e)
    (BgColor e) (FgColor e) (BorderColor e) (BorderWidths e) (Padding e)
    (ResolvedFontSize e) (TextAlignment e) (Text e) v (Texture e)
    (TextureLoaded e) (RenderX e) (RenderY e) (RenderW e) (RenderH e)
    (IsVisible e) (IsInteractive e) (IsExpandedAsNestedComponent e)
    (EventHandlers e).

Definition set_RenderX (v : float32) (e : RenderElement) : RenderElement :=
  mkRenderElement (Header e) (OriginalIndex e) (Parent e) (Children e)
    (BgColor e) (FgColor e) (BorderColor e) (BorderWidths e) (Padding e)
    (ResolvedFontSize e) (TextAlignment e) (Text e) (ResourceIndex e) (Texture
    e) (TextureLoaded e) v (RenderY e) (RenderW e) (RenderH e) (IsVisible e)
    (IsInteractive e) (IsExpandedAsNestedComponent e) (EventHandlers e).

Definition set_RenderY (v : float32) (e : RenderElement) : RenderElement :=
  mkRenderElement (Header e) (OriginalIndex e) (Parent e) (Children e)
    (BgColor e) (FgColor e) (BorderColor e) (BorderWidths e) (Padding e)
    (ResolvedFontSize e) (TextAlignment e) (Text e) (ResourceIndex e) (Texture
    e) (TextureLoaded e) (RenderX e) v (RenderW e) (RenderH e) (IsVisible e)
    (IsInteractive e) (IsExpandedAsNestedComponent e) (EventHandlers e).

Definition set_RenderW (v : float32) (e : RenderElement) : RenderElement :=
  mkRenderElement (Header e) (OriginalIndex e) (Parent e) (Children e)
    (BgColor e) (FgColor e) (BorderColor e) (BorderWidths e) (Padding e)
    (ResolvedFontSize e) (TextAlignment e) (Text e) (ResourceIndex e) (Texture
    e) (TextureLoaded e) (RenderX e) (RenderY e) v (RenderH e) (IsVisible e)
    (IsInteractive e) (IsExpandedAsNestedComponent e) (EventHandlers e).

Definition set_RenderH (v : float32) (e : RenderElement) : RenderElement :=
  mkRenderElement (Header e) (OriginalIndex e) (Parent e) (Children e)
    (BgColor e) (FgColor e) (BorderColor e) (BorderWidths e) (Padding e)
    (ResolvedFontSize e) (TextAlignment e) (Text e) (ResourceIndex e) (Texture
    e) (TextureLoaded e) (RenderX e) (RenderY e) (RenderW e) v (IsVisible e)
    (IsInteractive e) (IsExpandedAsNestedComponent e) (EventHandlers e).

Definition set_IsVisible (v : bool) (e : RenderElement) : RenderElement :=
  mkRenderElement (Header e) (OriginalIndex e) (Parent e) (Children e)
    (BgColor e) (FgColor e) (BorderColor e) (BorderWidths e) (Padding e)
    (ResolvedFontSize e) (TextAlignment e) (Text e) (ResourceIndex e) (Texture
    e) (TextureLoaded e) (RenderX e) (RenderY e) (RenderW e) (RenderH e) v
    (IsInteractive e) (IsExpandedAsNestedComponent e) (EventHandlers e).

Definition set_IsInteractive (v : bool) (e : RenderElement) : RenderElement :=
  mkRenderElement (Header e) (OriginalIndex e) (Parent e) (Children e)
    (BgColor e) (FgColor e) (BorderColor e) (BorderWidths e) (Padding e)
    (ResolvedFontSize e) (TextAlignment e) (Text e) (ResourceIndex e) (Texture
    e) (TextureLoaded e) (RenderX e) (RenderY e) (RenderW e) (RenderH e)
    (IsVisible e) v (IsExpandedAsNestedComponent e) (EventHandlers e).

Definition set_IsExpandedAsNestedComponent (v : bool) (e : RenderElement) : RenderElement :=
  mkRenderElement (Header e) (OriginalIndex e) (Parent e) (Children e)
    (BgColor e) (FgColor e) (BorderColor e) (BorderWidths e) (Padding e)
    (ResolvedFontSize e) (TextAlignment e) (Text e) (ResourceIndex e) (Texture
    e) (TextureLoaded e) (RenderX e) (RenderY e) (RenderW e) (RenderH e)
    (IsVisible e) (IsInteractive e) v (EventHandlers e).

Definition set_EventHandlers (v : list EventCallbackInfo) (e : RenderElement) : RenderElement :=
  mkRenderElement (Header e) (OriginalIndex e) (Parent e) (Children e)
    (BgColor e) (FgColor e) (BorderColor e) (BorderWidths e) (Padding e)
    (ResolvedFontSize e) (TextAlignment e) (Text e) (ResourceIndex e) (Texture
    e) (TextureLoaded e) (RenderX e) (RenderY e) (RenderW e) (RenderH e)
    (IsVisible e) (IsInteractive e) (IsExpandedAsNestedComponent e) v.


Definition zeroHeader : ElementHeader := mkElementHeader 0 0 0 0 0 0 0 0 0 0 0 0 0.

(** The zero value of the struct, as [make] fills a fresh backing array. *)
Definition zeroElement : RenderElement :=
  mkRenderElement zeroHeader 0%nat None [] Blank Blank Blank noEdges noEdges
    F32.zero 0 EmptyString 0 (mkTexture 0 0 0) false
    F32.zero F32.zero F32.zero F32.zero false false false [].

(** A slice header: backing array, length, capacity. *)
Record slice : Type := mkSlice { s_arr : nat; s_len : nat; s_cap : nat }.

(** All backing arrays ever allocated; an array keeps its number. *)
Abbreviation Store := (list (list RenderElement)).

Definition load (h : Store) (p : ptr) : RenderElement :=
  default zeroElement (h !! p.1 ≫= (.!! p.2)).

Definition modify (f : RenderElement -> RenderElement) (p : ptr) (h : Store) : Store :=
  alter (alter f p.2) p.1 h.

(** [make([]render.RenderElement, len, cap)]: a fresh zeroed array. *)
Definition make_elements (len cap : nat) (h : Store) : Store * slice :=
  (h ++ [replicate cap zeroElement], mkSlice (length h) len cap).

(** [&s[i]] *)
Definition addr (s : slice) (i : nat) : ptr := (s_arr s, i).

(** [render.WindowConfig] *)
Record WindowConfig : Type := mkWindowConfig {
  wcWidth : Z;
  wcHeight : Z;
  wcTitle : string;
  wcResizable : bool;
  wcScaleFactor : float32;
  DefaultBg : Color;
  DefaultFgColor : Color;
  DefaultBorderColor : Color;
  DefaultFontSize : float32
}.

Definition InvalidResourceIndex : Z := 255.
Definition BaseFontSize : float32 := F32.of_Z 18.

(** [render.DefaultWindowConfig] *)
Definition DefaultWindowConfig : WindowConfig :=
  mkWindowConfig 800 600 "Kryon Application" true (F32.of_Z 1)
    (mkColor 30 30 30 255) RayWhite Gray BaseFontSize.

Definition componentNameConventionKey : string := "_componentName".
Definition childrenSlotIDName : string := "children_host".
Definition UnsetTextAlignmentSentinel : Z := 255.

(** Warnings and errors the renderer logs. *)
Inductive LogMsg : Type :=
  | WarnAppStyleNotFound
  | WarnElementStyleNotFound (i : nat)
  | ErrExpandFailed (i : nat)
  | WarnCompDefNotFound (i : nat)
  | WarnNoChildRefs (i : nat)
  | ErrMissingStartOffset (i : nat)
  | ErrChildRefUnresolved (i : nat) (off : Z)
  | WarnNoRoots
  | WarnNoTemplateData
  | WarnInvalidEventCallback
  | WarnNestedCompDefNotFound
  | ErrTemplateChildNotFound
  | WarnNoSlotFound
  | ErrRootNotContainer
  | ErrNoTemplateRoot
  | WarnReResolveNil
  | WarnReResolveStyleNotFound
  | WarnParentAlignmentUnset.

(** The [RaylibRenderer], with the store its pointers refer to and its log. *)
Record RaylibRenderer : Type := mkRenderer {
  config : WindowConfig;
  heap : Store;
  elements : slice;
  roots : list ptr;
  scaleFactor : float32;
  docRef : option Document;
  logs : list LogMsg
}.

Definition set_config (v : WindowConfig) (r : RaylibRenderer) : RaylibRenderer :=
  mkRenderer v (heap r) (elements r) (roots r) (scaleFactor r) (docRef r) (logs r).
Definition set_heap (v : Store) (r : RaylibRenderer) : RaylibRenderer :=
  mkRenderer (config r) v (elements r) (roots r) (scaleFactor r) (docRef r) (logs r).
Definition set_elements (v : slice) (r : RaylibRenderer) : RaylibRenderer :=
  mkRenderer (config r) (heap r) v (roots r) (scaleFactor r) (docRef r) (logs r).
Definition set_roots (v : list ptr) (r : RaylibRenderer) : RaylibRenderer :=
  mkRenderer (config r) (heap r) (elements r) v (scaleFactor r) (docRef r) (logs r).
Definition set_scaleFactor (v : float32) (r : RaylibRenderer) : RaylibRenderer :=
  mkRenderer (config r) (heap r) (elements r) (roots r) v (docRef r) (logs r).
Definition set_docRef (v : option Document) (r : RaylibRenderer) : RaylibRenderer :=
  mkRenderer (config r) (heap r) (elements r) (roots r) (scaleFactor r) v (logs r).
Definition log (m : LogMsg) (r : RaylibRenderer) : RaylibRenderer :=
  mkRenderer (config r) (heap r) (elements r) (roots r) (scaleFactor r) (docRef r)
    (logs r ++ [m]).

(** [*p = f( *p )] through a pointer. *)
Definition update (p : ptr) (f : RenderElement -> RenderElement)
    (r : RaylibRenderer) : RaylibRenderer :=
  set_heap (modify f p (heap r)) r.

Definition get (r : RaylibRenderer) (p : ptr) : RenderElement := load (heap r) p.

#[global] Arguments get : simpl never.
#[global] Arguments update : simpl never.
#[global] Arguments log : simpl never.
#[global] Arguments load : simpl never.
#[global] Arguments modify : simpl never.

(** Outcome of code that can panic (index out of range) or, in the model,
    exhaust the recursion budget. *)
Inductive outcome (A : Type) : Type :=
  | Done (a : A)
  | Panic
  | NoFuel.
Arguments Done {A} a.
Arguments Panic {A}.
Arguments NoFuel {A}.

#[global] Instance outcome_ret : MRet outcome := fun A a => Done a.
#[global] Instance outcome_bind : MBind outcome := fun A B f x =>
  match x with
  | Done a => f a
  | Panic => Panic
  | NoFuel => NoFuel
  end.

(** ** The interface to package [krb] and to the helpers kept in other files

    Constants, header accessors and value decoders that the renderer calls
    but whose definitions are not among the sources at hand.  Everything
    below is stated for an arbitrary implementation of this interface. *)
Class Krb : Type := {
  ElemTypeApp : Z;
  ElemTypeContainer : Z;
  ElemTypeText : Z;
  ElemTypeImage : Z;
  ElemTypeButton : Z;
  ElemTypeInput : Z;
  PropIDBgColor : Z;
  PropIDFgColor : Z;
  PropIDBorderColor : Z;
  PropIDBorderWidth : Z;
  PropIDPadding : Z;
  PropIDTextAlignment : Z;
  PropIDVisibility : Z;
  PropIDFontSize : Z;
  PropIDTextContent : Z;
  PropIDImageSource : Z;
  PropIDWindowWidth : Z;
  PropIDWindowHeight : Z;
  PropIDWindowTitle : Z;
  PropIDResizable : Z;
  PropIDScaleFactor : Z;
  ValTypeString : Z;
  ValTypeResource : Z;
  LayoutAlignStart : Z;
  FlagHasApp : Z;
  AnimationRefSize : nat;
  findStyle : Document -> Z -> option Style;
  getStringValueByIdx : Document -> Z -> string * bool;
  GetCustomPropertyValue : RenderElement -> string -> Document -> string * bool;
  getColorValue : Property -> Z -> option Color;
  getByteValue : Property -> option Z;
  getShortValue : Property -> option Z;
  getEdgeInsetsValue : Property -> option Edges;
  getStylePropertyValue : Style -> Z -> option Property;
  resolveEventHandlers : Document -> RenderElement -> list EventCallbackInfo
}.

(** Sizes of the records of a template stream (section 6 of the format:
    a 17-byte element header, 16-bit child offsets; an event entry is a type
    byte and a callback index, as [expandComponent] reads it). *)
Definition ElementHeaderSize : nat := 17.
Definition ChildRefSize : nat := 2.
Definition EventFileEntrySize : nat := 2.

Definition wrap32 (n : Z) : Z := n mod 2 ^ 32.

(** [krb.ReadU16LE] *)
Definition ReadU16LE (lo hi : Z) : Z := Z.lor lo (Z.shiftl hi 8).

Section WithKrb.

Context `{K : Krb}.

(** ** Applying properties (property resolver) *)

Definition applyStylePropertiesToWindowConfig
    (props : list Property) (doc : Document) (config : WindowConfig) : WindowConfig :=
  fold_left (fun (config : WindowConfig) (prop : Property) =>
    let '(mkWindowConfig w h t rs sf bg fg bc fs) := config in
    if propID prop =? PropIDBgColor then
      match getColorValue prop (Flags (docHeader doc)) with
      | Some c => mkWindowConfig w h t rs sf c fg bc fs
      | None => config
      end
    else if propID prop =? PropIDFgColor then
      match getColorValue prop (Flags (docHeader doc)) with
      | Some c => mkWindowConfig w h t rs sf bg c bc fs
      | None => config
      end
    else if propID prop =? PropIDBorderColor then
      match getColorValue prop (Flags (docHeader doc)) with
      | Some c => mkWindowConfig w h t rs sf bg fg c fs
      | None => config
      end
    else if propID prop =? PropIDFontSize then
      match getShortValue prop with
      | Some fsRaw =>
          if fsRaw >? 0 then mkWindowConfig w h t rs sf bg fg bc (F32.of_Z fsRaw)
          else config
      | None => config
      end
    else config) props config.

Definition applyDirectPropertiesToWindowConfig
    (props : list Property) (doc : Document) (config : WindowConfig) : WindowConfig :=
  fold_left (fun (config : WindowConfig) (prop : Property) =>
    let '(mkWindowConfig w h t rs sf bg fg bc fs) := config in
    if propID prop =? PropIDWindowWidth then
      match getShortValue prop with
      | Some v => if v >? 0 then mkWindowConfig v h t rs sf bg fg bc fs else config
      | None => config
      end
    else if propID prop =? PropIDWindowHeight then
      match getShortValue prop with
      | Some v => if v >? 0 then mkWindowConfig w v t rs sf bg fg bc fs else config
      | None => config
      end
    else if propID prop =? PropIDWindowTitle then
      match getByteValue prop with
      | Some strIdx =>
          match getStringValueByIdx doc strIdx with
          | (s, true) => mkWindowConfig w h s rs sf bg fg bc fs
          | _ => config
          end
      | None => config
      end
    else if propID prop =? PropIDResizable then
      match getByteValue prop with
      | Some rVal => mkWindowConfig w h t (negb (rVal =? 0)) sf bg fg bc fs
      | None => config
      end
    else if propID prop =? PropIDScaleFactor then
      match getShortValue prop with
      | Some sfRaw =>
          if sfRaw >? 0
          then mkWindowConfig w h t rs (F32.div (F32.of_Z sfRaw) (F32.of_Z 256)) bg fg bc fs
          else config
      | None => config
      end
    else if propID prop =? PropIDBgColor then
      match getColorValue prop (Flags (docHeader doc)) with
      | Some c => mkWindowConfig w h t rs sf c fg bc fs
      | None => config
      end
    else if propID prop =? PropIDFgColor then
      match getColorValue prop (Flags (docHeader doc)) with
      | Some c => mkWindowConfig w h t rs sf bg c bc fs
      | None => config
      end
    else if propID prop =? PropIDBorderColor then
      match getColorValue prop (Flags (docHeader doc)) with
      | Some c => mkWindowConfig w h t rs sf bg fg c fs
      | None => config
      end
    else if propID prop =? PropIDFontSize then
      match getShortValue prop with
      | Some fsRaw =>
          if fsRaw >? 0 then mkWindowConfig w h t rs sf bg fg bc (F32.of_Z fsRaw)
          else config
      | None => config
      end
    else config) props config.

(** The cases shared by the three element-level appliers. *)
Definition applyColorProp (set : Color -> RenderElement -> RenderElement)
    (prop : Property) (doc : Document) (el : RenderElement) : RenderElement :=
  match getColorValue prop (Flags (docHeader doc)) with
  | Some c => set c el
  | None => el
  end.

Definition applyBorderWidthProp (prop : Property) (el : RenderElement) : RenderElement :=
  match getByteValue prop with
  | Some bw => set_BorderWidths (mkEdges bw bw bw bw) el
  | None =>
      match getEdgeInsetsValue prop with
      | Some edges => set_BorderWidths edges el
      | None => el
      end
  end.

Definition applyPaddingProp (prop : Property) (el : RenderElement) : RenderElement :=
  match getEdgeInsetsValue prop with
  | Some p => set_Padding p el
  | None => el
  end.

Definition applyTextAlignmentProp (prop : Property) (el : RenderElement) : RenderElement :=
  match getByteValue prop with
  | Some align => set_TextAlignment align el
  | None => el
  end.

Definition applyVisibilityProp (prop : Property) (el : RenderElement) : RenderElement :=
  match getByteValue prop with
  | Some vis => set_IsVisible (negb (vis =? 0)) el
  | None => el
  end.

Definition applyFontSizeProp (prop : Property) (el : RenderElement) : RenderElement :=
  match getShortValue prop with
  | Some fsRaw => if fsRaw >? 0 then set_ResolvedFontSize (F32.of_Z fsRaw) el else el
  | None => el
  end.

Definition applyStyleProperty (doc : Document) (el : RenderElement) (prop : Property)
    : RenderElement :=
  if propID prop =? PropIDBgColor then applyColorProp set_BgColor prop doc el
  else if propID prop =? PropIDFgColor then applyColorProp set_FgColor prop doc el
  else if propID prop =? PropIDBorderColor then applyColorProp set_BorderColor prop doc el
  else if propID prop =? PropIDBorderWidth then applyBorderWidthProp prop el
  else if propID prop =? PropIDPadding then applyPaddingProp prop el
  else if propID prop =? PropIDTextAlignment then applyTextAlignmentProp prop el
  else if propID prop =? PropIDVisibility then applyVisibilityProp prop el
  else if propID prop =? PropIDFontSize then applyFontSizeProp prop el
  else el.

Definition applyStylePropertiesToElement
    (props : list Property) (doc : Document) (el : RenderElement) : RenderElement :=
  fold_left (applyStyleProperty doc) props el.

Definition applyDirectProperty (doc : Document) (el : RenderElement) (prop : Property)
    : RenderElement :=
  if propID prop =? PropIDBgColor then applyColorProp set_BgColor prop doc el
  else if propID prop =? PropIDFgColor then applyColorProp set_FgColor prop doc el
  else if propID prop =? PropIDBorderColor then applyColorProp set_BorderColor prop doc el
  else if propID prop =? PropIDBorderWidth then applyBorderWidthProp prop el
  else if propID prop =? PropIDPadding then applyPaddingProp prop el
  else if propID prop =? PropIDTextAlignment then applyTextAlignmentProp prop el
  else if propID prop =? PropIDVisibility then applyVisibilityProp prop el
  else if propID prop =? PropIDTextContent then
    match getByteValue prop with
    | Some strIdx =>
        match getStringValueByIdx doc strIdx with
        | (textVal, true) => set_Text textVal el
        | _ => el
        end
    | None => el
    end
  else if propID prop =? PropIDImageSource then
    match getByteValue prop with
    | Some resIdx => set_ResourceIndex resIdx el
    | None => el
    end
  else if propID prop =? PropIDFontSize then applyFontSizeProp prop el
  else el.

Definition applyDirectPropertiesToElement
    (props : list Property) (doc : Document) (el : RenderElement) : RenderElement :=
  fold_left (applyDirectProperty doc) props el.

Definition applyDirectVisualProperty (doc : Document) (el : RenderElement) (prop : Property)
    : RenderElement :=
  if propID prop =? PropIDBgColor then applyColorProp set_BgColor prop doc el
  else if propID prop =? PropIDFgColor then applyColorProp set_FgColor prop doc el
  else if propID prop =? PropIDBorderColor then applyColorProp set_BorderColor prop doc el
  else if propID prop =? PropIDBorderWidth then applyBorderWidthProp prop el
  else if propID prop =? PropIDPadding then applyPaddingProp prop el
  else if propID prop =? PropIDVisibility then applyVisibilityProp prop el
  else if propID prop =? PropIDFontSize then applyFontSizeProp prop el
  else el.

Definition applyDirectVisualPropertiesToAppElement
    (props : list Property) (doc : Document) (el : RenderElement) : RenderElement :=
  fold_left (applyDirectVisualProperty doc) props el.

Definition isTextOrButton (el : RenderElement) : bool :=
  (Type_ (Header el) =? ElemTypeText) || (Type_ (Header el) =? ElemTypeButton).

Definition resolveElementTextAndImage
    (doc : Document) (el : RenderElement) (style : option Style) : RenderElement :=
  let el :=
    if isTextOrButton el && String.eqb (Text el) "" then
      match style with
      | Some st =>
          match getStylePropertyValue st PropIDTextContent with
          | Some styleProp =>
              match getByteValue styleProp with
              | Some strIdx =>
                  match getStringValueByIdx doc strIdx with
                  | (s, true) => set_Text s el
                  | _ => el
                  end
              | None => el
              end
          | None => el
          end
      | None => el
      end
    else el in
  if ((Type_ (Header el) =? ElemTypeImage) || (Type_ (Header el) =? ElemTypeButton))
     && (ResourceIndex el =? InvalidResourceIndex) then
    match style with
    | Some st =>
        match getStylePropertyValue st PropIDImageSource with
        | Some styleProp =>
            match getByteValue styleProp with
            | Some idx => set_ResourceIndex idx el
            | None => el
            end
        | None => el
        end
    | None => el
    end
  else el.

Definition applyContextualDefaults (config : WindowConfig) (el : RenderElement)
    : RenderElement :=
  let hasBorderColor := hasAlpha (BorderColor el) in
  let bw := BorderWidths el in
  let allBorderWidthsZero :=
    negb ((eTop bw >? 0) || (eRight bw >? 0) || (eBottom bw >? 0) || (eLeft bw >? 0)) in
  if hasBorderColor && allBorderWidthsZero then set_BorderWidths (mkEdges 1 1 1 1) el
  else if negb allBorderWidthsZero && negb hasBorderColor
       then set_BorderColor (DefaultBorderColor config) el
  else el.

(** ** Property inheritance *)

Definition isTextBearing (el : RenderElement) : bool :=
  (Type_ (Header el) =? ElemTypeText) || (Type_ (Header el) =? ElemTypeButton)
  || (Type_ (Header el) =? ElemTypeInput).

(** [c == rl.Blank || c.A == 0] *)
Definition fgUnset (c : Color) : bool := Color_eqb c Blank || (cA c =? 0)%N.

(** A [for _, x := range xs] loop whose body may fail. *)
Fixpoint forEach {A S : Type} (body : S -> A -> outcome S) (xs : list A) (s : S)
    : outcome S :=
  match xs with
  | [] => Done s
  | x :: xs => s' ← body s x; forEach body xs s'
  end.

Fixpoint applyInheritanceRecursive (fuel : nat) (r : RaylibRenderer) (el : ptr)
    (inheritedFgColor : Color) (inheritedFontSize : float32)
    (inheritedTextAlignment : Z) : outcome RaylibRenderer :=
  match fuel with
  | O => NoFuel
  | S fuel =>
      (* 1. ForegroundColor *)
      let r :=
        if isTextBearing (get r el) && fgUnset (FgColor (get r el)) then
          if hasAlpha inheritedFgColor
          then update el (set_FgColor inheritedFgColor) r
          else update el (set_FgColor (DefaultFgColor (config r))) r
        else r in
      let fgColorForChildren :=
        if (cA (FgColor (get r el)) =? 0)%N then inheritedFgColor else FgColor (get r el) in
      (* 2. FontSize *)
      let r :=
        if F32.eqb (ResolvedFontSize (get r el)) F32.zero
        then update el (set_ResolvedFontSize inheritedFontSize) r
        else r in
      let fontSizeForChildren := ResolvedFontSize (get r el) in
      (* 3. TextAlignment *)
      let r :=
        if TextAlignment (get r el) =? UnsetTextAlignmentSentinel
        then update el (set_TextAlignment inheritedTextAlignment) r
        else r in
      let textAlignmentForChildren := TextAlignment (get r el) in
      forEach (fun r child =>
                 applyInheritanceRecursive fuel r child fgColorForChildren
                   fontSizeForChildren textAlignmentForChildren)
        (Children (get r el)) r
  end.

Definition resolveRootInheritance (fuel : nat) (r : RaylibRenderer) (rootEl : ptr)
    : outcome RaylibRenderer :=
  let initialFgColor := DefaultFgColor (config r) in
  let initialFontSize := DefaultFontSize (config r) in
  let initialTextAlignment := LayoutAlignStart in
  let isTextBearingRoot := isTextBearing (get r rootEl) in
  let r :=
    if isTextBearingRoot && fgUnset (FgColor (get r rootEl))
    then update rootEl (set_FgColor initialFgColor) r
    else r in
  let fgColorToPassToChildren :=
    if (cA (FgColor (get r rootEl)) =? 0)%N then initialFgColor else FgColor (get r rootEl) in
  let resolvedRootFontSize := ResolvedFontSize (get r rootEl) in
  let '(r, resolvedRootFontSize) :=
    if F32.eqb resolvedRootFontSize F32.zero
    then (update rootEl (set_ResolvedFontSize initialFontSize) r, initialFontSize)
    else (r, resolvedRootFontSize) in
  let resolvedRootTextAlignment := TextAlignment (get r rootEl) in
  let '(r, resolvedRootTextAlignment) :=
    if TextAlignment (get r rootEl) =? UnsetTextAlignmentSentinel
    then (update rootEl (set_TextAlignment initialTextAlignment) r, initialTextAlignment)
    else (r, resolvedRootTextAlignment) in
  applyInheritanceRecursive fuel r rootEl fgColorToPassToChildren
    resolvedRootFontSize resolvedRootTextAlignment.

Definition resolvePropertyInheritance (fuel : nat) (r : RaylibRenderer)
    : outcome RaylibRenderer :=
  match roots r, docRef r with
  | [], _ | _, None => Done r
  | _, Some _ => forEach (resolveRootInheritance fuel) (roots r) r
  end.

Fixpoint getEffectiveInheritedFgColor (fuel : nat) (r : RaylibRenderer)
    (el : option ptr) : outcome Color :=
  match el with
  | None => Done (DefaultFgColor (config r))
  | Some ancestor =>
      if hasAlpha (FgColor (get r ancestor)) then Done (FgColor (get r ancestor))
      else
        match fuel with
        | O => NoFuel
        | S fuel => getEffectiveInheritedFgColor fuel r (Parent (get r ancestor))
        end
  end.

Fixpoint getEffectiveInheritedFontSize (fuel : nat) (r : RaylibRenderer)
    (el : option ptr) : outcome float32 :=
  match el with
  | None => Done (DefaultFontSize (config r))
  | Some ancestor =>
      if negb (F32.eqb (ResolvedFontSize (get r ancestor)) F32.zero)
      then Done (ResolvedFontSize (get r ancestor))
      else
        match fuel with
        | O => NoFuel
        | S fuel => getEffectiveInheritedFontSize fuel r (Parent (get r ancestor))
        end
  end.

(** ** Re-resolving the visuals of one element *)

Definition ReResolveElementVisuals (fuel : nat) (r : RaylibRenderer) (el : option ptr)
    : outcome RaylibRenderer :=
  match el, docRef r with
  | None, _ | _, None => Done (log WarnReResolveNil r)
  | Some el, Some doc =>
      (* 1. Reset visual properties. *)
      let r := update el (set_BgColor Blank) r in
      let r := update el (set_FgColor Blank) r in
      let r := update el (set_BorderColor Blank) r in
      let r := update el (set_BorderWidths noEdges) r in
      let r := update el (set_Padding noEdges) r in
      let r := update el (set_TextAlignment UnsetTextAlignmentSentinel) r in
      let r := update el (set_ResolvedFontSize F32.zero) r in
      (* 2. Apply the element's current StyleID properties. *)
      let style := findStyle doc (StyleID (Header (get r el))) in
      let r :=
        match style with
        | Some st => update el (applyStylePropertiesToElement (styleProperties st) doc) r
        | None =>
            if negb (StyleID (Header (get r el)) =? 0)
            then log WarnReResolveStyleNotFound r else r
        end in
      (* 3. Re-apply direct KRB properties. *)
      let r :=
        match Properties doc !! OriginalIndex (get r el) with
        | Some ((_ :: _) as props) => update el (applyDirectPropertiesToElement props doc) r
        | _ => r
        end in
      (* 4. Re-apply contextual defaults. *)
      let r := update el (applyContextualDefaults (config r)) r in
      (* 5. Re-resolve text and image source. *)
      let r := update el (fun e => resolveElementTextAndImage doc e style) r in
      (* 6. Re-resolve inheritance for el and propagate to its children. *)
      inh ←
        match Parent (get r el) with
        | None =>
            Done (r, DefaultFgColor (config r), DefaultFontSize (config r), LayoutAlignStart)
        | Some parent =>
            inheritedFgColor ← getEffectiveInheritedFgColor fuel r (Some parent);
            inheritedFontSize ←
              (if negb (F32.eqb (ResolvedFontSize (get r parent)) F32.zero)
               then Done (ResolvedFontSize (get r parent))
               else getEffectiveInheritedFontSize fuel r (Some parent));
            if TextAlignment (get r parent) =? UnsetTextAlignmentSentinel
            then Done (log WarnParentAlignmentUnset r, inheritedFgColor, inheritedFontSize,
                       Z.of_N (cA (DefaultFgColor (config r))))
            else Done (r, inheritedFgColor, inheritedFontSize, TextAlignment (get r parent))
        end;
      let '(r, inheritedFgColor, inheritedFontSize, inheritedTextAlignment) := inh in
      let isTextBearing_el := isTextBearing (get r el) in
      let r :=
        if isTextBearing_el && fgUnset (FgColor (get r el))
        then update el (set_FgColor inheritedFgColor) r else r in
      let r :=
        if F32.eqb (ResolvedFontSize (get r el)) F32.zero
        then update el (set_ResolvedFontSize inheritedFontSize) r else r in
      let r :=
        if TextAlignment (get r el) =? UnsetTextAlignmentSentinel
        then update el (set_TextAlignment inheritedTextAlignment) r else r in
      let r :=
        if TextAlignment (get r el) =? UnsetTextAlignmentSentinel
        then update el (set_TextAlignment LayoutAlignStart) r else r in
      let r :=
        if isTextBearing_el && (cA (FgColor (get r el)) =? 0)%N
        then update el (set_FgColor (DefaultFgColor (config r))) r else r in
      let r :=
        if F32.eqb (ResolvedFontSize (get r el)) F32.zero
        then update el (set_ResolvedFontSize (DefaultFontSize (config r))) r else r in
      let computedFgColorForChildren :=
        if (cA (FgColor (get r el)) =? 0)%N then inheritedFgColor else FgColor (get r el) in
      let computedFontSizeForChildren :=
        if F32.eqb (ResolvedFontSize (get r el)) F32.zero
        then inheritedFontSize else ResolvedFontSize (get r el) in
      let computedTextAlignmentForChildren := TextAlignment (get r el) in
      forEach (fun r child =>
                 applyInheritanceRecursive fuel r child computedFgColorForChildren
                   computedFontSizeForChildren computedTextAlignmentForChildren)
        (Children (get r el)) r
  end.

(** ** Linking the document's own elements *)

(** [for i := 0; i < n; i++] over an accumulator. *)
Definition forRange {S : Type} (n : nat) (body : S -> nat -> outcome S) (s : S)
    : outcome S :=
  forEach body (seq 0 n) s.

Inductive PrepareError : Type :=
  | ErrDocNil
  | ErrLinkNoOffsets.

(** Pass over the child references of one element: the children that
    resolve, in order, and the log.  [&r.elements[childIndex]] panics on an
    index that is not below the length of the collection. *)
Definition resolveChildRefs (i : nat) (parentStartOffset : Z)
    (offsetToInitialElementIndex : gmap Z nat) (krbChildRefs : list ChildRef)
    (r : RaylibRenderer) : outcome (list ptr * RaylibRenderer) :=
  forEach (fun (acc : list ptr * RaylibRenderer) (childRef : ChildRef) =>
    let '(actualChildren, r) := acc in
    let childAbsoluteFileOffset := wrap32 (parentStartOffset + ChildOffset childRef) in
    match offsetToInitialElementIndex !! childAbsoluteFileOffset with
    | None => Done (actualChildren, log (ErrChildRefUnresolved i (ChildOffset childRef)) r)
    | Some childIndexInInitialElements =>
        if (childIndexInInitialElements <? s_len (elements r))%nat
        then Done (actualChildren ++ [addr (elements r) childIndexInInitialElements], r)
        else Panic
    end) krbChildRefs ([], r).

Definition buildOffsetIndex (initialElementCount : nat) (offsets : list Z)
    : gmap Z nat :=
  fold_left (fun (m : gmap Z nat) (i : nat) =>
               match offsets !! i with
               | Some off => <[off := i]> m
               | None => m
               end)
    (seq 0 (Nat.min initialElementCount (length offsets))) ∅.

Definition linkOriginalKrbChildren (initialElementCount : nat)
    (kryUsageChildrenMap : gmap nat (list ptr)) (r : RaylibRenderer)
    : outcome (RaylibRenderer * gmap nat (list ptr) * option PrepareError) :=
  match docRef r with
  | None => Done (r, kryUsageChildrenMap, Some ErrLinkNoOffsets)
  | Some doc =>
  match ElementStartOffsets doc with
  | None => Done (r, kryUsageChildrenMap, Some ErrLinkNoOffsets)
  | Some offsets =>
      let offsetToInitialElementIndex := buildOffsetIndex initialElementCount offsets in
      st ← forRange initialElementCount
        (fun (st : RaylibRenderer * gmap nat (list ptr)) (i : nat) =>
           let '(r, kryUsageChildrenMap) := st in
           (* &r.elements[i] *)
           if negb (i <? s_len (elements r))%nat then Panic else
           let currentEl := addr (elements r) i in
           match Elements doc !! i with
           | None => Panic
           | Some originalKrbHeader =>
               let componentName :=
                 (GetCustomPropertyValue (get r currentEl) componentNameConventionKey doc).1 in
               let isPlaceholder := negb (String.eqb componentName "") in
               if ChildCount originalKrbHeader >? 0 then
                 match ChildRefs doc !! i with
                 | None | Some None => Done (log (WarnNoChildRefs i) r, kryUsageChildrenMap)
                 | Some (Some krbChildRefs) =>
                     match offsets !! i with
                     | None => Done (log (ErrMissingStartOffset i) r, kryUsageChildrenMap)
                     | Some parentStartOffset =>
                         res ← resolveChildRefs i parentStartOffset
                                 offsetToInitialElementIndex krbChildRefs r;
                         let '(actualChildren, r) := res in
                         if isPlaceholder then
                           Done (r, <[i := actualChildren]> kryUsageChildrenMap)
                         else
                           let r := update currentEl (set_Children actualChildren) r in
                           let r :=
                             fold_left (fun r child => update child (set_Parent (Some currentEl)) r)
                               actualChildren r in
                           Done (r, kryUsageChildrenMap)
                     end
                 end
               else Done (r, kryUsageChildrenMap)
           end)
        (r, kryUsageChildrenMap);
      Done (st.1, st.2, None)
  end
  end.

Definition finalizeTreeStructureAndRoots (r : RaylibRenderer) : RaylibRenderer :=
  if (s_len (elements r) =? 0)%nat then set_roots [] r
  else
    let r := set_roots [] r in
    let r :=
      fold_left (fun r i =>
                   let el := addr (elements r) i in
                   match Parent (get r el) with
                   | None => set_roots (roots r ++ [el]) r
                   | Some _ => r
                   end)
        (seq 0 (s_len (elements r))) r in
    match roots r with
    | [] => log WarnNoRoots r
    | _ => r
    end.

Definition findComponentDefinition (r : RaylibRenderer) (name : string)
    : option KrbComponentDefinition :=
  match docRef r with
  | None => None
  | Some doc =>
      match ComponentDefinitions doc, Strings doc with
      | [], _ | _, [] => None
      | defs, strs =>
          List.find (fun compDef =>
                       match strs !! Z.to_nat (NameIndex compDef) with
                       | Some s => String.eqb s name
                       | None => false
                       end) defs
      end
  end.

Definition findStyleIDByName (doc : option Document) (name : string) : Z :=
  match doc with
  | None => 0
  | Some doc =>
      if String.eqb name "" then 0
      else
        match List.find (fun style =>
                           match getStringValueByIdx doc (styleNameIndex style) with
                           | (styleName, true) => String.eqb styleName name
                           | _ => false
                           end) (Styles doc) with
        | Some style => styleID style
        | None => 0
        end
  end.

(** ** Component expansion *)

(** A [bytes.Reader] over the template blob. *)
Record Reader : Type := mkReader { rd_data : list Z; rd_pos : nat }.

Definition rd_Len (rd : Reader) : nat := length (rd_data rd) - rd_pos rd.

(** [Read(buf)] with [len(buf) = n]: the bytes read, whether [io.EOF] was
    returned, and the reader afterwards. *)
Definition rd_Read (n : nat) (rd : Reader) : list Z * bool * Reader :=
  if (length (rd_data rd) <=? rd_pos rd)%nat then ([], true, rd)
  else
    let bs := take n (drop (rd_pos rd) (rd_data rd)) in
    (bs, false, mkReader (rd_data rd) (rd_pos rd + length bs)).

(** [Seek(n, io.SeekCurrent)]: the new absolute position is what it returns. *)
Definition rd_Seek (n : nat) (rd : Reader) : nat * Reader :=
  (rd_pos rd + n, mkReader (rd_data rd) (rd_pos rd + n))%nat.

Inductive ExpandError : Type :=
  | ErrReadHeader
  | ErrReadPropHeader
  | ErrReadPropValue
  | ErrReadCustomPropHeader
  | ErrReadCustomPropValue
  | ErrReadEventBlock
  | ErrSeekAnimRefs
  | ErrReadChildRefs
  | ErrNestedExpansion (e : ExpandError).

Record TemplateChildInfo : Type := mkChildInfo {
  parentGlobalIndex : nat;
  childRefs : list ChildRef;
  parentHeaderOffsetInTemplate : Z
}.

Definition byteAt (buf : list Z) (i : nat) : Z := default 0 (buf !! i).

Definition parseElementHeader (headerBuf : list Z) : ElementHeader :=
  mkElementHeader (byteAt headerBuf 0) (byteAt headerBuf 1)
    (ReadU16LE (byteAt headerBuf 2) (byteAt headerBuf 3))
    (ReadU16LE (byteAt headerBuf 4) (byteAt headerBuf 5))
    (ReadU16LE (byteAt headerBuf 6) (byteAt headerBuf 7))
    (ReadU16LE (byteAt headerBuf 8) (byteAt headerBuf 9))
    (byteAt headerBuf 10) (byteAt headerBuf 11) (byteAt headerBuf 12)
    (byteAt headerBuf 13) (byteAt headerBuf 14) (byteAt headerBuf 15)
    (byteAt headerBuf 16).

(** Read [count] property records (3-byte header, then the value). *)
Fixpoint readProperties (count : nat) (rd : Reader) (offset : Z)
    (errHeader errValue : ExpandError) : (list Property * Reader * Z) + ExpandError :=
  match count with
  | O => inl ([], rd, offset)
  | S count =>
      let '(propHeaderBuf, eof, rd) := rd_Read 3 rd in
      if eof || (length propHeaderBuf <? 3)%nat then inr errHeader
      else
        let offset := wrap32 (offset + 3) in
        let size := byteAt propHeaderBuf 2 in
        let readValue : option (list Z * Reader * Z) :=
          if size >? 0 then
            let '(value, eof, rd) := rd_Read (Z.to_nat size) rd in
            if eof || (length value <? Z.to_nat size)%nat then None
            else Some (value, rd, wrap32 (offset + Z.of_nat (length value)))
          else Some ([], rd, offset) in
        match readValue with
        | None => inr errValue
        | Some (value, rd, offset) =>
            let prop := mkProperty (byteAt propHeaderBuf 0) (byteAt propHeaderBuf 1) size value in
            match readProperties count rd offset errHeader errValue with
            | inl (props, rd, offset) => inl (prop :: props, rd, offset)
            | inr e => inr e
            end
        end
  end.

(** The name of the nested component a template element stands for, from
    its custom properties ([""] when it is no placeholder). *)
Definition nestedComponentName (doc : Document) (customProps : list Property) : string :=
  fold_left (fun (name : string) (cprop : Property) =>
    match getStringValueByIdx doc (propID cprop) with
    | (keyName, true) =>
        if String.eqb keyName componentNameConventionKey then
          if ((propValueType cprop =? ValTypeString) || (propValueType cprop =? ValTypeResource))
             && (propSize cprop =? 1) && (length (propValue cprop) =? 1)%nat then
            match getStringValueByIdx doc (byteAt (propValue cprop) 0) with
            | (strVal, true) => strVal
            | _ => name
            end
          else name
        else name
    | _ => name
    end) customProps EmptyString.

(** Growing [*allElements] so that index [newElGlobalIndex] exists. *)
Definition growElements (newElGlobalIndex : nat) (r : RaylibRenderer)
    : outcome RaylibRenderer :=
  let r :=
    if (s_cap (elements r) <=? newElGlobalIndex)%nat then
      let newCap := (s_cap (elements r) * 2 + 20)%nat in
      let old := take (s_len (elements r)) (default [] (heap r !! s_arr (elements r))) in
      let tempSlice := mkSlice (length (heap r)) (s_len (elements r)) newCap in
      let fresh := old ++ replicate (newCap - length old) zeroElement in
      set_elements tempSlice (set_heap (heap r ++ [fresh]) r)
    else r in
  if (s_len (elements r) <=? newElGlobalIndex)%nat then
    if (newElGlobalIndex + 1 <=? s_cap (elements r))%nat
    then Done (set_elements (mkSlice (s_arr (elements r)) (newElGlobalIndex + 1)
                               (s_cap (elements r))) r)
    else Panic
  else Done r.

(** The style id of the template root: the instance's, else the template's. *)
Definition resolvedStyleIDForTplRoot (instanceStyleID templateStyleID : Z) : Z :=
  if (instanceStyleID =? 0) && negb (templateStyleID =? 0) then templateStyleID
  else instanceStyleID.

Fixpoint parseEventHandlers (doc : Document) (count : nat) (eventBuf : list Z)
    (r : RaylibRenderer) : list EventCallbackInfo * RaylibRenderer :=
  match count with
  | O => ([], r)
  | S count =>
      let eventType := byteAt eventBuf 0 in
      let callbackID := byteAt eventBuf 1 in
      let '(h, r) :=
        match getStringValueByIdx doc callbackID with
        | (handlerName, true) => (mkEventCallbackInfo eventType handlerName, r)
        | _ => (mkEventCallbackInfo 0 EmptyString, log WarnInvalidEventCallback r)
        end in
      let '(hs, r) := parseEventHandlers doc count (drop EventFileEntrySize eventBuf) r in
      (h :: hs, r)
  end.

Fixpoint parseChildRefs (count : nat) (childRefBuf : list Z) : list ChildRef :=
  match count with
  | O => []
  | S count =>
      mkChildRef (ReadU16LE (byteAt childRefBuf 0) (byteAt childRefBuf 1))
        :: parseChildRefs count (drop ChildRefSize childRefBuf)
  end.

(** The variables of pass 1 that live across iterations. *)
Record Pass1State : Type := mkPass1 {
  p1_r : RaylibRenderer;
  p1_next : nat;
  p1_reader : Reader;
  p1_offset : Z;
  p1_map : gmap Z nat;
  p1_infos : list TemplateChildInfo;
  p1_root : option nat
}.

(** What [expandComponent] hands back: the renderer, [*nextMasterIndex], and
    the error if it returned one. *)
Definition ExpandResult : Type := (RaylibRenderer * nat * option ExpandError)%type.

(** One iteration of the loop of pass 1; [inr] when the function returns
    from inside the loop.  [expand] is the recursive call. *)
Definition pass1Step
    (expand : RaylibRenderer -> ptr -> KrbComponentDefinition -> nat -> list ptr
              -> outcome ExpandResult)
    (doc : Document) (instanceElement : ptr) (st : Pass1State)
    : outcome (Pass1State + ExpandResult) :=
  let r := p1_r st in
  let currentElementHeaderOffsetInTemplate := p1_offset st in
  let '(headerBuf, eof, rd) := rd_Read ElementHeaderSize (p1_reader st) in
  if eof then Done (inl st) (* break: the reader is at its end *)
  else if (length headerBuf <? ElementHeaderSize)%nat
  then Done (inr (r, p1_next st, Some ErrReadHeader))
  else
  let offset := wrap32 (p1_offset st + Z.of_nat (length headerBuf)) in
  let templateKrbHeader := parseElementHeader headerBuf in
  let newElGlobalIndex := p1_next st in
  let next := S (p1_next st) in
  r ← growElements newElGlobalIndex r;
  let newEl := addr (elements r) newElGlobalIndex in
  let r := update newEl (set_OriginalIndex newElGlobalIndex) r in
  let r := update newEl (set_Header templateKrbHeader) r in
  let r := update newEl (set_BgColor Blank) r in
  let r := update newEl (set_FgColor Blank) r in
  let r := update newEl (set_BorderColor Blank) r in
  let r := update newEl (set_BorderWidths noEdges) r in
  let r := update newEl (set_Padding noEdges) r in
  let r := update newEl (set_TextAlignment UnsetTextAlignmentSentinel) r in
  let r := update newEl (set_IsVisible true) r in
  let r := update newEl (set_ResourceIndex InvalidResourceIndex) r in
  let r := update newEl (set_IsInteractive
             ((Type_ templateKrbHeader =? ElemTypeButton)
              || (Type_ templateKrbHeader =? ElemTypeInput))) r in
  let localMap := <[currentElementHeaderOffsetInTemplate := newElGlobalIndex]> (p1_map st) in
  match readProperties (Z.to_nat (PropertyCount templateKrbHeader)) rd offset
          ErrReadPropHeader ErrReadPropValue with
  | inr e => Done (inr (r, next, Some e))
  | inl (templateDirectProps, rd, offset) =>
  match readProperties (Z.to_nat (CustomPropCount templateKrbHeader)) rd offset
          ErrReadCustomPropHeader ErrReadCustomPropValue with
  | inr e => Done (inr (r, next, Some e))
  | inl (customProps, rd, offset) =>
  let nestedComponentNameForThisNewEl := nestedComponentName doc customProps in
  let '(r, root) :=
    match p1_root st with
    | None =>
        let r := update newEl (set_Parent (Some instanceElement)) r in
        let ih := Header (get r instanceElement) in
        let r := update newEl (fun e =>
                   set_Header (mkElementHeader (Type_ (Header e)) (ID ih) (PosX ih) (PosY ih)
                                 (Width ih) (Height ih) (Layout ih) (StyleID (Header e))
                                 (PropertyCount (Header e)) (ChildCount (Header e))
                                 (EventCount (Header e)) (AnimationCount (Header e))
                                 (CustomPropCount (Header e))) e) r in
        let styleIDForRoot :=
          resolvedStyleIDForTplRoot (StyleID (Header (get r instanceElement)))
            (StyleID templateKrbHeader) in
        let r := update newEl (fun e =>
                   set_Header (mkElementHeader (Type_ (Header e)) (ID (Header e))
                                 (PosX (Header e)) (PosY (Header e)) (Width (Header e))
                                 (Height (Header e)) (Layout (Header e)) styleIDForRoot
                                 (PropertyCount (Header e)) (ChildCount (Header e))
                                 (EventCount (Header e)) (AnimationCount (Header e))
                                 (CustomPropCount (Header e))) e) r in
        let r :=
          match findStyle doc (StyleID (Header (get r newEl))) with
          | Some style => update newEl (applyStylePropertiesToElement (styleProperties style) doc) r
          | None => r
          end in
        let r :=
          match Properties doc !! OriginalIndex (get r instanceElement) with
          | Some ((_ :: _) as props) => update newEl (applyDirectPropertiesToElement props doc) r
          | _ => r
          end in
        (r, Some newElGlobalIndex)
    | Some root =>
        let r :=
          match findStyle doc (StyleID templateKrbHeader) with
          | Some style => update newEl (applyStylePropertiesToElement (styleProperties style) doc) r
          | None => r
          end in
        (update newEl (applyDirectPropertiesToElement templateDirectProps doc) r, Some root)
    end in
  let r := update newEl (applyContextualDefaults (config r)) r in
  let styleForNewEl := findStyle doc (StyleID (Header (get r newEl))) in
  let r := update newEl (fun e => resolveElementTextAndImage doc e styleForNewEl) r in
  (* event handlers of the template *)
  let events : option (RaylibRenderer * Reader * Z) :=
    if EventCount templateKrbHeader >? 0 then
      let eventDataSize := (Z.to_nat (EventCount templateKrbHeader) * EventFileEntrySize)%nat in
      let '(eventBuf, eof, rd) := rd_Read eventDataSize rd in
      if eof || (length eventBuf <? eventDataSize)%nat then None
      else
        let '(handlers, r) :=
          parseEventHandlers doc (Z.to_nat (EventCount templateKrbHeader)) eventBuf r in
        Some (update newEl (set_EventHandlers handlers) r, rd,
              wrap32 (offset + Z.of_nat (length eventBuf)))
    else Some (r, rd, offset) in
  match events with
  | None => Done (inr (r, next, Some ErrReadEventBlock))
  | Some (r, rd, offset) =>
  (* animation references are skipped *)
  let anims : option (Reader * Z) :=
    if AnimationCount templateKrbHeader >? 0 then
      let animRefDataSize := (Z.to_nat (AnimationCount templateKrbHeader) * AnimationRefSize)%nat in
      let '(bytesSkipped, rd) := rd_Seek animRefDataSize rd in
      if (bytesSkipped <? animRefDataSize)%nat then None
      else Some (rd, wrap32 (offset + Z.of_nat animRefDataSize))
    else Some (rd, offset) in
  match anims with
  | None => Done (inr (r, next, Some ErrSeekAnimRefs))
  | Some (rd, offset) =>
  (* child references, kept for pass 2 *)
  let refs : option (list TemplateChildInfo * Reader * Z) :=
    if ChildCount templateKrbHeader >? 0 then
      let childRefDataSize := (Z.to_nat (ChildCount templateKrbHeader) * ChildRefSize)%nat in
      let '(childRefBuf, eof, rd) := rd_Read childRefDataSize rd in
      if eof || (length childRefBuf <? childRefDataSize)%nat then None
      else
        let tplChildRefs := parseChildRefs (Z.to_nat (ChildCount templateKrbHeader)) childRefBuf in
        Some (p1_infos st ++
                [mkChildInfo newElGlobalIndex tplChildRefs currentElementHeaderOffsetInTemplate],
              rd, wrap32 (offset + Z.of_nat (length childRefBuf)))
    else Some (p1_infos st, rd, offset) in
  match refs with
  | None => Done (inr (r, next, Some ErrReadChildRefs))
  | Some (infos, rd, offset) =>
  (* nested component *)
  if negb (String.eqb nestedComponentNameForThisNewEl "") then
    match findComponentDefinition r nestedComponentNameForThisNewEl with
    | Some nestedCompDef =>
        let r := update newEl (set_IsExpandedAsNestedComponent true) r in
        res ← expand r newEl nestedCompDef next [];
        let '(r, next, err_nested) := res in
        match err_nested with
        | Some e => Done (inr (r, next, Some (ErrNestedExpansion e)))
        | None => Done (inl (mkPass1 r next rd offset localMap infos root))
        end
    | None =>
        Done (inl (mkPass1 (log WarnNestedCompDefNotFound r) next rd offset localMap infos root))
    end
  else Done (inl (mkPass1 r next rd offset localMap infos root))
  end end end end end.

(** [for templateReader.Len() > 0 { ... }] *)
Fixpoint pass1Loop
    (expand : RaylibRenderer -> ptr -> KrbComponentDefinition -> nat -> list ptr
              -> outcome ExpandResult)
    (doc : Document) (instanceElement : ptr) (fuel : nat) (st : Pass1State)
    : outcome (Pass1State + ExpandResult) :=
  if (rd_Len (p1_reader st) =? 0)%nat then Done (inl st)
  else
    match fuel with
    | O => NoFuel
    | S fuel =>
        res ← pass1Step expand doc instanceElement st;
        match res with
        | inl st => pass1Loop expand doc instanceElement fuel st
        | inr ret => Done (inr ret)
        end
    end.

(** Pass 2, for one recorded parent: link the children its child
    references name among the elements of this expansion. *)
Definition pass2Link (localMap : gmap Z nat) (r : RaylibRenderer)
    (info : TemplateChildInfo) : RaylibRenderer :=
  let parentElFromThisTemplate := addr (elements r) (parentGlobalIndex info) in
  if IsExpandedAsNestedComponent (get r parentElFromThisTemplate) then r
  else if negb (length (Children (get r parentElFromThisTemplate)) =? 0)%nat
          && forallb (fun child =>
                        bool_decide (Parent (get r child) = Some parentElFromThisTemplate))
               (Children (get r parentElFromThisTemplate))
  then r
  else
    let r := update parentElFromThisTemplate (set_Children []) r in
    fold_left (fun (r : RaylibRenderer) (childRef : ChildRef) =>
      let childAbsoluteOffsetInTemplateStream :=
        wrap32 (parentHeaderOffsetInTemplate info + ChildOffset childRef) in
      match localMap !! childAbsoluteOffsetInTemplateStream with
      | None => log ErrTemplateChildNotFound r
      | Some childGlobalIndex =>
          let childElFromThisTemplate := addr (elements r) childGlobalIndex in
          let r := update childElFromThisTemplate
                     (set_Parent (Some parentElFromThisTemplate)) r in
          update parentElFromThisTemplate
            (fun e => set_Children (Children e ++ [childElFromThisTemplate]) e) r
      end) (childRefs info) r.

(** The instance's children become the template root. *)
Definition finalizeInstance (instanceElement : ptr) (root : option nat)
    (r : RaylibRenderer) : RaylibRenderer :=
  match root with
  | Some currentTemplateRootGlobalIndex =>
      let rootOfExpandedTemplate := addr (elements r) currentTemplateRootGlobalIndex in
      update instanceElement (set_Children [rootOfExpandedTemplate]) r
  | None => r
  end.

(** Breadth-first search for the element whose id names the slot. *)
Fixpoint findSlot (fuel : nat) (doc : Document) (r : RaylibRenderer)
    (queue : list ptr) (visitedInSearch : gset ptr) : outcome (option ptr) :=
  match queue with
  | [] => Done None
  | currentNodeToSearch :: queue =>
      match fuel with
      | O => NoFuel
      | S fuel =>
          if decide (currentNodeToSearch ∈ visitedInSearch)
          then findSlot fuel doc r queue visitedInSearch
          else
            let visitedInSearch := {[currentNodeToSearch]} ∪ visitedInSearch in
            let idNameFromTemplate :=
              (getStringValueByIdx doc (ID (Header (get r currentNodeToSearch)))).1 in
            if String.eqb idNameFromTemplate childrenSlotIDName
            then Done (Some currentNodeToSearch)
            else
              findSlot fuel doc r
                (queue ++ filter (fun c => c ∉ visitedInSearch)
                            (Children (get r currentNodeToSearch)))
                visitedInSearch
      end
  end.

(** [host.Children = append(host.Children, kry...)] and re-parenting. *)
Definition appendUsageChildren (host : ptr) (kryUsageChildren : list ptr)
    (r : RaylibRenderer) : RaylibRenderer :=
  let r := update host (fun e => set_Children (Children e ++ kryUsageChildren) e) r in
  fold_left (fun r kryChild => update kryChild (set_Parent (Some host)) r)
    kryUsageChildren r.

Definition slotUsageChildren (fuel : nat) (doc : Document) (instanceElement : ptr)
    (kryUsageChildren : list ptr) (r : RaylibRenderer) : outcome RaylibRenderer :=
  match kryUsageChildren with
  | [] => Done r
  | _ =>
      slot ←
        match Children (get r instanceElement) with
        | searchStartNode :: _ => findSlot fuel doc r [searchStartNode] ∅
        | [] => Done None
        end;
      match slot with
      | Some slotElement => Done (appendUsageChildren slotElement kryUsageChildren r)
      | None =>
          let r := log WarnNoSlotFound r in
          match Children (get r instanceElement) with
          | firstRootInTemplate :: _ =>
              if Type_ (Header (get r firstRootInTemplate)) =? ElemTypeContainer
              then Done (appendUsageChildren firstRootInTemplate kryUsageChildren r)
              else Done (log ErrRootNotContainer r)
          | [] => Done (log ErrNoTemplateRoot r)
          end
      end
  end.

Definition initPass1 (r : RaylibRenderer) (nextMasterIndex : nat)
    (compDef : KrbComponentDefinition) : Pass1State :=
  mkPass1 r nextMasterIndex (mkReader (RootElementTemplateData compDef) 0) 0 ∅ [] None.

Fixpoint expandComponent (fuel : nat) (r : RaylibRenderer) (instanceElement : ptr)
    (compDef : KrbComponentDefinition) (nextMasterIndex : nat)
    (kryUsageChildren : list ptr) : outcome ExpandResult :=
  match fuel with
  | O => NoFuel
  | S fuel =>
      match docRef r with
      | None => Panic
      | Some doc =>
          match RootElementTemplateData compDef with
          | [] =>
              let r := log WarnNoTemplateData r in
              if negb (length kryUsageChildren =? 0)%nat
                 && (Type_ (Header (get r instanceElement)) =? ElemTypeContainer)
              then Done (appendUsageChildren instanceElement kryUsageChildren r,
                         nextMasterIndex, None)
              else Done (r, nextMasterIndex, None)
          | _ =>
              (* pass 1: create the elements of the template *)
              res ← pass1Loop (expandComponent fuel) doc instanceElement fuel
                      (initPass1 r nextMasterIndex compDef);
              match res with
              | inr ret => Done ret
              | inl st =>
                  (* pass 2: link children within the template *)
                  let r := fold_left (pass2Link (p1_map st)) (p1_infos st) (p1_r st) in
                  let r := finalizeInstance instanceElement (p1_root st) r in
                  r ← slotUsageChildren fuel doc instanceElement kryUsageChildren r;
                  Done (r, p1_next st, None)
              end
          end
      end
  end.

(** ** [PrepareTree] *)

(** [math.Max(1.0, x)] on the way back to [float32]. *)
Definition maxWithOne (x : float32) : float32 :=
  match x with
  | S754_nan => S754_nan
  | _ => if F32.ltb (F32.of_Z 1) x then x else F32.of_Z 1
  end.

Definition initElement (doc : Document) (config : WindowConfig)
    (isAppElementPresent : bool) (i : nat) (krbElHeader : ElementHeader)
    (r : RaylibRenderer) : RaylibRenderer :=
  let renderEl := addr (elements r) i in
  let r := update renderEl (set_Header krbElHeader) r in
  let r := update renderEl (set_OriginalIndex i) r in
  let r := update renderEl (set_BgColor Blank) r in
  let r := update renderEl (set_FgColor Blank) r in
  let r := update renderEl (set_BorderColor Blank) r in
  let r := update renderEl (set_BorderWidths noEdges) r in
  let r := update renderEl (set_Padding noEdges) r in
  let r := update renderEl (set_TextAlignment LayoutAlignStart) r in
  let r := update renderEl (set_IsVisible true) r in
  let r := update renderEl (set_IsInteractive
             ((Type_ krbElHeader =? ElemTypeButton) || (Type_ krbElHeader =? ElemTypeInput))) r in
  let r := update renderEl (set_ResourceIndex InvalidResourceIndex) r in
  let elementStyle := findStyle doc (StyleID krbElHeader) in
  let r :=
    match elementStyle with
    | Some style => update renderEl (applyStylePropertiesToElement (styleProperties style) doc) r
    | None =>
        if negb (StyleID krbElHeader =? 0) && negb ((i =? 0)%nat && isAppElementPresent)
        then log (WarnElementStyleNotFound i) r else r
    end in
  let r :=
    match Properties doc !! i with
    | Some ((_ :: _) as props) =>
        if (i =? 0)%nat && isAppElementPresent
        then update renderEl
               (applyDirectVisualPropertiesToAppElement (default [] (Properties doc !! 0%nat)) doc) r
        else update renderEl (applyDirectPropertiesToElement props doc) r
    | _ => r
    end in
  let r := update renderEl (fun e => resolveElementTextAndImage doc e elementStyle) r in
  let r := update renderEl (applyContextualDefaults (config)) r in
  update renderEl (fun e => set_EventHandlers (resolveEventHandlers doc e) e) r.

Definition expandInstances (fuel : nat) (doc : Document) (initialElementCount : nat)
    (kryUsageChildrenMap : gmap nat (list ptr)) (r : RaylibRenderer)
    : outcome (RaylibRenderer * nat) :=
  forRange initialElementCount
    (fun (st : RaylibRenderer * nat) (i : nat) =>
       let '(r, nextMasterIndex) := st in
       let instanceElement := addr (elements r) i in
       let componentName :=
         (GetCustomPropertyValue (get r instanceElement) componentNameConventionKey doc).1 in
       if negb (String.eqb componentName "") then
         match findComponentDefinition r componentName with
         | Some compDef =>
             let instanceKryChildren :=
               default [] (kryUsageChildrenMap !! OriginalIndex (get r instanceElement)) in
             res ← expandComponent fuel r instanceElement compDef nextMasterIndex
                     instanceKryChildren;
             let '(r, nextMasterIndex, err_expand) := res in
             match err_expand with
             | Some _ => Done (log (ErrExpandFailed i) r, nextMasterIndex)
             | None => Done (r, nextMasterIndex)
             end
         | None => Done (log (WarnCompDefNotFound i) r, nextMasterIndex)
         end
       else Done (r, nextMasterIndex))
    (r, initialElementCount).

Definition PrepareTree (fuel : nat) (r : RaylibRenderer) (doc : option Document)
    : outcome (RaylibRenderer * option PrepareError) :=
  match doc with
  | None => Done (r, Some ErrDocNil)
  | Some doc =>
      let r := set_docRef (Some doc) r in
      (* 1, 2: window configuration from the App element *)
      let windowConfig := DefaultWindowConfig in
      isAppElementPresent ←
        (if negb (Z.land (Flags (docHeader doc)) FlagHasApp =? 0)
            && (ElementCount (docHeader doc) >? 0)
         then match Elements doc !! 0%nat with
              | Some e0 => Done (Type_ e0 =? ElemTypeApp)
              | None => Panic
              end
         else Done false);
      let '(windowConfig, r) :=
        if isAppElementPresent : bool then
          let appElementKrbHeader := default zeroHeader (Elements doc !! 0%nat) in
          let '(windowConfig, r) :=
            match findStyle doc (StyleID appElementKrbHeader) with
            | Some appStyle =>
                (applyStylePropertiesToWindowConfig (styleProperties appStyle) doc windowConfig, r)
            | None =>
                (windowConfig,
                 if negb (StyleID appElementKrbHeader =? 0) then log WarnAppStyleNotFound r else r)
            end in
          match Properties doc !! 0%nat with
          | Some ((_ :: _) as props) =>
              (applyDirectPropertiesToWindowConfig props doc windowConfig, r)
          | _ => (windowConfig, r)
          end
        else (windowConfig, r) in
      let r := set_scaleFactor (maxWithOne (wcScaleFactor windowConfig)) r in
      let r := set_config windowConfig r in
      (* 3: one render element per document element *)
      let initialElementCount := Z.to_nat (ElementCount (docHeader doc)) in
      if (initialElementCount =? 0)%nat then
        Done (set_roots [] (set_elements (mkSlice 0 0 0) r), None)
      else
        let '(h, s) := make_elements initialElementCount (initialElementCount * 2) (heap r) in
        let r := set_elements s (set_heap h r) in
        r ← forRange initialElementCount
               (fun r i =>
                  match Elements doc !! i with
                  | Some krbElHeader =>
                      Done (initElement doc (config r) isAppElementPresent i krbElHeader r)
                  | None => Panic
                  end) r;
        (* 4: link the document's children, expand components *)
        linked ← linkOriginalKrbChildren initialElementCount ∅ r;
        let '(r, kryUsageChildrenMap, err_link) := linked in
        match err_link with
        | Some e => Done (r, Some e)
        | None =>
            st ← expandInstances fuel doc initialElementCount kryUsageChildrenMap r;
            let '(r, _) := st in
            let r := finalizeTreeStructureAndRoots (set_roots [] r) in
            (* 5: inheritance *)
            r ← resolvePropertyInheritance fuel r;
            Done (r, None)
        end
  end.

End WithKrb.


(** ** The renderer's drawing of borders, and the tab-bar application *)

(** [int32(n)] for an [int] [n]. *)
Definition int32 (n : Z) : Z := (n + 2 ^ 31) mod 2 ^ 32 - 2 ^ 31.

(** A call of [rl.DrawRectangle]. *)
Record Rect : Type := mkRect { rx : Z; ry : Z; rw : Z; rh : Z; rcolor : Color }.

(** [drawBorders]: the rectangles it draws, in order. *)
Definition drawBorders (x y w h top right bottom left : Z) (color : Color) : list Rect :=
  if (cA color =? 0)%N then []
  else
    let d_top :=
      if top >? 0 then [mkRect (int32 x) (int32 y) (int32 w) (int32 top) color] else [] in
    let d_bottom :=
      if bottom >? 0
      then [mkRect (int32 x) (int32 (wrap_int (wrap_int (y + h) - bottom)))
              (int32 w) (int32 bottom) color]
      else [] in
    let sideY := wrap_int (y + top) in
    let sideH := wrap_int (wrap_int (h - top) - bottom) in
    let d_sides :=
      if sideH >? 0 then
        (if left >? 0
         then [mkRect (int32 x) (int32 sideY) (int32 left) (int32 sideH) color] else [])
        ++ (if right >? 0
            then [mkRect (int32 (wrap_int (wrap_int (x + w) - right))) (int32 sideY)
                    (int32 right) (int32 sideH) color]
            else [])
      else [] in
    d_top ++ d_bottom ++ d_sides.

(** [GetRenderTree]: pointers to the elements of the flat collection, [nil]
    when it is empty. *)
Definition GetRenderTree (r : RaylibRenderer) : option (list ptr) :=
  if (s_len (elements r) =? 0)%nat then None
  else Some (map (addr (elements r)) (seq 0 (s_len (elements r)))).

(** *** [main.go] of the tab-bar example

    Its package-level variables; the pointers of [allElements] refer into
    the store of the renderer.  What the functions print is left out. *)
Record App : Type := mkApp {
  appRenderer : RaylibRenderer;
  krbDocument : option Document;
  allElements : option (list ptr);
  tabItemStyleBaseID : Z;
  tabItemStyleActiveID : Z
}.

Definition set_appRenderer (v : RaylibRenderer) (a : App) : App :=
  mkApp v (krbDocument a) (allElements a) (tabItemStyleBaseID a) (tabItemStyleActiveID a).

(** [uint8(i)] *)
Definition uint8 (n : Z) : Z := n mod 256.

(** The loop over the string table: the index of the first string equal to
    [idName], as a [uint8]; [0xFF] when there is none. *)
Fixpoint targetStringIndexFrom (i : nat) (strs : list string) (idName : string) : Z :=
  match strs with
  | [] => 255
  | s :: strs =>
      if String.eqb s idName then uint8 (Z.of_nat i)
      else targetStringIndexFrom (S i) strs idName
  end.

Definition findElementByID (a : App) (idName : string) : option ptr :=
  match krbDocument a, allElements a with
  | Some doc, Some els =>
      let targetStringIndex := targetStringIndexFrom 0 (Strings doc) idName in
      if targetStringIndex =? 255 then None
      else List.find (fun el => ID (Header (get (appRenderer a) el)) =? targetStringIndex) els
  | _, _ => None
  end.

Definition pageIDs : list string := ["page_home"; "page_search"; "page_profile"]%string.

(** The body of the loop of [updatePageVisibility]. *)
Definition pageStep (activePageID : string) (a : App) (pageID : string) : App :=
  match findElementByID a pageID with
  | Some pageElement =>
      set_appRenderer
        (update pageElement (set_IsVisible (String.eqb pageID activePageID))
           (appRenderer a)) a
  | None => a
  end.

Definition updatePageVisibility (a : App) (activePageID : string) : App :=
  fold_left (pageStep activePageID) pageIDs a.
(** ** A reference implementation of the interface

    Used for the worked examples only.  The numeric values are those of
    the KRB format; the decoders read the obvious encodings. *)
Module Ref.

(** Modelled from the spec: [findStyle], absent from the sources; the
    style table maps a style id to its property list, id 0 meaning no
    style. *)
Definition findStyle (doc : Document) (styleID_ : Z) : option Style :=
  if styleID_ =? 0 then None
  else List.find (fun st => styleID st =? styleID_) (Styles doc).

(** Modelled from the spec: [getStringValueByIdx], absent from the sources;
    string lookup is by exact-match index. *)
Definition getStringValueByIdx (doc : Document) (idx : Z) : string * bool :=
  match Strings doc !! Z.to_nat idx with
  | Some s => (s, true)
  | None => (EmptyString, false)
  end.

(** Modelled from the spec: [GetCustomPropertyValue], absent from the
    sources; the custom properties of an element are those recorded for its
    index in the document, keyed by a string index, the value being a
    string index. *)
Definition GetCustomPropertyValue (el : RenderElement) (key : string) (doc : Document)
    : string * bool :=
  match CustomProperties doc !! OriginalIndex el with
  | None => (EmptyString, false)
  | Some cprops =>
      match List.find (fun cp => String.eqb (getStringValueByIdx doc (propID cp)).1 key) cprops with
      | Some cp =>
          match propValue cp with
          | [v] => getStringValueByIdx doc v
          | _ => (EmptyString, false)
          end
      | None => (EmptyString, false)
      end
  end.

(** Modelled from the spec: the value decoders, absent from the sources;
    a property record carries raw value bytes, little-endian. *)
Definition getColorValue (prop : Property) (flags : Z) : option Color :=
  match propValue prop with
  | [r; g; b; a] => Some (mkColor (Z.to_N r) (Z.to_N g) (Z.to_N b) (Z.to_N a))
  | _ => None
  end.

Definition getByteValue (prop : Property) : option Z :=
  match propValue prop with
  | [b] => Some b
  | _ => None
  end.

Definition getShortValue (prop : Property) : option Z :=
  match propValue prop with
  | [lo; hi] => Some (ReadU16LE lo hi)
  | _ => None
  end.

Definition getEdgeInsetsValue (prop : Property) : option Edges :=
  match propValue prop with
  | [t; r; b; l] => Some (mkEdges t r b l)
  | _ => None
  end.

Definition getStylePropertyValue (style : Style) (id : Z) : option Property :=
  List.find (fun p => propID p =? id) (styleProperties style).

#[export] Instance krb : Krb :=
  Build_Krb
    (* ElemTypeApp, Container, Text, Image, Button, Input *)
    0 1 2 3 16 17
    (* PropIDBgColor, FgColor, BorderColor, BorderWidth, Padding *)
    1 2 3 4 6
    (* PropIDTextAlignment, Visibility, FontSize, TextContent, ImageSource *)
    11 15 9 8 12
    (* PropIDWindowWidth, WindowHeight, WindowTitle, Resizable, ScaleFactor *)
    32 33 34 35 37
    (* ValTypeString, ValTypeResource, LayoutAlignStart, FlagHasApp *)
    4 5 0 128
    (* AnimationRefSize *)
    2%nat
    findStyle getStringValueByIdx GetCustomPropertyValue getColorValue
    getByteValue getShortValue getEdgeInsetsValue getStylePropertyValue
    (fun _ _ => []).

Definition newRenderer : RaylibRenderer :=
  mkRenderer DefaultWindowConfig [] (mkSlice 0 0 0) [] (F32.of_Z 1) None [].

End Ref.

(** ** Predicates of the specification *)

(** [p] is a cell of an allocated array. *)
Definition valid (h : Store) (p : ptr) : Prop :=
  is_Some (h !! p.1 ≫= (.!! p.2)).

(** The nodes of the tree are the cells of the flat collection [r.elements]. *)
Definition live (r : RaylibRenderer) (p : ptr) : Prop :=
  p.1 = s_arr (elements r) /\ (p.2 < s_len (elements r))%nat.

Definition is_child (r : RaylibRenderer) (p c : ptr) : Prop :=
  c ∈ Children (get r p).

(** The structural invariant of section 3: every node that is not a root has
    exactly one parent, which lists it; children lists have no duplicates; no
    node is listed by two parents; the relation has no cycle. *)
Record TreeInvariant (r : RaylibRenderer) : Prop := mkTreeInvariant {
  ti_one_parent :
    forall n, live r n -> n ∉ roots r ->
      exists p, live r p /\ Parent (get r n) = Some p /\ is_child r p n
                /\ forall q, live r q -> is_child r q n -> q = p;
  ti_nodup : forall p, live r p -> NoDup (Children (get r p));
  ti_not_shared :
    forall p q c, live r p -> live r q -> is_child r p c -> is_child r q c -> p = q;
  ti_acyclic : forall p, live r p -> ~ tc (is_child r) p p
}.

(** Reachability along children lists. *)
Definition desc (r : RaylibRenderer) : ptr -> ptr -> Prop := rtc (is_child r).

(** [a]'s parent reference names [b]. *)
Definition parent_of (r : RaylibRenderer) (a b : ptr) : Prop :=
  Parent (get r a) = Some b.

(** A tree of height at most [d] below [p]: its nodes are allocated cells,
    children lists have no duplicates, and every child refers back to its
    parent. *)
Inductive is_tree (r : RaylibRenderer) : nat -> ptr -> Prop :=
  | is_tree_node d p :
      valid (heap r) p ->
      NoDup (Children (get r p)) ->
      (forall c, c ∈ Children (get r p) -> Parent (get r c) = Some p) ->
      (forall c, c ∈ Children (get r p) -> is_tree r d c) ->
      is_tree r (S d) p.

(** The roots are distinct parentless nodes, each over a tree. *)
Definition wf_forest (r : RaylibRenderer) (d : nat) : Prop :=
  NoDup (roots r)
  /\ forall root, root ∈ roots r -> Parent (get r root) = None /\ is_tree r d root.

(** The children graph below [p] has height at most [d] (sharing allowed). *)
Inductive height_le (r : RaylibRenderer) : nat -> ptr -> Prop :=
  | height_le_node d p :
      (forall c, c ∈ Children (get r p) -> height_le r d c) ->
      height_le r (S d) p.

(** The chain of parent references from [x] upwards has at most [d] links. *)
Inductive chain_le (r : RaylibRenderer) : nat -> option ptr -> Prop :=
  | chain_le_nil d : chain_le r d None
  | chain_le_cons d p : chain_le r d (Parent (get r p)) -> chain_le r (S d) (Some p).

(** [c] is the foreground colour of the nearest node, from [x] upwards along
    parent references, that has one (alpha not 0); the default when there is
    none. *)
Inductive NearestAncestorFg (r : RaylibRenderer) : option ptr -> Color -> Prop :=
  | naf_default : NearestAncestorFg r None (DefaultFgColor (config r))
  | naf_here p :
      cA (FgColor (get r p)) <> 0%N ->
      NearestAncestorFg r (Some p) (FgColor (get r p))
  | naf_up p c :
      cA (FgColor (get r p)) = 0%N ->
      NearestAncestorFg r (Parent (get r p)) c ->
      NearestAncestorFg r (Some p) c.

(** What [ReResolveElementVisuals] may change of the element it is given:
    its visual state.  Identity, structure, geometry and handlers stay. *)
Definition visual_change_only (e e' : RenderElement) : Prop :=
  Header e' = Header e /\ OriginalIndex e' = OriginalIndex e
  /\ Parent e' = Parent e /\ Children e' = Children e
  /\ Texture e' = Texture e /\ TextureLoaded e' = TextureLoaded e
  /\ RenderX e' = RenderX e /\ RenderY e' = RenderY e
  /\ RenderW e' = RenderW e /\ RenderH e' = RenderH e
  /\ IsInteractive e' = IsInteractive e
  /\ IsExpandedAsNestedComponent e' = IsExpandedAsNestedComponent e
  /\ EventHandlers e' = EventHandlers e.

(** What inheritance may change: foreground colour, font size, alignment. *)
Definition inherited_change_only (e e' : RenderElement) : Prop :=
  visual_change_only e e'
  /\ BgColor e' = BgColor e /\ BorderColor e' = BorderColor e
  /\ BorderWidths e' = BorderWidths e /\ Padding e' = Padding e
  /\ Text e' = Text e /\ ResourceIndex e' = ResourceIndex e
  /\ IsVisible e' = IsVisible e.

(** Two renderer states over the same collection, whose cells are related
    pointwise by [R]. *)
Definition related (R : ptr -> RenderElement -> RenderElement -> Prop)
    (r r' : RaylibRenderer) : Prop :=
  elements r' = elements r /\ roots r' = roots r /\ config r' = config r
  /\ docRef r' = docRef r /\ scaleFactor r' = scaleFactor r
  /\ map length (heap r') = map length (heap r)
  /\ forall q, R q (get r q) (get r' q).

(** [o] does not panic, its result satisfies [Q], and when [total] it does
    not run out of recursion budget either. *)
Definition returns_with {A : Type} (total : bool) (Q : A -> Prop) (o : outcome A) : Prop :=
  match o with
  | Done a => Q a
  | Panic => False
  | NoFuel => total = false
  end.

(** [s] comes from [r] by changes that [R] allows, all of them within what
    [p] reaches along children lists. *)
Definition Frame (R : ptr -> RenderElement -> RenderElement -> Prop) (p : ptr)
    (r s : RaylibRenderer) : Prop :=
  related R r s /\ forall q, ~ desc r p q -> get s q = get r q.

(** Relations on cells that are reflexive, transitive and keep the
    children list. *)
Class StructRel (R : ptr -> RenderElement -> RenderElement -> Prop) : Prop := {
  sr_refl : forall q e, R q e e;
  sr_trans : forall q e1 e2 e3, R q e1 e2 -> R q e2 e3 -> R q e1 e3;
  sr_children : forall q e e', R q e e' -> Children e' = Children e
}.

(** Inheritance changes inherited fields only, of any cell. *)
Definition Rinh : ptr -> RenderElement -> RenderElement -> Prop :=
  fun _ => inherited_change_only.

(** Re-resolution of [el] changes the visual state of [el] and the inherited
    fields of the other cells. *)
Definition Rre (el : ptr) : ptr -> RenderElement -> RenderElement -> Prop :=
  fun q e e' => visual_change_only e e' /\ (q <> el -> inherited_change_only e e').

(** No proper ancestor of [p], along parent references, is reached from [p]
    along children lists. *)
Definition ancestors_outside (r : RaylibRenderer) (p : ptr) : Prop :=
  forall a, tc (parent_of r) p a -> ~ desc r p a.

(** What the inheritance pass does to the foreground colour of [q], from
    state [s] to state [s']: a text-bearing node without one receives that of
    its nearest ancestor having one (the default when there is none); any
    other node keeps what it has. *)
Definition FgSpec `{K : Krb} (s s' : RaylibRenderer) (q : ptr) : Prop :=
  if isTextBearing (get s q) && fgUnset (FgColor (get s q))
  then NearestAncestorFg s' (Parent (get s' q)) (FgColor (get s' q))
  else FgColor (get s' q) = FgColor (get s q).

(** What the inheritance pass does to the text alignment of [q], from state
    [s] to state [s']: a node whose alignment is the "unset" sentinel
    receives the alignment its parent has in [s'] (the resolved one), the
    start alignment at a root; any other node keeps what it has. *)
Definition AlignSpec `{K : Krb} (s s' : RaylibRenderer) (q : ptr) : Prop :=
  TextAlignment (get s' q) =
    if TextAlignment (get s q) =? UnsetTextAlignmentSentinel
    then match Parent (get s' q) with
         | Some p => TextAlignment (get s' p)
         | None => LayoutAlignStart
         end
    else TextAlignment (get s q).

(** The same for the font size, unset when it is 0.0, the default font size
    of the configuration at a root. *)
Definition FontSizeSpec (s s' : RaylibRenderer) (q : ptr) : Prop :=
  ResolvedFontSize (get s' q) =
    if F32.eqb (ResolvedFontSize (get s q)) F32.zero
    then match Parent (get s' q) with
         | Some p => ResolvedFontSize (get s' p)
         | None => DefaultFontSize (config s')
         end
    else ResolvedFontSize (get s q).

(** ** Further notions used to state what the code does *)

Section MoreSpecs.

Context `{K : Krb}.

(** The colour carried by the last property of [props] with identifier [id]
    that decodes as a colour. *)
Fixpoint lastColor (id flags : Z) (props : list Property) : option Color :=
  match props with
  | [] => None
  | p :: ps =>
      match lastColor id flags ps with
      | Some c => Some c
      | None => if propID p =? id then getColorValue p flags else None
      end
  end.

(** Some border of [e] has a width above 0. *)
Definition hasBorderWidth (e : RenderElement) : bool :=
  (eTop (BorderWidths e) >? 0) || (eRight (BorderWidths e) >? 0)
  || (eBottom (BorderWidths e) >? 0) || (eLeft (BorderWidths e) >? 0).

(** [fs] is the font size of the nearest node, from [x] upwards along parent
    references, that has one (not 0.0); the default when there is none. *)
Inductive NearestAncestorFontSize (r : RaylibRenderer) : option ptr -> float32 -> Prop :=
  | nafs_default : NearestAncestorFontSize r None (DefaultFontSize (config r))
  | nafs_here p :
      F32.eqb (ResolvedFontSize (get r p)) F32.zero = false ->
      NearestAncestorFontSize r (Some p) (ResolvedFontSize (get r p))
  | nafs_up p fs :
      F32.eqb (ResolvedFontSize (get r p)) F32.zero = true ->
      NearestAncestorFontSize r (Parent (get r p)) fs ->
      NearestAncestorFontSize r (Some p) fs.

(** The id of [p] names the slot for usage children. *)
Definition isSlot (doc : Document) (r : RaylibRenderer) (p : ptr) : bool :=
  String.eqb (getStringValueByIdx doc (ID (Header (get r p)))).1 childrenSlotIDName.

End MoreSpecs.

(** The cells of the flat collection, in index order. *)
Definition cells (r : RaylibRenderer) : list ptr :=
  map (addr (elements r)) (seq 0 (s_len (elements r))).

(** The parent reference of [p] is nil. *)
Definition parentless (r : RaylibRenderer) (p : ptr) : bool :=
  bool_decide (Parent (get r p) = None).

(** The record of a property in a template stream: identifier, value type
    and size, one byte each, then the value. *)
Definition encodeProperty (p : Property) : list Z :=
  [propID p; propValueType p; propSize p] ++ propValue p.

(** The size byte of [p] is the length of its value. *)
Definition sizedProperty (p : Property) : Prop :=
  propSize p = Z.of_nat (length (propValue p)).

(** The 17 bytes of an element header, 16-bit fields little-endian. *)
Definition encodeElementHeader (h : ElementHeader) : list Z :=
  [Type_ h; ID h;
   PosX h mod 256; PosX h / 256; PosY h mod 256; PosY h / 256;
   Width h mod 256; Width h / 256; Height h mod 256; Height h / 256;
   Layout h; StyleID h; PropertyCount h; ChildCount h; EventCount h;
   AnimationCount h; CustomPropCount h].

(** A bound on what the slot search can still put in its queue: the
    children of the nodes of [U] not yet visited. *)
Definition searchCost (r : RaylibRenderer) (visited : gset ptr) (U : list ptr) : nat :=
  sum_list_with (fun u => length (Children (get r u)))
    (filter (fun u => u ∉ visited) U).

(** [p] is reached from a node of [queue] in at most [d] steps along
    children lists. *)
Definition withinSteps (r : RaylibRenderer) (d : nat) (queue : list ptr) (p : ptr) : Prop :=
  exists q k, q ∈ queue /\ (k <= d)%nat /\ nsteps (is_child r) k q p.

(** [s] comes from [r] by appending [kry] to the children of [host] and
    making [host] the parent of every node of [kry]; nothing else differs. *)
Definition usageAppended (host : ptr) (kry : list ptr) (r s : RaylibRenderer) : Prop :=
  Children (get s host) = Children (get r host) ++ kry
  /\ (forall c, c ∈ kry -> Parent (get s c) = Some host)
  /\ (forall q, q <> host -> Children (get s q) = Children (get r q))
  /\ (forall q, q ∉ kry -> Parent (get s q) = Parent (get r q))
  /\ (forall q, set_Parent (Parent (get r q)) (set_Children (Children (get r q)) (get s q))
                = get r q)
  /\ elements s = elements r /\ roots s = roots r /\ config s = config r
  /\ map length (heap s) = map length (heap r).

(** *** Linking the document's elements *)

(** [e'] differs from [e] at most in parent reference and children list. *)
Definition link_change_only (e e' : RenderElement) : Prop :=
  set_Parent (Parent e) (set_Children (Children e) e') = e.

Definition Rlink : ptr -> RenderElement -> RenderElement -> Prop :=
  fun _ => link_change_only.

Section LinkSpec.
Context `{K : Krb}.

(** The cells that the child references of element [i] resolve to, in
    order; a reference that meets no element's offset is left out. *)
Definition resolvedChildren (doc : Document) (offsets : list Z) (n i : nat) (s : slice)
    : list ptr :=
  match ChildRefs doc !! i, offsets !! i with
  | Some (Some refs), Some off =>
      omap (fun ref => addr s <$> (buildOffsetIndex n offsets !! wrap32 (off + ChildOffset ref)))
        refs
  | _, _ => []
  end.

(** Element [i] declares children and has the references to find them
    (a list that is not nil, and a start offset). *)
Definition declaresChildren (doc : Document) (offsets : list Z) (i : nat) : bool :=
  match Elements doc !! i, ChildRefs doc !! i, offsets !! i with
  | Some h, Some (Some _), Some _ => ChildCount h >? 0
  | _, _, _ => false
  end.

(** Element [i] is an instance of a component. *)
Definition isPlaceholder (doc : Document) (r : RaylibRenderer) (i : nat) : bool :=
  negb (String.eqb
          (GetCustomPropertyValue (get r (addr (elements r) i))
             componentNameConventionKey doc).1 "").


(** What the linker has done for element [i], from state [r] and stash [m]
    to state [r'] and stash [m']: the children of an ordinary element that
    declares children are the cells its references resolve to; those of an
    instance are stashed instead, its children list staying as it was; an
    element that declares none is left alone. *)
Definition linkedAs (doc : Document) (offsets : list Z) (n : nat)
    (r : RaylibRenderer) (m : gmap nat (list ptr))
    (r' : RaylibRenderer) (m' : gmap nat (list ptr)) (i : nat) : Prop :=
  let cell := addr (elements r) i in
  let resolved := resolvedChildren doc offsets n i (elements r) in
  if declaresChildren doc offsets i then
    if isPlaceholder doc r i
    then m' !! i = Some resolved /\ Children (get r' cell) = Children (get r cell)
    else Children (get r' cell) = resolved /\ m' !! i = m !! i
  else Children (get r' cell) = Children (get r cell) /\ m' !! i = m !! i.

(** The invariant of the linker's loop before element [k]. *)
Definition linkInv (doc : Document) (offsets : list Z) (n : nat)
    (m : gmap nat (list ptr)) (r : RaylibRenderer)
    (k : nat) (st : RaylibRenderer * gmap nat (list ptr)) : Prop :=
  related Rlink r st.1
  /\ (forall i, (i < k)%nat -> linkedAs doc offsets n r m st.1 st.2 i)
  /\ (forall q, (forall i, (i < k)%nat -> q <> addr (elements r) i) ->
        Children (get st.1 q) = Children (get r q))
  /\ (forall i, (k <= i)%nat -> st.2 !! i = m !! i)
  /\ (forall q p, Parent (get st.1 q) = Some p ->
        Parent (get r q) = Some p
        \/ exists i, (i < k)%nat /\ p = addr (elements r) i /\ q ∈ Children (get st.1 p))
  /\ (forall i c, (i < k)%nat -> declaresChildren doc offsets i = true ->
        isPlaceholder doc r i = false ->
        c ∈ resolvedChildren doc offsets n i (elements r) ->
        exists j, (j < k)%nat /\ Parent (get st.1 c) = Some (addr (elements r) j)
                  /\ c ∈ Children (get st.1 (addr (elements r) j))).

End LinkSpec.

(** *** Drawing and the application *)

(** [a] lies within the box at [(x, y)] of size [w] by [h], and is not empty. *)
Definition rectWithin (x y w h : Z) (a : Rect) : Prop :=
  0 < rw a /\ 0 < rh a
  /\ x <= rx a /\ rx a + rw a <= x + w /\ y <= ry a /\ ry a + rh a <= y + h.

(** [a] and [b] share no pixel. *)
Definition rectDisjoint (a b : Rect) : Prop :=
  rx a + rw a <= rx b \/ rx b + rw b <= rx a
  \/ ry a + rh a <= ry b \/ ry b + rh b <= ry a.

Definition in_int32 (n : Z) : Prop := - 2 ^ 31 <= n < 2 ^ 31.

(** [i] is the first index of [s] in [strs]. *)
Definition firstIndexOf (strs : list string) (s : string) (i : nat) : Prop :=
  strs !! i = Some s /\ forall j, (j < i)%nat -> strs !! j <> Some s.

(** [e'] differs from [e] at most in visibility. *)
Definition visibility_change_only (e e' : RenderElement) : Prop :=
  set_IsVisible (IsVisible e) e' = e.

(** *** What inheritance keeps and what it fills *)

Section InheritSpecs.
Context `{K : Krb}.

(** Inheritance respects what a node has: [e'] differs from [e] at most in
    the inherited fields, and in those only where [e] has no value of its
    own (font size 0.0, the alignment sentinel, an unset foreground colour
    on a text-bearing node). *)
Definition keeps_set (e e' : RenderElement) : Prop :=
  inherited_change_only e e'
  /\ (F32.eqb (ResolvedFontSize e) F32.zero = false ->
      ResolvedFontSize e' = ResolvedFontSize e)
  /\ (TextAlignment e <> UnsetTextAlignmentSentinel -> TextAlignment e' = TextAlignment e)
  /\ (isTextBearing e && fgUnset (FgColor e) = false -> FgColor e' = FgColor e).

Definition Rkeep : ptr -> RenderElement -> RenderElement -> Prop := fun _ => keeps_set.

(** Nothing is left to inherit: [e] has a font size, a text alignment and,
    if it bears text, a visible foreground colour. *)
Definition resolvedNode (e : RenderElement) : Prop :=
  F32.eqb (ResolvedFontSize e) F32.zero = false
  /\ TextAlignment e <> UnsetTextAlignmentSentinel
  /\ (isTextBearing e = true -> hasAlpha (FgColor e) = true).

End InheritSpecs.

(** *** The tree a document declares *)

(** The indices of the elements that the child references of element [i]
    resolve to, in order. *)
Definition resolvedIndices (doc : Document) (offsets : list Z) (n i : nat) : list nat :=
  match ChildRefs doc !! i, offsets !! i with
  | Some (Some refs), Some off =>
      omap (fun ref => buildOffsetIndex n offsets !! wrap32 (off + ChildOffset ref)) refs
  | _, _ => []
  end.

(** The children that the document gives element [i]. *)
Definition declaredChildren (doc : Document) (offsets : list Z) (n i : nat) : list nat :=
  if declaresChildren doc offsets i then resolvedIndices doc offsets n i else [].

(** The child references of the first [n] elements describe a forest: a
    child comes after its parent in the file, no element lists a child
    twice, and no two elements list the same child. *)
Definition forestDoc (doc : Document) (offsets : list Z) (n : nat) : Prop :=
  forall i, (i < n)%nat ->
    NoDup (declaredChildren doc offsets n i)
    /\ (forall j, j ∈ declaredChildren doc offsets n i -> (i < j)%nat)
    /\ (forall i' j, (i' < n)%nat -> j ∈ declaredChildren doc offsets n i ->
          j ∈ declaredChildren doc offsets n i' -> i' = i).

(** Parent reference and children list are kept. *)
Definition Rlinks : ptr -> RenderElement -> RenderElement -> Prop :=
  fun _ e e' => Parent e' = Parent e /\ Children e' = Children e.

(** The flat collection of [r] holds the tree that the document declares:
    [n] allocated cells; the children of cell [i] are the cells of the
    declared children of element [i], in order; the parent of a cell is the
    cell of the element that declares it, nil when there is none; the roots
    are the parentless cells, in index order. *)
Definition declaredTree (doc : Document) (offsets : list Z) (n : nat)
    (r : RaylibRenderer) : Prop :=
  s_len (elements r) = n
  /\ (forall i, (i < n)%nat -> valid (heap r) (addr (elements r) i))
  /\ (forall i, (i < n)%nat ->
        Children (get r (addr (elements r) i))
        = addr (elements r) <$> declaredChildren doc offsets n i)
  /\ (forall i j, (i < n)%nat -> (j < n)%nat ->
        Parent (get r (addr (elements r) j)) = Some (addr (elements r) i)
        <-> j ∈ declaredChildren doc offsets n i)
  /\ (forall j p, (j < n)%nat -> Parent (get r (addr (elements r) j)) = Some p ->
        exists i, (i < n)%nat /\ p = addr (elements r) i)
  /\ roots r = filter (fun p => parentless r p = true) (cells r).

(** *** What the inheritance pass hands down *)

Section HandedDown.
Context `{K : Krb}.

(** Alignment and font size of [q] are as the inheritance pass leaves them. *)
Definition InhSpec (r s : RaylibRenderer) (q : ptr) : Prop :=
  AlignSpec r s q /\ FontSizeSpec r s q.

(** What is handed down to [p] for the alignment and the font size is what
    its parent has, where [p] has no value of its own. *)
Definition handedDown (r : RaylibRenderer) (p : ptr) (fs : float32) (ta : Z) : Prop :=
  (TextAlignment (get r p) <> UnsetTextAlignmentSentinel
   \/ ta = match Parent (get r p) with
           | Some m => TextAlignment (get r m)
           | None => LayoutAlignStart
           end)
  /\ (F32.eqb (ResolvedFontSize (get r p)) F32.zero = false
      \/ fs = match Parent (get r p) with
              | Some m => ResolvedFontSize (get r m)
              | None => DefaultFontSize (config r)
              end).

End HandedDown.

(** ** Worked documents *)

Module Examples.
Import Ref.

(** String table shared by the examples. *)
Definition strs : list string :=
  [""; "_componentName"; "Card"; "children_host"; "title"]%string.

Definition header (ty id style nchild ncustom : Z) : ElementHeader :=
  mkElementHeader ty id 0 0 0 0 0 style 0 nchild 0 0 ncustom.

(** The 17 bytes of a template element header. *)
Definition headerBytes (ty id style nchild : Z) : list Z :=
  [ty; id; 0; 0; 0; 0; 0; 0; 0; 0; 0; style; 0; nchild; 0; 0; 0].

(** The custom property that makes an element an instance of "Card". *)
Definition isCard : list Property := [mkProperty 1 4 1 [2]].

(** *** One instance, a template of two elements

    A container root with one text child, 19 bytes further on. *)
Definition tplTwo : list Z :=
  headerBytes 1 0 0 1 ++ [19; 0] ++ headerBytes 2 0 0 0.

Definition docGrowth : Document :=
  mkDocument (mkDocHeader 0 1) [header 1 0 0 0 1] [[]] [isCard] strs []
    [None] (Some [0]) [mkCompDef 2 tplTwo].

(** *** Two containers that both name the third element as their child *)
Definition docShared : Document :=
  mkDocument (mkDocHeader 0 3)
    [header 1 0 0 1 0; header 1 0 0 1 0; header 2 0 0 0 0]
    [[]; []; []] [[]; []; []] strs []
    [Some [mkChildRef 40]; Some [mkChildRef 20]; None] (Some [0; 20; 40]) [].

(** *** A container with centred text alignment and a text child *)
Definition alignCenter : Property := mkProperty 11 1 1 [1].

Definition docAlign : Document :=
  mkDocument (mkDocHeader 0 2)
    [header 1 0 0 1 0; header 2 0 0 0 0]
    [[alignCenter]; []] [[]; []] strs []
    [Some [mkChildRef 19]; None] (Some [0; 19]) [].

(** The renderer after [PrepareTree] on [docAlign]. *)
Definition rAlign : RaylibRenderer :=
  Eval vm_compute in
    match PrepareTree 50 newRenderer (Some docAlign) with
    | Done (r, _) => r
    | _ => newRenderer
    end.

End Examples.

(** ** Hand-built states for the slot search *)

Module SlotExample.
Import Ref.

(** An instance (cell 0) over a template root (cell 1, a container) with one
    child named "children_host" (cell 2); cell 3 is a usage child. *)
Definition slotState : RaylibRenderer :=
  let inst := set_Children [(0, 1)%nat] zeroElement in
  let root :=
    set_Parent (Some (0, 0)%nat)
      (set_Children [(0, 2)%nat] (set_Header (Examples.header 1 0 0 1 0) zeroElement)) in
  let slot :=
    set_Parent (Some (0, 1)%nat) (set_Header (Examples.header 1 3 0 0 0) zeroElement) in
  let usage := set_Header (Examples.header 2 4 0 0 0) zeroElement in
  mkRenderer DefaultWindowConfig [[inst; root; slot; usage]] (mkSlice 0 4 4) []
    (F32.of_Z 1) (Some Examples.docAlign) [].

End SlotExample.

(** ** A document of three pages, and the application over it *)

Module PagesExample.
Import Ref.

Definition strsPages : list string :=
  [""; "page_home"; "page_search"; "page_profile"]%string.

Definition docPages : Document :=
  mkDocument (mkDocHeader 0 3)
    [Examples.header 1 1 0 0 0; Examples.header 1 2 0 0 0; Examples.header 1 3 0 0 0]
    [[]; []; []] [[]; []; []] strsPages [] [None; None; None] (Some [0; 17; 34]) [].

Definition rPages : RaylibRenderer :=
  Eval vm_compute in
    match PrepareTree 50 newRenderer (Some docPages) with
    | Done (r, _) => r
    | _ => newRenderer
    end.

Definition appPages : App :=
  mkApp rPages (Some docPages) (GetRenderTree rPages) 0 0.

End PagesExample.

(** *** A text node without a foreground colour below a container *)
Module FgExample.

(** [Examples.rAlign] with the text child's foreground colour blanked and the
    container's set to opaque red. *)
Definition rBlank : RaylibRenderer :=
  Eval vm_compute in
    update (0, 1)%nat (set_FgColor Blank)
      (update (0, 0)%nat (set_FgColor (mkColor 255 0 0 255)) Examples.rAlign).

End FgExample.

(** *** A collection whose capacity is used up *)
Module GrowExample.

(** [Examples.rAlign] with the collection cut to its two elements,
    [r.elements[:2:2]]. *)
Definition rFull : RaylibRenderer :=
  set_elements (mkSlice 0 2 2) Examples.rAlign.

End GrowExample.

(** *** A text node whose alignment is unset below a centred container *)
Module AlignExample.

(** [Examples.rAlign] with the text child's alignment at the sentinel. *)
Definition rUnset : RaylibRenderer :=
  Eval vm_compute in
    update (0, 1)%nat (set_TextAlignment UnsetTextAlignmentSentinel) Examples.rAlign.

End AlignExample.

(** *** An element that the document hides and the application shows *)
Module HiddenExample.
Import Ref.

(** A container whose direct property sets its visibility to false. *)
Definition docHidden : Document :=
  mkDocument (mkDocHeader 0 1) [Examples.header 1 0 0 0 0]
    [[mkProperty 15 1 1 [0]]] [[]] Examples.strs [] [None] (Some [0]) [].

Definition rHidden : RaylibRenderer :=
  Eval vm_compute in
    match PrepareTree 50 Ref.newRenderer (Some docHidden) with
    | Done (r, _) => r
    | _ => Ref.newRenderer
    end.

(** The application makes the element visible, as [updatePageVisibility]
    does for the active page. *)
Definition rShown : RaylibRenderer :=
  Eval vm_compute in update (0, 0)%nat (set_IsVisible true) rHidden.

End HiddenExample.

(** * Lemmas on the store *)

Section Store.

Implicit Types (h : Store) (p q : ptr) (f : RenderElement -> RenderElement).

Lemma modify_shape f p h : map length (modify f p h) = map length h.
Proof.
  unfold modify. apply list_eq. intros i.
  rewrite !list_lookup_fmap.
  destruct (decide (i = p.1)) as [->|Hne].
  - rewrite list_lookup_alter_eq. destruct (h !! p.1); simpl; [|done].
    by rewrite length_alter.
  - by rewrite list_lookup_alter_ne.
Qed.

Lemma length_modify f p h : length (modify f p h) = length h.
Proof. unfold modify. apply length_alter. Qed.

Lemma load_modify_ne f p q h : p <> q -> load (modify f p h) q = load h q.
Proof.
  intros Hne. unfold load, modify.
  destruct (decide (q.1 = p.1)) as [He|Hn].
  - rewrite He, list_lookup_alter_eq.
    destruct (h !! p.1) as [arr|]; simpl; [|done].
    rewrite list_lookup_alter_ne; [done|].
    intros Heq. apply Hne. destruct p, q; simpl in *; congruence.
  - by rewrite list_lookup_alter_ne.
Qed.

Lemma load_modify_eq f p h : valid h p -> load (modify f p h) p = f (load h p).
Proof.
  unfold valid, load, modify. intros [e He].
  rewrite list_lookup_alter_eq.
  destruct (h !! p.1) as [arr|]; simpl in *; [|done].
  rewrite list_lookup_alter_eq, He. done.
Qed.

Lemma modify_invalid f p h : ~ valid h p -> modify f p h = h.
Proof.
  unfold valid, modify. intros Hn.
  apply list_eq. intros i.
  destruct (decide (i = p.1)) as [->|Hne]; [|by rewrite list_lookup_alter_ne].
  rewrite list_lookup_alter_eq.
  destruct (h !! p.1) as [arr|] eqn:Harr; simpl in *; [|done].
  f_equal. apply list_eq. intros j.
  destruct (decide (j = p.2)) as [->|Hnj]; [|by rewrite list_lookup_alter_ne].
  rewrite list_lookup_alter_eq.
  destruct (arr !! p.2) eqn:Hc; [|done].
  exfalso. apply Hn. eauto.
Qed.

(** A write through [p] leaves every cell as it was or, for [p] itself,
    applies [f]. *)
Lemma load_modify_cases f p h q :
  load (modify f p h) q = load h q
  \/ (q = p /\ valid h p /\ load (modify f p h) q = f (load h q)).
Proof.
  destruct (decide (p = q)) as [->|Hne].
  - destruct (decide (valid h q)) as [Hv|Hv].
    + right. split; [done|]. split; [done|]. by apply load_modify_eq.
    + left. by rewrite modify_invalid.
  - left. by apply load_modify_ne.
Qed.

Lemma valid_modify f p h q : valid (modify f p h) q <-> valid h q.
Proof.
  unfold valid, modify.
  destruct (decide (q.1 = p.1)) as [He|Hn].
  - rewrite He, list_lookup_alter_eq.
    destruct (h !! p.1) as [arr|]; simpl; [|done].
    destruct (decide (q.2 = p.2)) as [He2|Hn2].
    + rewrite He2, list_lookup_alter_eq. destruct (arr !! p.2); simpl; split; intros [? ?]; eauto; done.
    + by rewrite list_lookup_alter_ne.
  - by rewrite list_lookup_alter_ne.
Qed.

End Store.

Section Update.

Implicit Types (r : RaylibRenderer) (p q : ptr) (f : RenderElement -> RenderElement).

Lemma get_update_ne f p q r : p <> q -> get (update p f r) q = get r q.
Proof. intros. unfold get, update. simpl. by apply load_modify_ne. Qed.

Lemma get_update_eq f p r : valid (heap r) p -> get (update p f r) p = f (get r p).
Proof. intros. unfold get, update. simpl. by apply load_modify_eq. Qed.

Lemma get_update_cases f p q r :
  get (update p f r) q = get r q
  \/ (q = p /\ valid (heap r) p /\ get (update p f r) q = f (get r q)).
Proof. unfold get, update. simpl. apply load_modify_cases. Qed.

(** A field that [f] does not touch reads the same after the write. *)
Lemma get_update_field {A} (F : RenderElement -> A) f p q r :
  (forall e, F (f e) = F e) -> F (get (update p f r) q) = F (get r q).
Proof.
  intros HF. destruct (get_update_cases f p q r) as [->|(_ & _ & ->)]; [done|apply HF].
Qed.

Lemma get_log m r q : get (log m r) q = get r q.
Proof. reflexivity. Qed.

(** *** Pointwise relations between states *)

Lemma related_refl (R : ptr -> RenderElement -> RenderElement -> Prop) r :
  (forall q e, R q e e) -> related R r r.
Proof. intros HR. repeat split; auto. Qed.

Lemma related_trans (R : ptr -> RenderElement -> RenderElement -> Prop) r1 r2 r3 :
  (forall q e1 e2 e3, R q e1 e2 -> R q e2 e3 -> R q e1 e3) ->
  related R r1 r2 -> related R r2 r3 -> related R r1 r3.
Proof.
  intros HT (He & Hr & Hc & Hd & Hs & Hl & Hq) (He' & Hr' & Hc' & Hd' & Hs' & Hl' & Hq').
  repeat split; try congruence.
  intros q. eapply HT; eauto.
Qed.

Lemma related_update (R : ptr -> RenderElement -> RenderElement -> Prop) f p r :
  (forall q e, R q e e) -> (forall e, R p e (f e)) -> related R r (update p f r).
Proof.
  intros Hrefl Hf. repeat split; try reflexivity.
  - simpl. apply modify_shape.
  - intros q. destruct (get_update_cases f p q r) as [->|(-> & _ & ->)]; auto.
Qed.

Lemma related_log (R : ptr -> RenderElement -> RenderElement -> Prop) m r :
  (forall q e, R q e e) -> related R r (log m r).
Proof. intros HR. repeat split; auto. Qed.

Lemma related_weaken (R R' : ptr -> RenderElement -> RenderElement -> Prop) r r' :
  (forall q e e', R q e e' -> R' q e e') -> related R r r' -> related R' r r'.
Proof. intros HW (? & ? & ? & ? & ? & ? & Hq). repeat split; auto. Qed.

End Update.

(** * Inheritance and re-resolution keep the structure *)

Lemma returns_with_bind {A B : Type} total (Q : B -> Prop) (o : outcome A)
    (f : A -> outcome B) :
  returns_with total (fun a => returns_with total Q (f a)) o ->
  returns_with total Q (o ≫= f).
Proof. destruct o; simpl; auto. Qed.

Lemma returns_with_mono {A : Type} total (Q Q' : A -> Prop) (o : outcome A) :
  (forall a, Q a -> Q' a) -> returns_with total Q o -> returns_with total Q' o.
Proof. destruct o; simpl; auto. Qed.

Lemma returns_with_Done {A : Type} total (Q : A -> Prop) a :
  Q a -> returns_with total Q (Done a).
Proof. done. Qed.

(** What [returns_with] gives once the result is known. *)
Lemma returns_with_inv {A : Type} total (Q : A -> Prop) o a :
  returns_with total Q o -> o = Done a -> Q a.
Proof. by intros H ->. Qed.

Lemma returns_with_total {A : Type} (Q : A -> Prop) o :
  returns_with true Q o -> exists a, o = Done a /\ Q a.
Proof. destruct o; simpl; intros H; eauto; done. Qed.

Section Loops.

Context {A S : Type}.

(** An invariant of the body is an invariant of the loop. *)
Lemma returns_with_forEach total (I : S -> Prop) (body : S -> A -> outcome S) xs :
  (forall s x, x ∈ xs -> I s -> returns_with total I (body s x)) ->
  forall s, I s -> returns_with total I (forEach body xs s).
Proof.
  induction xs as [|x xs IH]; intros Hbody s Hs; simpl; [done|].
  apply returns_with_bind.
  eapply returns_with_mono; [|apply Hbody; [apply list_elem_of_here|done]].
  intros s1 Hs1. apply IH; [|done].
  intros s0 y Hy. apply Hbody. by apply list_elem_of_further.
Qed.

End Loops.

Section Relations.

Lemma visual_change_only_refl e : visual_change_only e e.
Proof. unfold visual_change_only. tauto. Qed.

Lemma visual_change_only_trans e1 e2 e3 :
  visual_change_only e1 e2 -> visual_change_only e2 e3 -> visual_change_only e1 e3.
Proof. unfold visual_change_only. intuition congruence. Qed.

Lemma inherited_change_only_refl e : inherited_change_only e e.
Proof. unfold inherited_change_only, visual_change_only. tauto. Qed.

Lemma inherited_change_only_trans e1 e2 e3 :
  inherited_change_only e1 e2 -> inherited_change_only e2 e3 ->
  inherited_change_only e1 e3.
Proof. unfold inherited_change_only, visual_change_only. intuition congruence. Qed.

Lemma inherited_is_visual e e' : inherited_change_only e e' -> visual_change_only e e'.
Proof. by intros [? _]. Qed.

#[global] Instance Rinh_struct : StructRel Rinh.
Proof.
  split; unfold Rinh.
  - intros. apply inherited_change_only_refl.
  - intros ?. apply inherited_change_only_trans.
  - unfold inherited_change_only, visual_change_only. tauto.
Qed.

#[global] Instance Rre_struct el : StructRel (Rre el).
Proof.
  split; unfold Rre.
  - intros. split; intros; [apply visual_change_only_refl|apply inherited_change_only_refl].
  - intros q e1 e2 e3 [H1 H1'] [H2 H2']. split.
    + eapply visual_change_only_trans; eauto.
    + intros Hq. eapply inherited_change_only_trans; eauto.
  - intros q e e' [H _]. unfold visual_change_only in H. tauto.
Qed.

Lemma Rinh_Rre el q e e' : Rinh q e e' -> Rre el q e e'.
Proof. intros H. split; [by apply inherited_is_visual|done]. Qed.

End Relations.

(** Closes a goal [R e (f e)] for [f] made of setters of visual fields. *)
Ltac setter_keeps :=
  intros;
  repeat match goal with
         | |- context [match ?x with _ => _ end] => destruct x
         end;
  first [ apply inherited_change_only_refl
        | apply visual_change_only_refl
        | unfold Rinh, Rre, inherited_change_only, visual_change_only; simpl; tauto ].

Section Frames.

Context (R : ptr -> RenderElement -> RenderElement -> Prop) `{!StructRel R}.

Implicit Types (r s : RaylibRenderer) (p q : ptr).

Lemma related_children_eq r s :
  related R r s -> forall q, Children (get s q) = Children (get r q).
Proof. intros (_ & _ & _ & _ & _ & _ & Hq) q. eapply sr_children, Hq. Qed.

Lemma desc_same_children r s p q :
  (forall x, Children (get s x) = Children (get r x)) -> desc r p q -> desc s p q.
Proof.
  intros Hc. unfold desc. apply rtc_subrel.
  intros x y. unfold is_child. by rewrite Hc.
Qed.

Lemma desc_related r s p q : related R r s -> desc s p q -> desc r p q.
Proof.
  intros Hrel. apply desc_same_children. intros x. symmetry.
  by apply related_children_eq.
Qed.

Lemma desc_child r p c q : c ∈ Children (get r p) -> desc r c q -> desc r p q.
Proof. intros Hc Hd. eapply rtc_l; [exact Hc|exact Hd]. Qed.

Lemma Frame_refl p r : Frame R p r r.
Proof. split; [apply related_refl, sr_refl|done]. Qed.

Lemma Frame_trans p r1 r2 r3 : Frame R p r1 r2 -> Frame R p r2 r3 -> Frame R p r1 r3.
Proof.
  intros [H1 H1'] [H2 H2']. split; [eapply related_trans; [apply sr_trans|exact H1|exact H2]|].
  intros q Hq. rewrite H2', H1'; [done|done|].
  intros Hd. apply Hq. eapply desc_related; eauto.
Qed.

Lemma Frame_update p f r : (forall e, R p e (f e)) -> Frame R p r (update p f r).
Proof.
  intros Hf. split; [apply related_update; [apply sr_refl|done]|].
  intros q Hq. apply get_update_ne. intros ->. apply Hq, rtc_refl.
Qed.

Lemma Frame_log p m r : Frame R p r (log m r).
Proof. split; [apply related_log, sr_refl|done]. Qed.

(** The frame of a walk from a child is within the frame of the parent. *)
Lemma Frame_child (R' : ptr -> RenderElement -> RenderElement -> Prop) p c r s s' :
  (forall q e e', R' q e e' -> R q e e') ->
  c ∈ Children (get r p) ->
  Frame R p r s -> Frame R' c s s' -> Frame R p r s'.
Proof.
  intros Hsub Hc Hrs [Hrel Hout]. eapply Frame_trans; [exact Hrs|].
  split; [eapply related_weaken; eauto|].
  intros q Hq. apply Hout. intros Hd. apply Hq.
  eapply rtc_l; [|exact Hd].
  unfold is_child. rewrite (related_children_eq r s); [done|apply Hrs].
Qed.

Lemma height_le_same_children r s d p :
  (forall x, Children (get s x) = Children (get r x)) ->
  height_le r d p -> height_le s d p.
Proof.
  intros Hc. revert p. induction d as [|d IH]; intros p Hh; inversion Hh; subst.
  constructor. intros c Hin. apply IH. apply H0. by rewrite <- Hc.
Qed.

Lemma height_le_related r s d p : related R r s -> height_le r d p -> height_le s d p.
Proof. intros Hrel. apply height_le_same_children. by apply related_children_eq. Qed.

End Frames.

(** Steps over [let x := v in ...] in the computation under [returns_with],
    keeping [x] as a local definition. *)
Ltac intro_let :=
  lazymatch goal with
  | |- returns_with ?t ?Q (let x := ?v in @?B x) =>
      change (let x := v in returns_with t Q (B x)); cbv beta; intro
  end.

(** [Frame R p r0 v] for a state [v] reached from states whose frames are
    known by conditional writes through [p]. *)
Ltac solve_frame :=
  repeat match goal with
         | |- Frame _ _ _ (if ?b then _ else _) => destruct b
         | |- Frame _ _ _ (match ?x with _ => _ end) => destruct x
         | H : Frame ?R ?p ?r ?s |- Frame ?R ?p ?r ?s => exact H
         | |- Frame _ _ ?r ?r => apply Frame_refl; tc_solve
         | |- Frame _ _ _ (update _ _ _) =>
             eapply Frame_trans; [tc_solve| |apply Frame_update; [tc_solve|setter_keeps]]
         | |- Frame _ _ _ (log _ _) =>
             eapply Frame_trans; [tc_solve| |apply Frame_log; tc_solve]
         end.

(** Introduces the next [let]; a state gets its frame and loses its body. *)
Ltac step_state R p r0 :=
  intro_let;
  lazymatch goal with
  | x := _ : RaylibRenderer |- _ =>
      let H := fresh "Hf" in
      assert (H : Frame R p r0 x) by (subst x; solve_frame);
      clearbody x
  | x := _ |- _ => clearbody x
  end.

Section Inheritance.

Context `{K : Krb}.

Implicit Types (r : RaylibRenderer) (p q el : ptr).

(** The inheritance walk from [p] does not panic, changes inherited fields
    only, and only of what [p] reaches; on a children graph of height at
    most [d] it returns within a budget of [d]. *)
Lemma applyInheritanceRecursive_returns total :
  forall fuel d r p fg fs ta,
    (total = true -> (d <= fuel)%nat /\ height_le r d p) ->
    returns_with total (Frame Rinh p r)
      (applyInheritanceRecursive fuel r p fg fs ta).
Proof.
  induction fuel as [|fuel IH]; intros d r p fg fs ta Ht.
  - simpl. destruct total; [|done]. destruct Ht as [Hle Hh]; [done|].
    inversion Hh; subst. lia.
  - cbn beta iota delta [applyInheritanceRecursive].
    do 6 step_state Rinh p r.
    lazymatch goal with
    | |- returns_with _ _ (forEach _ (Children (get ?x p)) ?x) =>
        assert (Hx : Frame Rinh p r x) by assumption;
        assert (Hcs : forall c, c ∈ Children (get x p) -> c ∈ Children (get r p))
          by (intros c; rewrite (related_children_eq Rinh r x); [done|apply Hx]);
        revert Hcs; generalize (Children (get x p)); intros cs Hcs
    end.
    eapply returns_with_mono; [|apply (returns_with_forEach total (Frame Rinh p r))].
    + auto.
    + intros s c Hc Hs.
      assert (Hcr : c ∈ Children (get r p)) by auto.
      eapply returns_with_mono; [|apply (IH (pred d))].
      * intros s' Hs'. eapply (Frame_child Rinh Rinh); eauto.
      * intros ->. destruct Ht as [Hle Hh]; [done|]. inversion Hh; subst.
        split; [simpl; lia|]. simpl.
        eapply (height_le_related Rinh); [apply (proj1 Hs)|]. auto.
    + done.
Qed.

End Inheritance.

(** * Re-resolution *)

Section ReResolve.

Context `{K : Krb}.

Implicit Types (r : RaylibRenderer) (p q el : ptr).

Lemma applyStyleProperty_visual doc e prop :
  visual_change_only e (applyStyleProperty doc e prop).
Proof.
  unfold applyStyleProperty, applyColorProp, applyBorderWidthProp, applyPaddingProp,
    applyTextAlignmentProp, applyVisibilityProp, applyFontSizeProp.
  setter_keeps.
Qed.

Lemma applyDirectProperty_visual doc e prop :
  visual_change_only e (applyDirectProperty doc e prop).
Proof.
  unfold applyDirectProperty, applyColorProp, applyBorderWidthProp, applyPaddingProp,
    applyTextAlignmentProp, applyVisibilityProp, applyFontSizeProp.
  setter_keeps.
Qed.

Lemma fold_left_visual {A} (f : RenderElement -> A -> RenderElement) xs :
  (forall e x, visual_change_only e (f e x)) ->
  forall e, visual_change_only e (fold_left f xs e).
Proof.
  intros Hf. induction xs as [|x xs IH]; intros e; simpl; [apply visual_change_only_refl|].
  eapply visual_change_only_trans; [apply Hf|apply IH].
Qed.

Lemma applyStylePropertiesToElement_visual props doc e :
  visual_change_only e (applyStylePropertiesToElement props doc e).
Proof. apply fold_left_visual, applyStyleProperty_visual. Qed.

Lemma applyDirectPropertiesToElement_visual props doc e :
  visual_change_only e (applyDirectPropertiesToElement props doc e).
Proof. apply fold_left_visual, applyDirectProperty_visual. Qed.

Lemma applyContextualDefaults_visual cfg e :
  visual_change_only e (applyContextualDefaults cfg e).
Proof. unfold applyContextualDefaults. setter_keeps. Qed.

Lemma resolveElementTextAndImage_visual doc e style :
  visual_change_only e (resolveElementTextAndImage doc e style).
Proof.
  cbv beta delta [resolveElementTextAndImage].
  match goal with
  | |- visual_change_only _ (let el := ?x in @?B el) =>
      assert (H1 : visual_change_only e x) by setter_keeps;
      generalize dependent x; intros e1 H1; cbv zeta
  end.
  eapply visual_change_only_trans; [exact H1|]. setter_keeps.
Qed.

Lemma chain_le_same_parents r r' d x :
  (forall q, Parent (get r' q) = Parent (get r q)) -> chain_le r d x -> chain_le r' d x.
Proof.
  intros HP Hc. induction Hc; constructor. by rewrite HP.
Qed.

Lemma related_Rre_parent el r r' :
  related (Rre el) r r' -> forall q, Parent (get r' q) = Parent (get r q).
Proof.
  intros (_ & _ & _ & _ & _ & _ & Hq) q. destruct (Hq q) as [H _].
  unfold visual_change_only in H. tauto.
Qed.

(** The ancestor look-ups do not panic and return on a finite chain. *)
Lemma getEffectiveInheritedFgColor_returns total :
  forall fuel d r x,
    (total = true -> (d <= fuel)%nat /\ chain_le r d x) ->
    returns_with total (fun _ => True) (getEffectiveInheritedFgColor fuel r x).
Proof.
  induction fuel as [|fuel IH]; intros d r x Ht.
  - destruct x as [a|]; simpl; [|done]. destruct (hasAlpha _); [done|].
    destruct total; [|done]. destruct Ht as [Hle Hc]; [done|]. inversion Hc; subst. lia.
  - destruct x as [a|]; simpl; [|done]. destruct (hasAlpha _); [done|].
    apply (IH (pred d)). intros ->. destruct Ht as [Hle Hc]; [done|].
    inversion Hc; subst. split; [simpl; lia|done].
Qed.

Lemma getEffectiveInheritedFontSize_returns total :
  forall fuel d r x,
    (total = true -> (d <= fuel)%nat /\ chain_le r d x) ->
    returns_with total (fun _ => True) (getEffectiveInheritedFontSize fuel r x).
Proof.
  induction fuel as [|fuel IH]; intros d r x Ht.
  - destruct x as [a|]; simpl; [|done]. destruct (negb _); [done|].
    destruct total; [|done]. destruct Ht as [Hle Hc]; [done|]. inversion Hc; subst. lia.
  - destruct x as [a|]; simpl; [|done]. destruct (negb _); [done|].
    apply (IH (pred d)). intros ->. destruct Ht as [Hle Hc]; [done|].
    inversion Hc; subst. split; [simpl; lia|done].
Qed.

(** A write through [el] of something that keeps the visual-change relation. *)
Lemma Frame_Rre_update el f r :
  (forall e, visual_change_only e (f e)) -> Frame (Rre el) el r (update el f r).
Proof. intros Hf. apply Frame_update; [tc_solve|]. intros e. split; [apply Hf|done]. Qed.

Ltac solve_frame_re el :=
  repeat match goal with
         | |- Frame _ _ _ (if ?b then _ else _) => destruct b
         | |- Frame _ _ _ (match ?x with _ => _ end) => destruct x
         | H : Frame ?R ?p ?r ?s |- Frame ?R ?p ?r ?s => exact H
         | |- Frame _ _ ?r ?r => apply Frame_refl; tc_solve
         | |- Frame _ _ _ (update _ _ _) =>
             eapply Frame_trans;
             [tc_solve|
             |apply Frame_Rre_update;
              first [ apply applyStylePropertiesToElement_visual
                    | apply applyDirectPropertiesToElement_visual
                    | apply applyContextualDefaults_visual
                    | intros; apply resolveElementTextAndImage_visual
                    | setter_keeps ]]
         | |- Frame _ _ _ (log _ _) =>
             eapply Frame_trans; [tc_solve| |apply Frame_log; tc_solve]
         end.

Ltac step_re el r0 :=
  intro_let;
  lazymatch goal with
  | x := _ : RaylibRenderer |- _ =>
      let H := fresh "Hf" in
      assert (H : Frame (Rre el) el r0 x) by (subst x; solve_frame_re el);
      clearbody x
  | x := _ |- _ => clearbody x
  end.

(** Re-resolution of [el] does not panic; it changes the visual state of
    [el] and inherited fields below it, nothing else; over a children graph
    and a parent chain of height at most [d] it returns within budget [d]. *)
Lemma ReResolveElementVisuals_returns total fuel d r el :
  (total = true ->
   (d <= fuel)%nat /\ height_le r d el /\ chain_le r d (Parent (get r el))) ->
  returns_with total (Frame (Rre el) el r) (ReResolveElementVisuals fuel r (Some el)).
Proof.
  intros Ht. cbv beta iota delta [ReResolveElementVisuals].
  destruct (docRef r) as [doc|]; [|apply Frame_log; tc_solve].
  do 12 step_re el r.
  apply returns_with_bind.
  lazymatch goal with
  | |- returns_with _ _ (match Parent (get ?y el) with _ => _ end) =>
      rename y into x; assert (Hx : Frame (Rre el) el r x) by assumption
  end.
  assert (Hchain : total = true -> (d <= fuel)%nat /\ chain_le x d (Parent (get x el))).
  { intros ->. destruct Ht as (Hle & _ & Hc); [done|]. split; [done|].
    rewrite (related_Rre_parent el r x) by apply Hx.
    eapply chain_le_same_parents; [|exact Hc].
    apply (related_Rre_parent el r x), Hx. }
  eapply (returns_with_mono total (fun inh => Frame (Rre el) el r inh.1.1.1)).
  - intros [[[x' fg] fs] ta] Hx'. simpl in Hx'. cbn beta iota.
    do 10 step_re el r.
    lazymatch goal with
    | |- returns_with _ _ (forEach _ (Children (get ?y el)) ?y) =>
        assert (Hy : Frame (Rre el) el r y) by assumption;
        assert (Hcs : forall c, c ∈ Children (get y el) -> c ∈ Children (get r el))
          by (intros c; rewrite (related_children_eq (Rre el) r y); [done|apply Hy]);
        revert Hcs; generalize (Children (get y el)); intros cs Hcs
    end.
    eapply returns_with_mono;
      [|apply (returns_with_forEach total (Frame (Rre el) el r))]; [auto| |done].
    intros s c Hc Hs.
    eapply returns_with_mono;
      [|apply (applyInheritanceRecursive_returns total fuel (pred d))].
    + intros s' Hs'. eapply (Frame_child (Rre el) Rinh); eauto using Rinh_Rre.
    + intros ->. destruct Ht as (Hle & Hh & _); [done|]. inversion Hh; subst.
      split; [simpl; lia|]. simpl.
      eapply (height_le_related (Rre el)); [apply (proj1 Hs)|]. auto.
  - destruct (Parent (get x el)) as [parent|] eqn:Hparent; [|exact Hx].
    apply returns_with_bind.
    eapply returns_with_mono;
      [|apply (getEffectiveInheritedFgColor_returns total fuel d), Hchain].
    intros fg _. apply returns_with_bind.
    eapply (returns_with_mono total (fun _ => True)).
    + intros fs _. destruct (_ =? _); simpl; [|exact Hx].
      eapply Frame_trans; [tc_solve|exact Hx|apply Frame_log; tc_solve].
    + destruct (negb _); [done|].
      apply (getEffectiveInheritedFontSize_returns total fuel d), Hchain.
Qed.

End ReResolve.

(** * Trees in the store *)

Section Trees.

Implicit Types (r s : RaylibRenderer) (p q c : ptr).

Lemma is_tree_mono r d d' p : (d <= d')%nat -> is_tree r d p -> is_tree r d' p.
Proof.
  revert d' p. induction d as [|d IH]; intros d' p Hle Ht; inversion Ht; subst.
  destruct d' as [|d']; [lia|]. constructor; auto. intros c Hc. apply IH; [lia|auto].
Qed.

Lemma is_tree_child r d p c :
  is_tree r (S d) p -> c ∈ Children (get r p) -> is_tree r d c /\ Parent (get r c) = Some p.
Proof. intros Ht Hc. inversion Ht; subst. auto. Qed.

Lemma is_tree_height r d p : is_tree r d p -> height_le r d p.
Proof.
  revert p. induction d as [|d IH]; intros p Ht; inversion Ht; subst.
  constructor. auto.
Qed.

(** What a tree reaches is a tree. *)
Lemma is_tree_desc r d p q : is_tree r d p -> desc r p q -> is_tree r d q.
Proof.
  intros Ht Hd. revert d Ht. unfold desc in Hd.
  induction Hd as [p|p c q Hc Hd IH]; intros d Ht; [done|].
  destruct d as [|d]; [inversion Ht|].
  apply IH. apply (is_tree_mono r d); [lia|]. by apply (is_tree_child r d p).
Qed.

(** A tree has no cycle through its root. *)
Lemma is_tree_no_cycle r d p c :
  is_tree r d p -> c ∈ Children (get r p) -> ~ desc r c p.
Proof.
  revert p c. induction d as [|d IH]; intros p c Ht Hc Hd; [inversion Ht|].
  assert (Htc : is_tree r d c) by (by apply (is_tree_child r d p)).
  eapply (IH p c); [|done|done].
  by apply (is_tree_desc r d c).
Qed.

(** In a tree, whatever is reached below the root has its parent in the
    tree. *)
Lemma desc_parent r d p q :
  is_tree r d p -> desc r p q -> q <> p ->
  exists m, Parent (get r q) = Some m /\ desc r p m /\ q ∈ Children (get r m).
Proof.
  intros Ht Hd Hne. apply rtc_inv_r in Hd as [->|(m & Hpm & Hmq)]; [done|].
  exists m. split; [|done].
  assert (Htm : is_tree r d m) by (by apply (is_tree_desc r d p)).
  inversion Htm; subst. auto.
Qed.

(** Two trees whose roots' parents lie outside the other tree share no node. *)
Lemma trees_disjoint r d1 d2 t1 t2 q :
  is_tree r d1 t1 -> is_tree r d2 t2 -> t1 <> t2 ->
  (forall m, Parent (get r t1) = Some m -> ~ desc r t2 m) ->
  (forall m, Parent (get r t2) = Some m -> ~ desc r t1 m) ->
  desc r t1 q -> desc r t2 q -> False.
Proof.
  intros Ht1 Ht2 Hne Hp1 Hp2 Hd1 Hd2. revert Hd1. unfold desc in Hd2.
  revert q Hd2. apply (rtc_ind_r (fun q => desc r t1 q -> False)).
  2: intros m q' Hm Hmq IH Hd1.
  - intros Hd1. destruct (desc_parent r d1 t1 t2 Ht1 Hd1) as (m & Hm & Hdm & _); [done|].
    by apply (Hp2 m).
  - assert (Hpar : Parent (get r q') = Some m).
    { assert (Htq : is_tree r d2 m) by (by apply (is_tree_desc r d2 t2)).
      inversion Htq; subst. auto. }
    destruct (decide (q' = t1)) as [->|Hmt].
    + by apply (Hp1 m).
    + destruct (desc_parent r d1 t1 q' Ht1 Hd1 Hmt) as (m' & Hm' & Hdm' & _).
      apply IH. congruence.
Qed.

Lemma siblings_disjoint r d p c1 c2 q :
  is_tree r d p -> c1 ∈ Children (get r p) -> c2 ∈ Children (get r p) -> c1 <> c2 ->
  desc r c1 q -> desc r c2 q -> False.
Proof.
  intros Ht H1 H2 Hne. destruct d as [|d]; [inversion Ht|].
  destruct (is_tree_child r d p c1 Ht H1) as [Ht1 Hp1].
  destruct (is_tree_child r d p c2 Ht H2) as [Ht2 Hp2].
  apply (trees_disjoint r d d c1 c2 q Ht1 Ht2 Hne).
  - intros m Hm. rewrite Hp1 in Hm. injection Hm as <-. by eapply is_tree_no_cycle.
  - intros m Hm. rewrite Hp2 in Hm. injection Hm as <-. by eapply is_tree_no_cycle.
Qed.

(** Going up from inside a tree one stays in it until its root. *)
Lemma ancestor_in_tree r d p q a :
  is_tree r d p -> desc r p q -> rtc (parent_of r) q a ->
  desc r p a \/ rtc (parent_of r) p a.
Proof.
  intros Ht Hd Ha. revert Hd. induction Ha as [q|q m a Hqm Hma IH]; intros Hd; [by left|].
  destruct (decide (q = p)) as [->|Hne].
  - right. by eapply rtc_l.
  - destruct (desc_parent r d p q Ht Hd Hne) as (m' & Hm' & Hdm' & _).
    apply IH. unfold parent_of in Hqm. congruence.
Qed.

End Trees.

(** * Applying properties *)

Lemma fold_left_invariant {A B : Type} (I : A -> Prop) (f : A -> B -> A) xs :
  (forall a x, I a -> I (f a x)) -> forall a, I a -> I (fold_left f xs a).
Proof. intros Hf. induction xs as [|x xs IH]; simpl; auto. Qed.

Section Appliers.

Context `{K : Krb}.

Lemma fold_left_colour (get_ : RenderElement -> Color)
    (f : RenderElement -> Property -> RenderElement) (id flags : Z) :
  (forall e p, get_ (f e p) =
     if propID p =? id then default (get_ e) (getColorValue p flags) else get_ e) ->
  forall props e,
    get_ (fold_left f props e) = default (get_ e) (lastColor id flags props).
Proof.
  intros Hf. induction props as [|p ps IH]; intros e; simpl; [done|].
  rewrite IH, Hf. destruct (lastColor id flags ps); [done|].
  by destruct (propID p =? id).
Qed.

Ltac colour_step :=
  unfold applyStyleProperty, applyDirectProperty, applyColorProp, applyBorderWidthProp,
    applyPaddingProp, applyTextAlignmentProp, applyVisibilityProp, applyFontSizeProp;
  repeat match goal with
         | |- context [?a =? ?b] => destruct (Z.eqb_spec a b); try congruence
         | |- context [?a >? ?b] => destruct (a >? b)
         | |- context [match ?x with _ => _ end] => destruct x eqn:?
         end; simpl; try congruence.

Section Colours.

Hypothesis Hfg : PropIDFgColor <> PropIDBgColor.
Hypothesis Hbc1 : PropIDBorderColor <> PropIDBgColor.
Hypothesis Hbc2 : PropIDBorderColor <> PropIDFgColor.

Lemma applyDirectProperty_Bg doc e p :
  BgColor (applyDirectProperty doc e p) =
    if propID p =? PropIDBgColor
    then default (BgColor e) (getColorValue p (Flags (docHeader doc))) else BgColor e.
Proof. colour_step. Qed.

Lemma applyDirectProperty_Fg doc e p :
  FgColor (applyDirectProperty doc e p) =
    if propID p =? PropIDFgColor
    then default (FgColor e) (getColorValue p (Flags (docHeader doc))) else FgColor e.
Proof. colour_step. Qed.

Lemma applyDirectProperty_Border doc e p :
  BorderColor (applyDirectProperty doc e p) =
    if propID p =? PropIDBorderColor
    then default (BorderColor e) (getColorValue p (Flags (docHeader doc)))
    else BorderColor e.
Proof. colour_step. Qed.

Lemma applyStyleProperty_Bg doc e p :
  BgColor (applyStyleProperty doc e p) =
    if propID p =? PropIDBgColor
    then default (BgColor e) (getColorValue p (Flags (docHeader doc))) else BgColor e.
Proof. colour_step. Qed.

Lemma applyStyleProperty_Fg doc e p :
  FgColor (applyStyleProperty doc e p) =
    if propID p =? PropIDFgColor
    then default (FgColor e) (getColorValue p (Flags (docHeader doc))) else FgColor e.
Proof. colour_step. Qed.

Lemma applyStyleProperty_Border doc e p :
  BorderColor (applyStyleProperty doc e p) =
    if propID p =? PropIDBorderColor
    then default (BorderColor e) (getColorValue p (Flags (docHeader doc)))
    else BorderColor e.
Proof. colour_step. Qed.

End Colours.

(** Colours: direct properties win over the style.  After the style's
    properties and then the direct properties have been applied to an
    element, each of its three colours is that of the last direct property
    for it that decodes; that of the last such property of the style only
    when no direct one decodes; and what the element had when neither has
    one.  (The three property identifiers being distinct.) *)
Theorem direct_colours_win_over_style
    (sprops props : list Property) (doc : Document) (e : RenderElement) :
  PropIDFgColor <> PropIDBgColor ->
  PropIDBorderColor <> PropIDBgColor ->
  PropIDBorderColor <> PropIDFgColor ->
  let flags := Flags (docHeader doc) in
  let e' := applyDirectPropertiesToElement props doc
              (applyStylePropertiesToElement sprops doc e) in
  let pick (id : Z) (old : Color) :=
    default (default old (lastColor id flags sprops)) (lastColor id flags props) in
  BgColor e' = pick PropIDBgColor (BgColor e)
  /\ FgColor e' = pick PropIDFgColor (FgColor e)
  /\ BorderColor e' = pick PropIDBorderColor (BorderColor e).
Proof.
  intros Hfg Hb1 Hb2 flags e' pick. subst e' pick flags.
  unfold applyDirectPropertiesToElement, applyStylePropertiesToElement.
  split; [|split].
  - rewrite (fold_left_colour BgColor _ PropIDBgColor (Flags (docHeader doc)))
      by (intros; apply applyDirectProperty_Bg).
    by rewrite (fold_left_colour BgColor _ PropIDBgColor (Flags (docHeader doc)))
      by (intros; apply applyStyleProperty_Bg).
  - rewrite (fold_left_colour FgColor _ PropIDFgColor (Flags (docHeader doc)))
      by (intros; by apply applyDirectProperty_Fg).
    by rewrite (fold_left_colour FgColor _ PropIDFgColor (Flags (docHeader doc)))
      by (intros; by apply applyStyleProperty_Fg).
  - rewrite (fold_left_colour BorderColor _ PropIDBorderColor (Flags (docHeader doc)))
      by (intros; by apply applyDirectProperty_Border).
    by rewrite (fold_left_colour BorderColor _ PropIDBorderColor (Flags (docHeader doc)))
      by (intros; by apply applyStyleProperty_Border).
Qed.

(** [applyContextualDefaults] settles the border: afterwards an element
    whose border colour is visible (alpha above 0) has a border width above
    0; the function changes nothing but border widths and border colour;
    and applying it a second time changes nothing more. *)
Theorem applyContextualDefaults_settles_border (cfg : WindowConfig) (e : RenderElement) :
  let e' := applyContextualDefaults cfg e in
  (hasAlpha (BorderColor e') = true -> hasBorderWidth e' = true)
  /\ set_BorderColor (BorderColor e) (set_BorderWidths (BorderWidths e) e') = e
  /\ applyContextualDefaults cfg e' = e'.
Proof.
  destruct e as [? ? ? ? ? ? bc [t r b l] ? ? ? ? ? ? ? ? ? ? ? ? ? ? ?].
  unfold applyContextualDefaults, hasBorderWidth, set_BorderColor, set_BorderWidths.
  simpl.
  destruct (hasAlpha bc) eqn:Hbc;
    destruct (t >? 0) eqn:Ht; destruct (r >? 0) eqn:Hr;
    destruct (b >? 0) eqn:Hb; destruct (l >? 0) eqn:Hl; simpl;
    rewrite ?Hbc, ?Ht, ?Hr, ?Hb, ?Hl; simpl;
    try (split; [done|split; done]);
    destruct (hasAlpha (DefaultBorderColor cfg)) eqn:Hd; simpl;
    by repeat split.
Qed.

(** The style of the App element sets window defaults only: whatever
    properties it holds, the window's width, height, title, resizable flag
    and scale factor stay as they were. *)
Theorem style_keeps_window_geometry
    (props : list Property) (doc : Document) (config : WindowConfig) :
  let config' := applyStylePropertiesToWindowConfig props doc config in
  wcWidth config' = wcWidth config /\ wcHeight config' = wcHeight config
  /\ wcTitle config' = wcTitle config /\ wcResizable config' = wcResizable config
  /\ wcScaleFactor config' = wcScaleFactor config.
Proof.
  unfold applyStylePropertiesToWindowConfig.
  apply (fold_left_invariant
           (fun c => wcWidth c = wcWidth config /\ wcHeight c = wcHeight config
                     /\ wcTitle c = wcTitle config /\ wcResizable c = wcResizable config
                     /\ wcScaleFactor c = wcScaleFactor config)); [|done].
  intros c p Hc. destruct c. simpl in *.
  repeat match goal with
         | |- context [if ?b then _ else _] => destruct b
         | |- context [match ?x with _ => _ end] => destruct x eqn:?
         end; simpl; done.
Qed.

(** No property can make the window empty: a positive width and a positive
    height stay positive under the direct properties of the App element,
    whatever values these carry. *)
Theorem window_size_stays_positive
    (props : list Property) (doc : Document) (config : WindowConfig) :
  0 < wcWidth config -> 0 < wcHeight config ->
  0 < wcWidth (applyDirectPropertiesToWindowConfig props doc config)
  /\ 0 < wcHeight (applyDirectPropertiesToWindowConfig props doc config).
Proof.
  intros Hw Hh. unfold applyDirectPropertiesToWindowConfig.
  apply (fold_left_invariant (fun c => 0 < wcWidth c /\ 0 < wcHeight c)); [|done].
  intros c p [Hcw Hch]. destruct c. simpl in *.
  repeat match goal with
         | |- context [if ?b then _ else _] => destruct b eqn:?
         | |- context [match ?x with _ => _ end] => destruct x eqn:?
         end; simpl; split; lia.
Qed.

End Appliers.

Lemma direct_colours_win_over_style_witness :
  let sprops := [mkProperty 1 3 4 [9; 9; 9; 255]; mkProperty 2 3 4 [7; 7; 7; 255]] in
  let props := [mkProperty 1 3 4 [1; 2; 3; 255]] in
  let e' := applyDirectPropertiesToElement (K := Ref.krb) props Examples.docAlign
              (applyStylePropertiesToElement (K := Ref.krb) sprops Examples.docAlign
                 zeroElement) in
  BgColor e' = mkColor 1 2 3 255 /\ FgColor e' = mkColor 7 7 7 255
  /\ BorderColor e' = Blank.
Proof.
  apply (direct_colours_win_over_style (K := Ref.krb)
           [mkProperty 1 3 4 [9; 9; 9; 255]; mkProperty 2 3 4 [7; 7; 7; 255]]
           [mkProperty 1 3 4 [1; 2; 3; 255]] Examples.docAlign zeroElement);
    simpl; lia.
Defined.

Lemma window_size_stays_positive_witness :
  0 < wcWidth (applyDirectPropertiesToWindowConfig (K := Ref.krb)
                 [mkProperty 32 2 2 [0; 0]; mkProperty 33 2 2 [44; 1]]
                 Examples.docAlign DefaultWindowConfig)
  /\ 0 < wcHeight (applyDirectPropertiesToWindowConfig (K := Ref.krb)
                     [mkProperty 32 2 2 [0; 0]; mkProperty 33 2 2 [44; 1]]
                     Examples.docAlign DefaultWindowConfig).
Proof.
  apply (window_size_stays_positive (K := Ref.krb)); simpl; lia.
Defined.

(** * Inheritance: what it never touches, and the ancestor look-ups *)

Section InheritanceFacts.

Context `{K : Krb}.

Implicit Types (r : RaylibRenderer) (p q el : ptr).

(** The inheritance walk from a node [p] over a children graph of height at
    most [d] returns, whatever values are handed down.  It leaves the flat
    collection, the roots, the window configuration and the shape of every
    backing array as they were; of any node it changes at most foreground
    colour, font size and text alignment; and it changes nothing at all of a
    node that [p] does not reach through children lists. *)
Theorem applyInheritanceRecursive_changes_inherited_fields_only
    (fuel d : nat) r p (fg : Color) (fs : float32) (ta : Z) :
  (d <= fuel)%nat ->
  height_le r d p ->
  exists r',
    applyInheritanceRecursive fuel r p fg fs ta = Done r'
    /\ elements r' = elements r /\ roots r' = roots r /\ config r' = config r
    /\ map length (heap r') = map length (heap r)
    /\ (forall q, inherited_change_only (get r q) (get r' q))
    /\ (forall q, ~ desc r p q -> get r' q = get r q).
Proof.
  intros Hle Hh.
  destruct (returns_with_total _ _
              (applyInheritanceRecursive_returns true fuel d r p fg fs ta
                 (fun _ => conj Hle Hh)))
    as (r' & Hrun & (He & Hr & Hc & _ & _ & Hshape & Hcells) & Hout).
  exists r'. do 5 (split; [done|]). split; [exact Hcells|exact Hout].
Qed.

(** The look-ups that [ReResolveElementVisuals] makes along the chain of
    parents return, on a chain of at most [d] links, what the nearest
    ancestor has: the foreground colour of the nearest node with a visible
    one (alpha above 0), the font size of the nearest node with one that is
    not 0.0, and the window defaults when no ancestor has any. *)
Theorem getEffectiveInherited_nearest_ancestor (fuel d : nat) r (x : option ptr) :
  (d <= fuel)%nat ->
  chain_le r d x ->
  (exists c, getEffectiveInheritedFgColor fuel r x = Done c /\ NearestAncestorFg r x c)
  /\ (exists fs, getEffectiveInheritedFontSize fuel r x = Done fs
                 /\ NearestAncestorFontSize r x fs).
Proof.
  intros Hle Hc. revert fuel Hle.
  induction Hc as [d|d p Hc IH]; intros fuel Hle.
  - destruct fuel; simpl; split; eexists; split; try done; constructor.
  - destruct fuel as [|fuel]; [lia|].
    destruct (IH fuel ltac:(lia)) as [(c & Hc1 & Hc2) (fs & Hf1 & Hf2)].
    split.
    + simpl. unfold hasAlpha. destruct (0 <? cA (FgColor (get r p)))%N eqn:Ha.
      * eexists. split; [done|]. apply naf_here. apply N.ltb_lt in Ha. lia.
      * exists c. split; [done|]. apply naf_up; [|done]. apply N.ltb_ge in Ha. lia.
    + simpl. destruct (F32.eqb (ResolvedFontSize (get r p)) F32.zero) eqn:Hz; simpl.
      * exists fs. split; [done|]. by apply nafs_up.
      * eexists. split; [done|]. by apply nafs_here.
Qed.

End InheritanceFacts.

Lemma applyInheritanceRecursive_changes_inherited_fields_only_witness :
  exists r',
    applyInheritanceRecursive (K := Ref.krb) 5 Examples.rAlign (0, 0)%nat
      RayWhite BaseFontSize 2 = Done r'
    /\ elements r' = elements Examples.rAlign /\ roots r' = roots Examples.rAlign
    /\ config r' = config Examples.rAlign
    /\ map length (heap r') = map length (heap Examples.rAlign)
    /\ (forall q, inherited_change_only (get Examples.rAlign q) (get r' q))
    /\ (forall q, ~ desc Examples.rAlign (0, 0)%nat q -> get r' q = get Examples.rAlign q).
Proof.
  apply (applyInheritanceRecursive_changes_inherited_fields_only (K := Ref.krb)
           5 2 Examples.rAlign (0, 0)%nat).
  - lia.
  - constructor. intros c Hc. vm_compute in Hc.
    apply list_elem_of_singleton in Hc as ->.
    constructor. intros c Hc. vm_compute in Hc. inversion Hc.
Defined.

Lemma getEffectiveInherited_nearest_ancestor_witness :
  (exists c, getEffectiveInheritedFgColor 5 Examples.rAlign (Some (0, 1)%nat) = Done c
             /\ NearestAncestorFg Examples.rAlign (Some (0, 1)%nat) c)
  /\ (exists fs, getEffectiveInheritedFontSize 5 Examples.rAlign (Some (0, 1)%nat) = Done fs
                 /\ NearestAncestorFontSize Examples.rAlign (Some (0, 1)%nat) fs).
Proof.
  apply (getEffectiveInherited_nearest_ancestor 5 2 Examples.rAlign (Some (0, 1)%nat)).
  - lia.
  - constructor.
    replace (Parent (get Examples.rAlign (0, 1)%nat)) with (Some (0, 0)%nat)
      by (vm_compute; reflexivity).
    constructor.
    replace (Parent (get Examples.rAlign (0, 0)%nat)) with (@None ptr)
      by (vm_compute; reflexivity).
    constructor.
Defined.

(** * Building the collection: roots, growth, template records *)

Lemma elem_of_cells r p : p ∈ cells r <-> live r p.
Proof.
  unfold cells, live, addr. rewrite list_elem_of_fmap. split.
  - intros (i & -> & Hi). apply elem_of_seq in Hi. simpl. split; [done|lia].
  - intros [H1 H2]. exists p.2. split; [destruct p; simpl in *; by subst|].
    apply elem_of_seq. lia.
Qed.

Lemma NoDup_cells r : NoDup (cells r).
Proof.
  unfold cells. apply NoDup_fmap_2; [|apply NoDup_seq].
  intros i j. unfold addr. congruence.
Qed.

Lemma finalize_loop r0 : forall (l : list nat) r,
  heap r = heap r0 -> elements r = elements r0 ->
  let r' := fold_left (fun r i =>
                   let el := addr (elements r) i in
                   match Parent (get r el) with
                   | None => set_roots (roots r ++ [el]) r
                   | Some _ => r
                   end) l r in
  heap r' = heap r0 /\ elements r' = elements r0 /\ logs r' = logs r
  /\ config r' = config r /\ docRef r' = docRef r /\ scaleFactor r' = scaleFactor r
  /\ roots r' = roots r ++ filter (fun p => parentless r0 p = true) (map (addr (elements r0)) l).
Proof.
  induction l as [|i l IH]; intros r Hh He; cbv zeta in *; simpl.
  - rewrite app_nil_r. done.
  - match goal with |- context [fold_left _ l ?x] => set (r1 := x) end.
    assert (H1 : heap r1 = heap r0 /\ elements r1 = elements r0 /\ logs r1 = logs r
                 /\ config r1 = config r /\ docRef r1 = docRef r
                 /\ scaleFactor r1 = scaleFactor r
                 /\ roots r1 = roots r ++ filter (fun p => parentless r0 p = true)
                                            [addr (elements r0) i]).
    { subst r1. rewrite He. unfold get. rewrite Hh. fold (get r0 (addr (elements r0) i)).
      rewrite filter_cons, filter_nil.
      destruct (decide _) as [Hd|Hd]; unfold parentless in Hd;
        rewrite bool_decide_eq_true in Hd.
      - by rewrite Hd.
      - destruct (Parent (get r0 (addr (elements r0) i))); [|done].
        by rewrite app_nil_r. }
    destruct H1 as (Hh1 & He1 & Hl1 & Hc1 & Hd1 & Hs1 & Hr1).
    destruct (IH r1 Hh1 He1) as (? & ? & ? & ? & ? & ? & Hr).
    repeat split; try congruence.
    rewrite Hr, Hr1, filter_cons, <- app_assoc. f_equal.
    rewrite filter_cons, filter_nil. by destruct (decide _).
Qed.

(** [finalizeTreeStructureAndRoots] makes the roots exactly the cells of the
    flat collection whose parent reference is nil, in index order and
    without repetition; it touches neither the store nor the collection nor
    the configuration, and it logs a warning when a non-empty collection has
    no root. *)
Theorem finalize_roots_are_the_parentless_cells (r : RaylibRenderer) :
  let r' := finalizeTreeStructureAndRoots r in
  heap r' = heap r /\ elements r' = elements r
  /\ config r' = config r /\ docRef r' = docRef r
  /\ roots r' = filter (fun p => parentless r p = true) (cells r)
  /\ NoDup (roots r')
  /\ (forall p, p ∈ roots r' <-> live r p /\ Parent (get r p) = None)
  /\ (roots r' = [] -> s_len (elements r) <> 0%nat -> logs r' = logs r ++ [WarnNoRoots]).
Proof.
  intros r'.
  assert (Hmain : heap r' = heap r /\ elements r' = elements r
           /\ config r' = config r /\ docRef r' = docRef r
           /\ roots r' = filter (fun p => parentless r p = true) (cells r)
           /\ (roots r' = [] -> s_len (elements r) <> 0%nat ->
               logs r' = logs r ++ [WarnNoRoots])).
  { subst r'. unfold finalizeTreeStructureAndRoots, cells.
    destruct (s_len (elements r) =? 0)%nat eqn:Hn.
    - apply Nat.eqb_eq in Hn. rewrite Hn. simpl. repeat split; try done.
    - cbv zeta.
      destruct (finalize_loop (set_roots [] r) (seq 0 (s_len (elements (set_roots [] r))))
                  (set_roots [] r) eq_refl eq_refl)
        as (Hh & He & Hl & Hc & Hd & Hs & Hr).
      simpl in Hr. change (elements (set_roots [] r)) with (elements r) in *.
      match goal with |- context [fold_left ?f ?l ?x] => set (r1 := fold_left f l x) in * end.
      assert (Hpl : forall p, parentless (set_roots [] r) p = parentless r p) by done.
      assert (Hr' : roots r1 = filter (fun p => parentless r p = true)
                                 (map (addr (elements r)) (seq 0 (s_len (elements r)))))
        by exact Hr.
      clearbody r1.
      destruct (roots r1) eqn:Hroots; unfold log; simpl.
      + rewrite Hroots. repeat split; try done. intros _ _. by rewrite Hl.
      + rewrite Hroots. repeat split; try done. }
  destruct Hmain as (Hh & He & Hc & Hd & Hr & Hlog).
  do 5 (split; [done|]).
  split; [rewrite Hr; apply NoDup_filter, NoDup_cells|].
  split; [|done].
  intros p. rewrite Hr, list_elem_of_filter, elem_of_cells. unfold parentless.
  rewrite bool_decide_eq_true. tauto.
Qed.

(** Growing the flat collection for a new index at most its length never
    fails; the collection then has room for the index; every element is
    found at its old index with its old contents; every array allocated
    before keeps its contents (so that a pointer taken before still reads
    the old state); the collection moves to a fresh array exactly when its
    capacity was used up, the new capacity being twice the old one plus 20
    and the cells past the old length being zero; otherwise array and
    capacity stay. *)
Theorem growElements_keeps_contents (newElGlobalIndex : nat) (r : RaylibRenderer) :
  (s_len (elements r) <= s_cap (elements r))%nat ->
  (newElGlobalIndex <= s_len (elements r))%nat ->
  exists r',
    growElements newElGlobalIndex r = Done r'
    /\ s_len (elements r') = ((newElGlobalIndex + 1) `max` s_len (elements r))%nat
    /\ (s_len (elements r') <= s_cap (elements r'))%nat
    /\ (forall i, (i < s_len (elements r))%nat ->
          get r' (addr (elements r') i) = get r (addr (elements r) i))
    /\ (forall p, (p.1 < length (heap r))%nat -> get r' p = get r p)
    /\ s_arr (elements r') =
         (if (s_cap (elements r) <=? newElGlobalIndex)%nat
          then length (heap r) else s_arr (elements r))
    /\ s_cap (elements r') =
         (if (s_cap (elements r) <=? newElGlobalIndex)%nat
          then s_cap (elements r) * 2 + 20 else s_cap (elements r))%nat
    /\ ((s_cap (elements r) <= newElGlobalIndex)%nat ->
        forall i, (s_len (elements r) <= i)%nat ->
          get r' (addr (elements r') i) = zeroElement)
    /\ roots r' = roots r /\ config r' = config r /\ docRef r' = docRef r
    /\ logs r' = logs r.
Proof.
  intros Hlc Hidx. unfold growElements.
  destruct r as [cfg h [arr len cap] rts sf doc lg]. simpl in *.
  destruct (cap <=? newElGlobalIndex)%nat eqn:Hcap; simpl.
  - apply Nat.leb_le in Hcap.
    assert (len = newElGlobalIndex) as -> by lia.
    rewrite Nat.leb_refl.
    destruct (newElGlobalIndex + 1 <=? cap * 2 + 20)%nat eqn:Hfit;
      [|apply Nat.leb_gt in Hfit; lia].
    eexists. split; [reflexivity|]. simpl.
    split; [lia|]. split; [apply Nat.leb_le in Hfit; lia|].
    split; [|split; [|split; [done|split; [done|split; [|done]]]]].
    + intros i Hi. unfold get, load, addr. simpl.
      rewrite lookup_app_r by lia. rewrite Nat.sub_diag. simpl.
      destruct (h !! arr) as [a|] eqn:Ha; simpl.
      * destruct (decide (i < length a)%nat) as [Hlt|Hge].
        -- rewrite lookup_app_l by (rewrite length_take; lia).
           by rewrite lookup_take_lt by lia.
        -- rewrite lookup_app_r by (rewrite length_take; lia).
           rewrite lookup_replicate_2 by (rewrite !length_take; lia).
           by rewrite (lookup_ge_None_2 a i) by lia.
      * rewrite take_nil. simpl. rewrite lookup_replicate_2 by lia. done.
    + intros p Hp. unfold get, load. simpl. by rewrite lookup_app_l by done.
    + intros _ i Hi. unfold get, load, addr. simpl.
      rewrite lookup_app_r by lia. rewrite Nat.sub_diag. simpl.
      destruct (decide (i < cap * 2 + 20)%nat) as [Hlt|Hge].
      * rewrite lookup_app_r by (rewrite length_take; lia).
        rewrite lookup_replicate_2 by (rewrite !length_take; lia). done.
      * rewrite lookup_ge_None_2; [done|].
        rewrite length_app, length_replicate, length_take. lia.
  - apply Nat.leb_gt in Hcap.
    destruct (len <=? newElGlobalIndex)%nat eqn:Hlen.
    + apply Nat.leb_le in Hlen. assert (len = newElGlobalIndex) as -> by lia.
      destruct (newElGlobalIndex + 1 <=? cap)%nat eqn:Hfit;
        [|apply Nat.leb_gt in Hfit; lia].
      eexists. split; [reflexivity|]. simpl. apply Nat.leb_le in Hfit.
      repeat split; try done; lia.
    + apply Nat.leb_gt in Hlen.
      eexists. split; [reflexivity|]. simpl.
      repeat split; try done; lia.
Qed.

Lemma ReadU16LE_bytes v : 0 <= v -> ReadU16LE (v mod 256) (v / 256) = v.
Proof.
  intros Hv. unfold ReadU16LE. apply Z.bits_inj'. intros n Hn.
  rewrite Z.lor_spec. change 256 with (2 ^ 8).
  rewrite Z.testbit_mod_pow2 by lia.
  rewrite Z.shiftl_spec by lia.
  destruct (Z.ltb_spec n 8).
  - rewrite (Z.testbit_neg_r _ (n - 8)) by lia. simpl. by rewrite orb_false_r.
  - simpl. rewrite Z.div_pow2_bits by lia. f_equal. lia.
Qed.

(** Header records round-trip: the header read from the 17 bytes that
    encode [h] (16-bit fields little-endian, non-negative) is [h]. *)
Theorem parseElementHeader_inverts_encoding (h : ElementHeader) (rest : list Z) :
  0 <= PosX h -> 0 <= PosY h -> 0 <= Width h -> 0 <= Height h ->
  parseElementHeader (encodeElementHeader h ++ rest) = h
  /\ length (encodeElementHeader h) = ElementHeaderSize.
Proof.
  intros. destruct h. unfold parseElementHeader, encodeElementHeader, byteAt. simpl in *.
  by rewrite !ReadU16LE_bytes by lia.
Qed.

Lemma wrap32_add_l a b : wrap32 (wrap32 a + b) = wrap32 (a + b).
Proof. unfold wrap32. by rewrite Zplus_mod_idemp_l. Qed.

Lemma rd_Read_app (n : nat) data pos bs rest :
  drop pos data = bs ++ rest -> length bs = n -> (0 < n)%nat ->
  rd_Read n (mkReader data pos) = (bs, false, mkReader data (pos + n)).
Proof.
  intros Hd Hl Hn. unfold rd_Read. simpl.
  assert (Hlen : (pos + n <= length data)%nat).
  { apply (f_equal length) in Hd. rewrite length_drop, length_app in Hd. lia. }
  destruct (length data <=? pos)%nat eqn:He; [apply Nat.leb_le in He; lia|].
  rewrite Hd, take_app_length' by done. by rewrite Hl.
Qed.

(** Property records round-trip: reading as many property records as
    [props] has from a stream that holds their encodings gives back [props]
    exactly (identifier, value type, size and value bytes), leaves the
    reader just behind them and advances the stream offset by their length
    (modulo 2^32). *)
Theorem readProperties_inverts_encoding
    (props : list Property) (data rest : list Z) (pos : nat) (offset : Z)
    (errHeader errValue : ExpandError) :
  Forall sizedProperty props ->
  drop pos data = concat (map encodeProperty props) ++ rest ->
  0 <= offset < 2 ^ 32 ->
  let n := length (concat (map encodeProperty props)) in
  readProperties (length props) (mkReader data pos) offset errHeader errValue
  = inl (props, mkReader data (pos + n), wrap32 (offset + Z.of_nat n)).
Proof.
  intros Hs. revert pos offset. induction Hs as [|p ps Hp Hps IH]; intros pos offset Hd Ho n.
  - subst n. simpl. rewrite Nat.add_0_r, Z.add_0_r. unfold wrap32.
    by rewrite Z.mod_small by lia.
  - subst n. cbn [length readProperties].
    simpl in Hd. rewrite <- !app_assoc in Hd.
    change (propID p :: propValueType p :: propSize p :: propValue p ++ concat (map encodeProperty ps) ++ rest)
      with ([propID p; propValueType p; propSize p] ++ (propValue p ++ concat (map encodeProperty ps) ++ rest)) in Hd.
    rewrite (rd_Read_app 3 data pos _ _ Hd) by (simpl; lia).
    change (byteAt [propID p; propValueType p; propSize p] 0) with (propID p).
    change (byteAt [propID p; propValueType p; propSize p] 1) with (propValueType p).
    change (byteAt [propID p; propValueType p; propSize p] 2) with (propSize p).
    change (false || (length [propID p; propValueType p; propSize p] <? 3)%nat) with false.
    cbv iota.
    assert (Hd2 : drop (pos + 3) data = propValue p ++ concat (map encodeProperty ps) ++ rest).
    { rewrite <- drop_drop, Hd. done. }
    unfold sizedProperty in Hp.
    assert (Hlen : length (concat (map encodeProperty (p :: ps)))
                   = (3 + length (propValue p) + length (concat (map encodeProperty ps)))%nat).
    { simpl. rewrite length_app. lia. }
    rewrite Hlen. clear Hlen.
    destruct (propSize p >? 0) eqn:Hsz.
    + rewrite (rd_Read_app (Z.to_nat (propSize p)) data (pos + 3) _ _ Hd2) by lia.
      cbn [orb]. rewrite (proj2 (Nat.ltb_ge _ _)) by lia.
      assert (Hd3 : drop (pos + 3 + Z.to_nat (propSize p)) data
                    = concat (map encodeProperty ps) ++ rest).
      { rewrite <- drop_drop, Hd2, drop_app_length'; [done|lia]. }
      rewrite (IH _ _ Hd3) by (unfold wrap32; apply Z.mod_pos_bound; lia).
      destruct p as [i t sz v]; simpl in *. subst sz. 
      rewrite ?(wrap32_add_l (offset + 3)), ?wrap32_add_l.
      match goal with
      | |- inl (_, {| rd_data := _; rd_pos := ?a |}, wrap32 ?x)
           = inl (_, {| rd_data := _; rd_pos := ?b |}, wrap32 ?y) =>
          replace a with b by lia; replace x with y by lia
      end.
      done.
    + assert (propValue p = []) as Hnil.
      { destruct (propValue p); [done|]. simpl in Hp. lia. }
      rewrite Hnil in *. simpl in Hd2.
      rewrite (IH _ _ Hd2) by (unfold wrap32; apply Z.mod_pos_bound; lia).
      destruct p as [i t sz v]; simpl in *. subst.
      rewrite ?(wrap32_add_l (offset + 3)), ?wrap32_add_l.
      match goal with
      | |- inl (_, {| rd_data := _; rd_pos := ?a |}, wrap32 ?x)
           = inl (_, {| rd_data := _; rd_pos := ?b |}, wrap32 ?y) =>
          replace a with b by lia; replace x with y by lia
      end.
      done.
Qed.

Lemma growElements_keeps_contents_witness :
  exists r',
    growElements 2 GrowExample.rFull = Done r'
    /\ s_len (elements r') = 3%nat
    /\ (s_len (elements r') <= s_cap (elements r'))%nat
    /\ (forall i, (i < 2)%nat ->
          get r' (addr (elements r') i)
          = get GrowExample.rFull (addr (elements GrowExample.rFull) i))
    /\ (forall p, (p.1 < 1)%nat -> get r' p = get GrowExample.rFull p)
    /\ s_arr (elements r') = 1%nat
    /\ s_cap (elements r') = 24%nat
    /\ ((2 <= 2)%nat ->
        forall i, (2 <= i)%nat -> get r' (addr (elements r') i) = zeroElement)
    /\ roots r' = roots GrowExample.rFull /\ config r' = config GrowExample.rFull
    /\ docRef r' = docRef GrowExample.rFull /\ logs r' = logs GrowExample.rFull.
Proof.
  apply (growElements_keeps_contents 2 GrowExample.rFull); vm_compute; lia.
Defined.

Lemma parseElementHeader_inverts_encoding_witness :
  parseElementHeader
    (encodeElementHeader (Examples.header 1 3 2 1 0) ++ [19; 0]) = Examples.header 1 3 2 1 0
  /\ length (encodeElementHeader (Examples.header 1 3 2 1 0)) = ElementHeaderSize.
Proof.
  apply (parseElementHeader_inverts_encoding (Examples.header 1 3 2 1 0) [19; 0]);
    simpl; lia.
Defined.

Lemma readProperties_inverts_encoding_witness :
  readProperties 2
    (mkReader ([1; 3; 4; 10; 20; 30; 255] ++ [11; 1; 0] ++ [99]) 0) 17
    ErrReadPropHeader ErrReadPropValue
  = inl ([mkProperty 1 3 4 [10; 20; 30; 255]; mkProperty 11 1 0 []],
         mkReader ([1; 3; 4; 10; 20; 30; 255] ++ [11; 1; 0] ++ [99]) 10, 27).
Proof.
  apply (readProperties_inverts_encoding
           [mkProperty 1 3 4 [10; 20; 30; 255]; mkProperty 11 1 0 []]
           ([1; 3; 4; 10; 20; 30; 255] ++ [11; 1; 0] ++ [99]) [99] 0 17
           ErrReadPropHeader ErrReadPropValue).
  - repeat constructor.
  - reflexivity.
  - lia.
Defined.

(** * Slot search and slot insertion *)

Section FindSlot.
Context `{K : Krb}.

Implicit Types (r : RaylibRenderer) (p q s : ptr) (U queue : list ptr) (visited : gset ptr).

Lemma searchCost_visit r visited U cur :
  (searchCost r ({[cur]} ∪ visited) U <= searchCost r visited U)%nat
  /\ (cur ∈ U -> cur ∉ visited ->
      searchCost r ({[cur]} ∪ visited) U + length (Children (get r cur))
      <= searchCost r visited U)%nat.
Proof.
  unfold searchCost. induction U as [|u U [IH1 IH2]]; [split; [done|]; intros H; inversion H|].
  rewrite !filter_cons.
  destruct (decide (u ∉ {[cur]} ∪ visited)) as [Hu|Hu];
    destruct (decide (u ∉ visited)) as [Hv|Hv]; simpl.
  - split; [lia|]. intros Hin Hc. apply elem_of_cons in Hin as [->|Hin].
    + exfalso. apply Hu, elem_of_union. left. by apply elem_of_singleton.
    + specialize (IH2 Hin Hc). lia.
  - exfalso. apply Hv. intros Hin. apply Hu, elem_of_union. by right.
  - split; [lia|]. intros Hin Hc.
    assert (u = cur) as ->.
    { apply dec_stable. intros Hne. apply Hu. intros Hin'.
      apply elem_of_union in Hin' as [Hin'|Hin']; [|done].
      by apply elem_of_singleton in Hin'. }
    lia.
  - split; [lia|]. intros Hin Hc. apply elem_of_cons in Hin as [->|Hin]; [done|].
    specialize (IH2 Hin Hc). lia.
Qed.

Lemma findSlot_spec doc r U :
  (forall u c, u ∈ U -> c ∈ Children (get r u) -> c ∈ U) ->
  forall fuel queue visited,
    (forall q, q ∈ queue -> q ∈ U) ->
    (length queue + searchCost r visited U <= fuel)%nat ->
    (forall v, v ∈ visited -> isSlot doc r v = false) ->
    (forall v c, v ∈ visited -> c ∈ Children (get r v) -> c ∈ visited \/ c ∈ queue) ->
    exists res,
      findSlot fuel doc r queue visited = Done res
      /\ match res with
         | Some s => isSlot doc r s = true /\ exists q, q ∈ queue /\ desc r q s
         | None =>
             forall x s, x ∈ visited \/ x ∈ queue -> desc r x s -> isSlot doc r s = false
         end.
Proof.
  intros HU. induction fuel as [|fuel IH]; intros queue visited Hq Hfuel Hns Hcl.
  - destruct queue as [|cur queue]; [|simpl in Hfuel; lia].
    exists None. split; [done|].
    intros x s [Hx|Hx] Hd; [|inversion Hx].
    unfold desc in Hd. induction Hd as [x|x y z Hxy Hyz IHd]; [by apply Hns|].
    apply IHd. destruct (Hcl x y Hx Hxy) as [?|Hy]; [done|inversion Hy].
  - destruct queue as [|cur queue].
    + exists None. split; [done|].
      intros x s [Hx|Hx] Hd; [|inversion Hx].
      unfold desc in Hd. induction Hd as [x|x y z Hxy Hyz IHd]; [by apply Hns|].
      apply IHd. destruct (Hcl x y Hx Hxy) as [?|Hy]; [done|inversion Hy].
    + cbn [findSlot]. simpl in Hfuel.
      destruct (decide (cur ∈ visited)) as [Hcur|Hcur].
      * destruct (IH queue visited) as (res & Hrun & Hres).
        -- intros q Hin. apply Hq. by right.
        -- lia.
        -- done.
        -- intros v c Hv Hc. destruct (Hcl v c Hv Hc) as [?|Hin]; [by left|].
           apply elem_of_cons in Hin as [->|Hin]; [by left|by right].
        -- exists res. split; [done|]. destruct res as [s|].
           ++ destruct Hres as (Hs & q & Hin & Hd). split; [done|].
              exists q. split; [by right|done].
           ++ intros x s [Hx|Hx] Hd.
              ** apply (Hres x s); [by left|done].
              ** apply elem_of_cons in Hx as [->|Hx].
                 --- apply (Hres cur s); [by left|done].
                 --- apply (Hres x s); [by right|done].
      * fold (isSlot doc r cur).
        destruct (isSlot doc r cur) eqn:Hslot.
        -- exists (Some cur). split; [done|]. split; [done|].
           exists cur. split; [by left|apply rtc_refl].
        -- set (visited' := {[cur]} ∪ visited).
           set (new := filter (fun c => c ∉ visited') (Children (get r cur))).
           destruct (IH (queue ++ new) visited') as (res & Hrun & Hres).
           ++ intros q Hin. apply elem_of_app in Hin as [Hin|Hin]; [apply Hq; by right|].
              apply list_elem_of_filter in Hin as [_ Hin].
              apply (HU cur); [apply Hq; by left|done].
           ++ rewrite length_app.
              assert (length new <= length (Children (get r cur)))%nat
                by apply length_filter.
              destruct (searchCost_visit r visited U cur) as [_ Hdec].
              specialize (Hdec (Hq cur ltac:(by left)) Hcur).
              subst visited'. lia.
           ++ intros v Hv. apply elem_of_union in Hv as [Hv|Hv]; [|by apply Hns].
              apply elem_of_singleton in Hv as ->. done.
           ++ intros v c Hv Hc.
              destruct (decide (c ∈ visited')) as [?|Hnv]; [by left|right].
              apply elem_of_union in Hv as [Hv|Hv].
              ** apply elem_of_singleton in Hv as ->.
                 apply elem_of_app. right. by apply list_elem_of_filter.
              ** destruct (Hcl v c Hv Hc) as [?|Hin]; [set_solver|].
                 apply elem_of_cons in Hin as [->|Hin]; [set_solver|].
                 apply elem_of_app. by left.
           ++ exists res. split; [done|]. destruct res as [s|].
              ** destruct Hres as (Hs & q & Hin & Hd). split; [done|].
                 apply elem_of_app in Hin as [Hin|Hin].
                 --- exists q. split; [by right|done].
                 --- apply list_elem_of_filter in Hin as [_ Hin].
                     exists cur. split; [by left|]. eapply rtc_l; [exact Hin|exact Hd].
              ** intros x s [Hx|Hx] Hd.
                 --- apply (Hres x s); [left; set_solver|done].
                 --- apply elem_of_cons in Hx as [->|Hx].
                     +++ apply (Hres cur s); [left; set_solver|done].
                     +++ apply (Hres x s); [right; apply elem_of_app; by left|done].
Qed.

Lemma withinSteps_mono r d d' queue p :
  (d <= d')%nat -> withinSteps r d queue p -> withinSteps r d' queue p.
Proof. intros Hd (q & k & Hq & Hk & Hp). exists q, k. split; [done|]. split; [lia|done]. Qed.

Lemma withinSteps_child r d queue p c :
  withinSteps r d queue p -> c ∈ Children (get r p) -> withinSteps r (S d) queue c.
Proof.
  intros (q & k & Hq & Hk & Hp) Hc. exists q, (S k). split; [done|]. split; [lia|].
  eapply nsteps_r; [exact Hp|exact Hc].
Qed.

(** What lies within [S d] steps lies within [d] steps or is a child of
    something that does. *)
Lemma withinSteps_inv r d queue p :
  withinSteps r (S d) queue p ->
  withinSteps r d queue p
  \/ exists y, withinSteps r d queue y /\ p ∈ Children (get r y).
Proof.
  intros (q & k & Hq & Hk & Hp).
  destruct (decide (k <= d)%nat) as [Hle|Hgt]; [left; by exists q, k|].
  assert (k = S d) as -> by lia.
  apply nsteps_inv_r in Hp as (y & Hy & Hyp).
  right. exists y. split; [by exists q, d|exact Hyp].
Qed.

(** The search goes level by level.  The queue is [A ++ B], [A] within [d]
    steps of the start and [B] within [S d]; whatever lies within fewer than
    [d] steps has been visited, and whatever lies within [d] steps has been
    visited or waits in [A]. *)
Lemma findSlot_nearest doc r start :
  forall fuel d A B visited s,
    (forall v, v ∈ visited -> isSlot doc r v = false) ->
    (forall v c, v ∈ visited -> c ∈ Children (get r v) -> c ∈ visited \/ c ∈ A \/ c ∈ B) ->
    (forall j x, (j < d)%nat -> withinSteps r j start x -> x ∈ visited) ->
    (forall x, withinSteps r d start x -> x ∈ visited \/ x ∈ A) ->
    (forall x, x ∈ A -> withinSteps r d start x) ->
    (forall x, x ∈ B -> withinSteps r (S d) start x) ->
    findSlot fuel doc r (A ++ B) visited = Done (Some s) ->
    exists d', withinSteps r d' start s
               /\ forall j x, (j < d')%nat -> withinSteps r j start x -> isSlot doc r x = false.
Proof.
  induction fuel as [|fuel IH]; intros d A B visited s Hns Hcl Hlow Hd HA HB Hrun.
  { destruct (A ++ B); discriminate Hrun. }
  assert (Hstep : forall d cur A B,
    (forall v c, v ∈ visited -> c ∈ Children (get r v) ->
       c ∈ visited \/ c ∈ cur :: A \/ c ∈ B) ->
    (forall j x, (j < d)%nat -> withinSteps r j start x -> x ∈ visited) ->
    (forall x, withinSteps r d start x -> x ∈ visited \/ x ∈ cur :: A) ->
    (forall x, x ∈ cur :: A -> withinSteps r d start x) ->
    (forall x, x ∈ B -> withinSteps r (S d) start x) ->
    findSlot (S fuel) doc r (cur :: A ++ B) visited = Done (Some s) ->
    exists d', withinSteps r d' start s
               /\ forall j x, (j < d')%nat -> withinSteps r j start x ->
                    isSlot doc r x = false).
  { clear d A B Hcl Hlow Hd HA HB Hrun.
    intros d cur A B Hcl Hlow Hd HA HB Hrun. cbn [findSlot] in Hrun.
    destruct (decide (cur ∈ visited)) as [Hcur|Hcur].
    - apply (IH d A B visited s); try done.
      + intros v c Hv Hc. destruct (Hcl v c Hv Hc) as [?|[Hin|?]]; [by left| |by right; right].
        apply elem_of_cons in Hin as [->|Hin]; [by left|right; by left].
      + intros x Hx. destruct (Hd x Hx) as [?|Hin]; [by left|].
        apply elem_of_cons in Hin as [->|Hin]; [by left|by right].
      + intros x Hx. apply HA. by right.
    - fold (isSlot doc r cur) in Hrun.
      destruct (isSlot doc r cur) eqn:Hslot.
      + injection Hrun as <-. exists d. split; [apply HA; by left|].
        intros j x Hj Hx. apply Hns. by apply (Hlow j).
      + rewrite <- app_assoc in Hrun.
        apply (IH d A _ _ s) in Hrun; [done|..].
        * intros v Hv. apply elem_of_union in Hv as [Hv|Hv]; [|by apply Hns].
          apply elem_of_singleton in Hv as ->. done.
        * intros v c Hv Hc.
          destruct (decide (c ∈ ({[cur]} ∪ visited : gset ptr))) as [?|Hnv]; [by left|right].
          apply elem_of_union in Hv as [Hv|Hv].
          -- apply elem_of_singleton in Hv as ->. right.
             apply elem_of_app. right. by apply list_elem_of_filter.
          -- destruct (Hcl v c Hv Hc) as [Hin|[Hin|Hin]].
             ++ exfalso. apply Hnv, elem_of_union. by right.
             ++ apply elem_of_cons in Hin as [->|Hin]; [|by left].
                exfalso. apply Hnv, elem_of_union. left. by apply elem_of_singleton.
             ++ right. apply elem_of_app. by left.
        * intros j x Hj Hx. apply elem_of_union. right. by apply (Hlow j).
        * intros x Hx. destruct (Hd x Hx) as [?|Hin].
          -- left. apply elem_of_union. by right.
          -- apply elem_of_cons in Hin as [->|Hin]; [|by right].
             left. apply elem_of_union. left. by apply elem_of_singleton.
        * intros x Hx. apply HA. by right.
        * intros x Hx. apply elem_of_app in Hx as [Hx|Hx]; [by apply HB|].
          apply list_elem_of_filter in Hx as [_ Hx].
          apply (withinSteps_child r d start cur); [apply HA; by left|done]. }
  destruct A as [|cur A].
  - destruct B as [|cur B]; [discriminate Hrun|].
    simpl in Hrun. rewrite <- (app_nil_r B) in Hrun.
    apply (Hstep (S d) cur B []); try done.
    + intros v c Hv Hc. destruct (Hcl v c Hv Hc) as [?|[Hin|?]]; [by left|inversion Hin|].
      right. by left.
    + intros j x Hj Hx. destruct (decide (j < d)%nat) as [Hlt|Hge]; [by apply (Hlow j)|].
      destruct (Hd x) as [?|Hin]; [|done|inversion Hin].
      apply (withinSteps_mono r j); [lia|done].
    + intros x Hx. apply withinSteps_inv in Hx as [Hx|(y & Hy & Hxy)].
      * destruct (Hd x Hx) as [?|Hin]; [by left|inversion Hin].
      * destruct (Hd y Hy) as [Hv|Hin]; [|inversion Hin].
        destruct (Hcl y x Hv Hxy) as [?|[Hin|?]]; [by left|inversion Hin|by right].
    + intros x Hx. inversion Hx.
  - by apply (Hstep d cur A B).
Qed.

(** The slot search is a complete search that finds a nearest slot.
    Started from a queue of nodes within a set [U] of nodes closed under
    children, with a budget of the length of the queue plus the number of
    child entries of [U], it returns; a node it returns has the slot name as
    its id and is reached from the queue through children lists, in some
    number [d] of steps such that no node within fewer than [d] steps of the
    queue has the slot name (the search goes level by level, breadth
    first); and when it returns none, no node reached from the queue has the
    slot name as its id. *)
Theorem findSlot_finds_a_reachable_slot
    (fuel : nat) doc r queue U :
  (forall q, q ∈ queue -> q ∈ U) ->
  (forall u c, u ∈ U -> c ∈ Children (get r u) -> c ∈ U) ->
  (length queue + searchCost r ∅ U <= fuel)%nat ->
  exists res,
    findSlot fuel doc r queue ∅ = Done res
    /\ match res with
       | Some s =>
           isSlot doc r s = true
           /\ (exists q, q ∈ queue /\ desc r q s)
           /\ exists d, withinSteps r d queue s
                        /\ forall j x, (j < d)%nat -> withinSteps r j queue x ->
                             isSlot doc r x = false
       | None => forall q s, q ∈ queue -> desc r q s -> isSlot doc r s = false
       end.
Proof.
  intros Hq HU Hfuel.
  destruct (findSlot_spec doc r U HU fuel queue ∅ Hq Hfuel) as (res & Hrun & Hres);
    [set_solver|set_solver|].
  exists res. split; [done|]. destruct res as [s|].
  - destruct Hres as [Hs Hreach]. split; [done|]. split; [done|].
    apply (findSlot_nearest doc r queue fuel 0 queue [] ∅ s).
    + intros v Hv. by apply not_elem_of_empty in Hv.
    + intros v c Hv. by apply not_elem_of_empty in Hv.
    + intros j x Hj. lia.
    + intros x (q & k & Hin & Hk & Hp). assert (k = 0)%nat as -> by lia.
      inversion Hp; subst. by right.
    + intros x Hx. exists x, 0%nat. split; [done|]. split; [lia|constructor].
    + intros x Hx. inversion Hx.
    + by rewrite app_nil_r.
  - intros q s Hin. apply Hres. by right.
Qed.

End FindSlot.

Section Slot.
Context `{K : Krb}.
Implicit Types (r : RaylibRenderer) (p q c host : ptr) (kry : list ptr).

Lemma set_Parent_same e : set_Parent (Parent e) e = e.
Proof. by destruct e. Qed.

Lemma set_Children_same e : set_Children (Children e) e = e.
Proof. by destruct e. Qed.

Lemma set_Parent_swap e e' x y :
  set_Parent x e = set_Parent x e' -> set_Parent y e = set_Parent y e'.
Proof.
  destruct e, e'. unfold set_Parent. simpl. intros H.
  injection H. intros. subst. reflexivity.
Qed.

Lemma set_Children_swap e e' x y :
  set_Children x e = set_Children x e' -> set_Children y e = set_Children y e'.
Proof.
  destruct e, e'. unfold set_Children. simpl. intros H.
  injection H. intros. subst. reflexivity.
Qed.

Lemma set_Parent_Children e x y :
  set_Parent x (set_Children y e) = set_Children y (set_Parent x e).
Proof. by destruct e. Qed.

Lemma set_Children_twice e x y : set_Children x (set_Children y e) = set_Children x e.
Proof. by destruct e. Qed.

Lemma valid_update f p q r : valid (heap (update p f r)) q <-> valid (heap r) q.
Proof. unfold update. simpl. apply valid_modify. Qed.

Lemma set_Parent_fold host kry : forall r,
  let s := fold_left (fun r kryChild => update kryChild (set_Parent (Some host)) r) kry r in
  (forall c, c ∈ kry -> valid (heap r) c -> Parent (get s c) = Some host)
  /\ (forall q, q ∉ kry -> get s q = get r q)
  /\ (forall q, set_Parent (Parent (get r q)) (get s q) = get r q)
  /\ elements s = elements r /\ roots s = roots r /\ config s = config r
  /\ logs s = logs r
  /\ map length (heap s) = map length (heap r).
Proof.
  induction kry as [|k kry IH]; intros r; cbn zeta; simpl.
  - repeat split; try done.
    + intros c Hc. inversion Hc.
    + intros q. by destruct (get r q).
  - destruct (IH (update k (set_Parent (Some host)) r))
      as (HP & Hout & Honly & He & Hr & Hc & Hl & Hs).
    cbn zeta in *.
    set (s := fold_left _ kry _) in *.
    split; [|split; [|split]].
    + intros c Hin Hv. destruct (decide (c ∈ kry)) as [Hk|Hk].
      * apply HP; [done|]. by apply valid_update.
      * apply elem_of_cons in Hin as [->|Hin]; [|done].
        rewrite Hout by done. by rewrite get_update_eq.
    + intros q Hq. rewrite Hout by (intros ?; apply Hq; by right).
      apply get_update_ne. intros ->. apply Hq. by left.
    + intros q. specialize (Honly q).
      destruct (get_update_cases (set_Parent (Some host)) k q r) as [Heq|(-> & _ & Heq)];
        rewrite Heq in Honly; [done|].
      rewrite <- (set_Parent_same (get r k)) at 2.
      apply (set_Parent_swap _ _ (Some host)). exact Honly.
    + rewrite He, Hr, Hc, Hl, Hs. repeat split. simpl. apply modify_shape.
Qed.

Lemma appendUsageChildren_spec host kry r :
  valid (heap r) host -> (forall c, c ∈ kry -> valid (heap r) c) ->
  usageAppended host kry r (appendUsageChildren host kry r)
  /\ logs (appendUsageChildren host kry r) = logs r.
Proof.
  intros Hh Hk. unfold appendUsageChildren.
  set (r1 := update host _ r).
  destruct (set_Parent_fold host kry r1) as (HP & Hout & Honly & He & Hr & Hc & Hl & Hs).
  cbn zeta in *. set (s := fold_left _ kry r1) in *.
  assert (Hch : forall q, Children (get s q) = Children (get r1 q)).
  { intros q. rewrite <- (Honly q). by destruct (get s q). }
  assert (Hpar : forall q, Parent (get r1 q) = Parent (get r q)).
  { intros q. subst r1. by apply get_update_field. }
  split; [|by rewrite Hl].
  unfold usageAppended. split; [|split; [|split; [|split; [|split]]]].
  - rewrite Hch. subst r1. by rewrite get_update_eq.
  - intros c Hin. apply HP; [done|]. subst r1. apply valid_update. auto.
  - intros q Hq. rewrite Hch. subst r1. by rewrite get_update_ne.
  - intros q Hq. rewrite Hout by done. apply Hpar.
  - intros q. specialize (Honly q). rewrite Hpar in Honly.
    rewrite set_Parent_Children, Honly.
    destruct (get_update_cases (fun e => set_Children (Children e ++ kry) e) host q r)
      as [Heq|(-> & _ & Heq)]; fold r1 in Heq; rewrite Heq.
    + apply set_Children_same.
    + rewrite set_Children_twice. apply set_Children_same.
  - rewrite He, Hr, Hc, Hs. repeat split. subst r1. simpl. apply modify_shape.
Qed.

(** Slot insertion.  For an instance whose first child is the template
    root, with usage children to place, over allocated nodes:
    [slotUsageChildren] returns, and either some node reached from the
    template root has the slot name as its id, and the usage children are
    appended, in order, to that node's children and reparented to it; or no
    such node exists and the template root is a container, and they are
    appended to the root and reparented to it, with a warning; or no such
    node exists and the root is no container, and the store is left as it
    was (the usage children keep the parent they had), with a warning and
    an error logged.  In the first two cases nothing else changes. *)
Theorem slotUsageChildren_places_usage_children
    (fuel : nat) doc (instanceElement root : ptr) (rest kry U : list ptr) r :
  kry <> [] ->
  Children (get r instanceElement) = root :: rest ->
  root ∈ U ->
  (forall u c, u ∈ U -> c ∈ Children (get r u) -> c ∈ U) ->
  (forall u, u ∈ U -> valid (heap r) u) ->
  (forall c, c ∈ kry -> valid (heap r) c) ->
  (1 + searchCost r ∅ U <= fuel)%nat ->
  exists r',
    slotUsageChildren fuel doc instanceElement kry r = Done r'
    /\ ((exists slot, isSlot doc r slot = true /\ desc r root slot
                      /\ usageAppended slot kry r r' /\ logs r' = logs r)
        \/ ((forall s, desc r root s -> isSlot doc r s = false)
            /\ ((Type_ (Header (get r root)) = ElemTypeContainer
                 /\ usageAppended root kry r r'
                 /\ logs r' = logs r ++ [WarnNoSlotFound])
                \/ (Type_ (Header (get r root)) <> ElemTypeContainer
                    /\ heap r' = heap r /\ elements r' = elements r
                    /\ roots r' = roots r
                    /\ logs r' = logs r ++ [WarnNoSlotFound; ErrRootNotContainer])))).
Proof.
  intros Hkry Hch Hroot HU Hvalid Hkv Hfuel.
  unfold slotUsageChildren. destruct kry as [|k kry']; [done|].
  set (kry := k :: kry') in *. rewrite Hch.
  destruct (findSlot_spec doc r U HU fuel [root] ∅) as (res & Hrun & Hres0).
  { intros q Hq. apply list_elem_of_singleton in Hq as ->. done. }
  { simpl. lia. }
  { intros v Hv. by apply not_elem_of_empty in Hv. }
  { intros v c Hv. by apply not_elem_of_empty in Hv. }
  assert (Hres : match res with
                 | Some s => isSlot doc r s = true /\ exists q, q ∈ [root] /\ desc r q s
                 | None => forall q s, q ∈ [root] -> desc r q s -> isSlot doc r s = false
                 end).
  { destruct res; [done|]. intros q s Hin. apply Hres0. by right. }
  clear Hres0.
  rewrite Hrun. simpl. destruct res as [slot|].
  - destruct Hres as (Hslot & q & Hq & Hd). apply list_elem_of_singleton in Hq as ->.
    eexists. split; [reflexivity|]. left. exists slot.
    assert (Hin : slot ∈ U).
    { clear -Hd Hroot HU. unfold desc in Hd. induction Hd; eauto. }
    destruct (appendUsageChildren_spec slot kry r) as [Ha Hl]; auto.
  - change (Children (get (log WarnNoSlotFound r) instanceElement))
      with (Children (get r instanceElement)).
    rewrite Hch.
    change (get (log WarnNoSlotFound r) root) with (get r root).
    destruct (Z.eqb_spec (Type_ (Header (get r root))) ElemTypeContainer) as [Ht|Ht].
    + eexists. split; [reflexivity|]. right.
      split; [intros s; apply Hres; by left|]. left. split; [done|].
      destruct (appendUsageChildren_spec root kry (log WarnNoSlotFound r)) as [Ha Hl];
        [by apply Hvalid|done|].
      split; [exact Ha|exact Hl].
    + eexists. split; [reflexivity|]. right.
      split; [intros s; apply Hres; by left|]. right. split; [done|].
      unfold log. simpl. by rewrite <- app_assoc.
Qed.

End Slot.

Lemma slot_example_closed :
  forall u c : ptr, u ∈ [(0, 1)%nat; (0, 2)%nat] ->
    c ∈ Children (get SlotExample.slotState u) -> c ∈ [(0, 1)%nat; (0, 2)%nat].
Proof.
  intros u c Hu Hc.
  apply elem_of_cons in Hu as [->|Hu].
  - vm_compute in Hc. apply list_elem_of_singleton in Hc as ->. by right; left.
  - apply list_elem_of_singleton in Hu as ->. vm_compute in Hc. inversion Hc.
Qed.

Lemma findSlot_finds_a_reachable_slot_witness :
  exists res,
    findSlot (K := Ref.krb) 5 Examples.docAlign SlotExample.slotState [(0, 1)%nat] ∅
      = Done res
    /\ match res with
       | Some s =>
           isSlot (K := Ref.krb) Examples.docAlign SlotExample.slotState s = true
           /\ (exists q, q ∈ [(0, 1)%nat] /\ desc SlotExample.slotState q s)
           /\ exists d, withinSteps SlotExample.slotState d [(0, 1)%nat] s
                        /\ forall j x, (j < d)%nat ->
                             withinSteps SlotExample.slotState j [(0, 1)%nat] x ->
                             isSlot (K := Ref.krb) Examples.docAlign
                               SlotExample.slotState x = false
       | None =>
           forall q s, q ∈ [(0, 1)%nat] -> desc SlotExample.slotState q s ->
             isSlot (K := Ref.krb) Examples.docAlign SlotExample.slotState s = false
       end.
Proof.
  apply (findSlot_finds_a_reachable_slot (K := Ref.krb) 5 Examples.docAlign
           SlotExample.slotState [(0, 1)%nat] [(0, 1)%nat; (0, 2)%nat]).
  - intros q Hq. apply list_elem_of_singleton in Hq as ->. by left.
  - exact slot_example_closed.
  - vm_compute. lia.
Defined.

Lemma slotUsageChildren_places_usage_children_witness :
  exists r',
    slotUsageChildren (K := Ref.krb) 5 Examples.docAlign (0, 0)%nat [(0, 3)%nat]
      SlotExample.slotState = Done r'
    /\ ((exists slot,
           isSlot (K := Ref.krb) Examples.docAlign SlotExample.slotState slot = true
           /\ desc SlotExample.slotState (0, 1)%nat slot
           /\ usageAppended slot [(0, 3)%nat] SlotExample.slotState r'
           /\ logs r' = logs SlotExample.slotState)
        \/ ((forall s, desc SlotExample.slotState (0, 1)%nat s ->
               isSlot (K := Ref.krb) Examples.docAlign SlotExample.slotState s = false)
            /\ ((Type_ (Header (get SlotExample.slotState (0, 1)%nat))
                 = ElemTypeContainer (Krb := Ref.krb)
                 /\ usageAppended (0, 1)%nat [(0, 3)%nat] SlotExample.slotState r'
                 /\ logs r' = logs SlotExample.slotState ++ [WarnNoSlotFound])
                \/ (Type_ (Header (get SlotExample.slotState (0, 1)%nat))
                    <> ElemTypeContainer (Krb := Ref.krb)
                    /\ heap r' = heap SlotExample.slotState
                    /\ elements r' = elements SlotExample.slotState
                    /\ roots r' = roots SlotExample.slotState
                    /\ logs r' = logs SlotExample.slotState
                                 ++ [WarnNoSlotFound; ErrRootNotContainer])))).
Proof.
  apply (slotUsageChildren_places_usage_children (K := Ref.krb) 5 Examples.docAlign
           (0, 0)%nat (0, 1)%nat [] [(0, 3)%nat] [(0, 1)%nat; (0, 2)%nat]
           SlotExample.slotState).
  - done.
  - reflexivity.
  - by left.
  - exact slot_example_closed.
  - intros u Hu. apply elem_of_cons in Hu as [->|Hu]; [vm_compute; eauto|].
    apply list_elem_of_singleton in Hu as ->. vm_compute. eauto.
  - intros c Hc. apply list_elem_of_singleton in Hc as ->. vm_compute. eauto.
  - vm_compute. lia.
Defined.

(** * Linking the document's own elements *)

Lemma forRange_ind {S : Type} total (I : nat -> S -> Prop) (n : nat)
    (body : S -> nat -> outcome S) (s : S) :
  (forall k s, (k < n)%nat -> I k s -> returns_with total (I (Datatypes.S k)) (body s k)) ->
  I 0%nat s -> returns_with total (I n) (forRange n body s).
Proof.
  intros Hbody. unfold forRange.
  assert (H : forall m a s, (a + m = n)%nat -> I a s ->
                returns_with total (I n) (forEach body (seq a m) s)).
  { induction m as [|m IH]; intros a s0 Ha Hs; simpl.
    - replace n with a by lia. done.
    - apply returns_with_bind.
      eapply returns_with_mono; [|apply Hbody; [lia|exact Hs]].
      intros s1 Hs1. apply IH; [lia|done]. }
  intros Hs. apply (H n 0%nat); [lia|done].
Qed.

Lemma link_change_only_refl e : link_change_only e e.
Proof. unfold link_change_only. by destruct e. Qed.

Lemma link_change_only_trans e1 e2 e3 :
  link_change_only e1 e2 -> link_change_only e2 e3 -> link_change_only e1 e3.
Proof.
  unfold link_change_only. destruct e1, e2, e3. unfold set_Parent, set_Children. simpl.
  intros H1 H2. injection H1. injection H2. intros. subst. reflexivity.
Qed.

Lemma link_change_only_Children e x : link_change_only e (set_Children x e).
Proof. unfold link_change_only. by destruct e. Qed.

Lemma link_change_only_Parent e x : link_change_only e (set_Parent x e).
Proof. unfold link_change_only. by destruct e. Qed.

Lemma related_fold_update (R : ptr -> RenderElement -> RenderElement -> Prop) f :
  (forall q e, R q e e) ->
  (forall q e1 e2 e3, R q e1 e2 -> R q e2 e3 -> R q e1 e3) ->
  (forall q e, R q e (f e)) ->
  forall xs r, related R r (fold_left (fun r x => update x f r) xs r).
Proof.
  intros Hrefl Htrans Hf. induction xs as [|x xs IH]; intros r; simpl.
  - by apply related_refl.
  - eapply related_trans; [done| |apply IH]. apply related_update; auto.
Qed.

Section Link.
Context `{K : Krb}.
Implicit Types (r : RaylibRenderer) (p q c : ptr) (m : gmap nat (list ptr)).

Lemma buildOffsetIndex_range n offsets z j :
  buildOffsetIndex n offsets !! z = Some j -> (j < n)%nat /\ offsets !! j = Some z.
Proof.
  unfold buildOffsetIndex.
  set (l := seq 0 (n `min` length offsets)).
  assert (Hl : forall i, i ∈ l -> (i < n)%nat) by (intros i Hi; apply elem_of_seq in Hi; lia).
  clearbody l.
  assert (H : forall (m0 : gmap Z nat),
             (forall z j, m0 !! z = Some j -> (j < n)%nat /\ offsets !! j = Some z) ->
             forall z j,
               fold_left (fun (m : gmap Z nat) (i : nat) =>
                            match offsets !! i with
                            | Some off => <[off := i]> m
                            | None => m
                            end) l m0 !! z = Some j ->
               (j < n)%nat /\ offsets !! j = Some z).
  { induction l as [|i l IH]; intros m0 Hm0 z' j'; simpl; [apply Hm0|].
    apply IH.
    - intros i' Hi'. apply Hl. by right.
    - intros z0 j0. destruct (offsets !! i) as [off|] eqn:Hoff; [|apply Hm0].
      destruct (decide (z0 = off)) as [->|Hne].
      + rewrite lookup_insert_eq. intros [= <-]. split; [apply Hl; by left|done].
      + rewrite lookup_insert_ne by done. apply Hm0. }
  apply H. intros z0 j0. by rewrite lookup_empty.
Qed.

(** What the pass over the references of one element gives, the indices of
    the offset map lying within the collection. *)
Lemma resolveChildRefs_spec i off (idx : gmap Z nat) refs r :
  (forall z j, idx !! z = Some j -> (j < s_len (elements r))%nat) ->
  exists res,
    resolveChildRefs i off idx refs r = Done res
    /\ res.1 = omap (fun ref => addr (elements r) <$> (idx !! wrap32 (off + ChildOffset ref))) refs
    /\ heap res.2 = heap r /\ elements res.2 = elements r /\ roots res.2 = roots r
    /\ config res.2 = config r /\ docRef res.2 = docRef r /\ scaleFactor res.2 = scaleFactor r.
Proof.
  intros Hidx. unfold resolveChildRefs.
  assert (H : forall acc r0, elements r0 = elements r ->
            exists res,
              forEach (fun (acc : list ptr * RaylibRenderer) (childRef : ChildRef) =>
                let '(actualChildren, r) := acc in
                let childAbsoluteFileOffset := wrap32 (off + ChildOffset childRef) in
                match idx !! childAbsoluteFileOffset with
                | None =>
                    Done (actualChildren, log (ErrChildRefUnresolved i (ChildOffset childRef)) r)
                | Some childIndexInInitialElements =>
                    if (childIndexInInitialElements <? s_len (elements r))%nat
                    then Done (actualChildren ++ [addr (elements r) childIndexInInitialElements], r)
                    else Panic
                end) refs (acc, r0) = Done res
              /\ res.1 = acc ++ omap (fun ref => addr (elements r) <$>
                                     (idx !! wrap32 (off + ChildOffset ref))) refs
              /\ heap res.2 = heap r0 /\ elements res.2 = elements r0 /\ roots res.2 = roots r0
              /\ config res.2 = config r0 /\ docRef res.2 = docRef r0
              /\ scaleFactor res.2 = scaleFactor r0).
  { induction refs as [|ref refs IH]; intros acc r0 He; cbn [forEach].
    - eexists. split; [reflexivity|]. simpl. by rewrite app_nil_r.
    - cbn zeta. csimpl.
      destruct (idx !! wrap32 (off + ChildOffset ref)) as [j|] eqn:Hj; csimpl.
      + rewrite He. rewrite (proj2 (Nat.ltb_lt _ _) (Hidx _ _ Hj)). csimpl.
        destruct (IH (acc ++ [addr (elements r) j]) r0 He) as (res & Hrun & H1 & H2).
        exists res. split; [exact Hrun|]. rewrite H1, <- app_assoc.
        split; [reflexivity|]. destruct H2 as (? & ? & ? & ? & ? & ?).
        repeat split; congruence.
      + destruct (IH acc (log (ErrChildRefUnresolved i (ChildOffset ref)) r0) He)
          as (res & Hrun & H1 & H2).
        exists res. split; [exact Hrun|]. split; [exact H1|exact H2]. }
  destruct (H [] r eq_refl) as (res & Hrun & H1 & H2).
  exists res. split; [exact Hrun|]. split; [exact H1|exact H2].
Qed.

(** The pass panics or returns, leaving the collection where it is. *)
Lemma resolveChildRefs_elements i off (idx : gmap Z nat) refs r :
  resolveChildRefs i off idx refs r = Panic
  \/ exists res, resolveChildRefs i off idx refs r = Done res /\ elements res.2 = elements r.
Proof.
  unfold resolveChildRefs.
  match goal with
  | |- forEach ?body _ _ = _ \/ _ =>
      assert (H : forall acc r0,
                forEach body refs (acc, r0) = Panic
                \/ exists res, forEach body refs (acc, r0) = Done res
                               /\ elements res.2 = elements r0)
  end.
  { induction refs as [|ref refs IH]; intros acc r0; cbn [forEach].
    - right. eexists. split; reflexivity.
    - cbn zeta. destruct (idx !! wrap32 (off + ChildOffset ref)) as [j|]; csimpl.
      + destruct (j <? s_len (elements r0))%nat; csimpl; [apply IH|by left].
      + destruct (IH acc (log (ErrChildRefUnresolved i (ChildOffset ref)) r0))
          as [H|(res & H & He)]; [by left|right].
        exists res. split; [exact H|exact He]. }
  apply H.
Qed.

End Link.

Lemma valid_shape (h h' : Store) p :
  map length h' = map length h -> valid h p -> valid h' p.
Proof.
  intros Hs [e He]. unfold valid in *.
  destruct (h !! p.1) as [arr|] eqn:Harr; simpl in *; [|done].
  assert (Hl : map length h' !! p.1 = Some (length arr))
    by (by rewrite Hs, list_lookup_fmap, Harr).
  rewrite list_lookup_fmap in Hl.
  destruct (h' !! p.1) as [arr'|]; simpl in *; [|done].
  injection Hl as Hl. apply lookup_lt_is_Some_2. rewrite Hl.
  by eapply lookup_lt_Some.
Qed.

Lemma get_fold_update_field {A} (F : RenderElement -> A) f xs :
  (forall e, F (f e) = F e) ->
  forall r q, F (get (fold_left (fun r x => update x f r) xs r) q) = F (get r q).
Proof.
  intros HF. induction xs as [|x xs IH]; intros r q; simpl; [done|].
  rewrite IH. by apply get_update_field.
Qed.


Section LinkProof.
Context `{K : Krb}.

Variables (doc : Document) (offsets : list Z) (n : nat)
  (m : gmap nat (list ptr)) (r : RaylibRenderer).

Hypothesis Hv : forall i, (i < n)%nat -> valid (heap r) (addr (elements r) i).

Local Abbreviation cell i := (addr (elements r) i).
Local Abbreviation resolved i := (resolvedChildren doc offsets n i (elements r)).

Lemma cell_inj i j : cell i = cell j -> i = j.
Proof. unfold addr. congruence. Qed.

Lemma resolved_cells i c : c ∈ resolved i -> exists j, (j < n)%nat /\ c = cell j.
Proof.
  unfold resolvedChildren.
  destruct (ChildRefs doc !! i) as [[refs|]|]; [|intros H; inversion H..].
  destruct (offsets !! i) as [off|]; [|intros H; inversion H].
  intros Hc. apply list_elem_of_omap in Hc as (ref & _ & Hc).
  destruct (buildOffsetIndex n offsets !! wrap32 (off + ChildOffset ref)) as [j|] eqn:Hj;
    [|done].
  simpl in Hc. exists j. split; [by apply buildOffsetIndex_range in Hj as [? _]|].
  congruence.
Qed.

(** Same store, possibly more log entries. *)
Lemma linkInv_same_store k rk mk r1 :
  heap r1 = heap rk -> elements r1 = elements rk -> roots r1 = roots rk ->
  config r1 = config rk -> docRef r1 = docRef rk -> scaleFactor r1 = scaleFactor rk ->
  linkInv doc offsets n m r k (rk, mk) -> linkInv doc offsets n m r k (r1, mk).
Proof.
  intros Hh He Hr Hc Hd Hs (I1 & I2 & I3 & I4 & I5 & I6).
  assert (Hg : forall q, get r1 q = get rk q) by (intros q; unfold get; by rewrite Hh).
  simpl in *. split; [|split; [|split; [|split; [|split]]]]; simpl.
  - destruct I1 as (? & ? & ? & ? & ? & ? & Hq).
    repeat split; try congruence; try (intros q; rewrite Hg; apply Hq).
  - intros i Hi. specialize (I2 i Hi). unfold linkedAs in *. cbn zeta in *.
    by rewrite Hg.
  - intros q Hq. rewrite Hg. by apply I3.
  - done.
  - intros q p. rewrite Hg. intros HP. destruct (I5 q p HP) as [?|(i & ? & ? & ?)]; [by left|].
    right. exists i. by rewrite Hg.
  - intros i c Hi Hd' Hp Hc'. destruct (I6 i c Hi Hd' Hp Hc') as (j & ? & ? & ?).
    exists j. by rewrite !Hg.
Qed.

(** An element that links nothing. *)
Lemma linkInv_skip k rk mk :
  declaresChildren doc offsets k = false ->
  linkInv doc offsets n m r k (rk, mk) -> linkInv doc offsets n m r (S k) (rk, mk).
Proof.
  intros Hd (I1 & I2 & I3 & I4 & I5 & I6). simpl in *.
  split; [done|]. split; [|split; [|split; [|split]]]; simpl.
  - intros i Hi. destruct (decide (i = k)) as [->|Hne]; [|apply I2; lia].
    unfold linkedAs. cbn zeta. rewrite Hd. split; [|apply I4; lia].
    apply I3. intros i Hi' Heq. apply cell_inj in Heq. lia.
  - intros q Hq. apply I3. intros i Hi. apply Hq. lia.
  - intros i Hi. apply I4. lia.
  - intros q p HP. destruct (I5 q p HP) as [?|(i & ? & ? & ?)]; [by left|].
    right. exists i. split; [lia|done].
  - intros i c Hi Hd' Hp Hc'. destruct (decide (i = k)) as [->|Hne]; [congruence|].
    destruct (I6 i c ltac:(lia) Hd' Hp Hc') as (j & ? & ? & ?).
    exists j. split; [lia|done].
Qed.

(** An instance: its resolved children are stashed. *)
Lemma linkInv_placeholder k rk mk :
  declaresChildren doc offsets k = true -> isPlaceholder doc r k = true ->
  linkInv doc offsets n m r k (rk, mk) -> linkInv doc offsets n m r (S k) (rk, <[k := resolved k]> mk).
Proof.
  intros Hd Hp (I1 & I2 & I3 & I4 & I5 & I6). simpl in *.
  split; [done|]. split; [|split; [|split; [|split]]]; simpl.
  - intros i Hi. destruct (decide (i = k)) as [->|Hne].
    + unfold linkedAs. cbn zeta. rewrite Hd, Hp, lookup_insert_eq. split; [done|].
      apply I3. intros i Hi' Heq. apply cell_inj in Heq. lia.
    + specialize (I2 i ltac:(lia)). unfold linkedAs in *. cbn zeta in *.
      by rewrite lookup_insert_ne.
  - intros q Hq. apply I3. intros i Hi. apply Hq. lia.
  - intros i Hi. rewrite lookup_insert_ne by lia. apply I4. lia.
  - intros q p HP. destruct (I5 q p HP) as [?|(i & ? & ? & ?)]; [by left|].
    right. exists i. split; [lia|done].
  - intros i c Hi Hd' Hp' Hc'. destruct (decide (i = k)) as [->|Hne]; [congruence|].
    destruct (I6 i c ltac:(lia) Hd' Hp' Hc') as (j & ? & ? & ?).
    exists j. split; [lia|done].
Qed.

(** An ordinary element: children list set, children reparented. *)
Lemma linkInv_link k rk mk :
  (k < n)%nat ->
  declaresChildren doc offsets k = true -> isPlaceholder doc r k = false ->
  linkInv doc offsets n m r k (rk, mk) ->
  linkInv doc offsets n m r (S k)
    (fold_left (fun r child => update child (set_Parent (Some (cell k))) r) (resolved k)
       (update (cell k) (set_Children (resolved k)) rk), mk).
Proof.
  intros Hk Hd Hp (I1 & I2 & I3 & I4 & I5 & I6). simpl in *.
  set (r2 := update (cell k) (set_Children (resolved k)) rk).
  set (r3 := fold_left _ (resolved k) r2).
  assert (Hshape : map length (heap rk) = map length (heap r)) by apply I1.
  assert (Hvk : forall i, (i < n)%nat -> valid (heap rk) (cell i)).
  { intros i Hi. eapply valid_shape; [exact Hshape|]. by apply Hv. }
  assert (H12 : related Rlink rk r2).
  { apply related_update; [intros; apply link_change_only_refl|].
    intros e. apply link_change_only_Children. }
  assert (H23 : related Rlink r2 r3).
  { apply related_fold_update.
    - intros; apply link_change_only_refl.
    - intros ?. apply link_change_only_trans.
    - intros q e. apply link_change_only_Parent. }
  assert (Hch3 : forall q, Children (get r3 q) = Children (get r2 q)).
  { intros q. subst r3. by apply get_fold_update_field. }
  assert (Hchk : Children (get r3 (cell k)) = resolved k).
  { rewrite Hch3. subst r2. rewrite get_update_eq by auto. done. }
  assert (Hchne : forall q, q <> cell k -> Children (get r3 q) = Children (get rk q)).
  { intros q Hq. rewrite Hch3. subst r2. by rewrite get_update_ne. }
  assert (Hpar2 : forall q, Parent (get r2 q) = Parent (get rk q)).
  { intros q. subst r2. by apply get_update_field. }
  destruct (set_Parent_fold (cell k) (resolved k) r2)
    as (HPin & HPout & _). cbn zeta in *. fold r3 in HPin, HPout.
  assert (HPin' : forall c, c ∈ resolved k -> Parent (get r3 c) = Some (cell k)).
  { intros c Hc. apply HPin; [done|].
    destruct (resolved_cells k c Hc) as (j & Hj & ->).
    eapply valid_shape; [|apply (Hvk j Hj)]. apply H12. }
  assert (HPout' : forall q, q ∉ resolved k -> Parent (get r3 q) = Parent (get rk q)).
  { intros q Hq. rewrite HPout by done. apply Hpar2. }
  split; [|split; [|split; [|split; [|split]]]]; simpl.
  - eapply related_trans; [intros ?; apply link_change_only_trans|exact I1|].
    eapply related_trans; [intros ?; apply link_change_only_trans|exact H12|exact H23].
  - intros i Hi. destruct (decide (i = k)) as [->|Hne].
    + unfold linkedAs. cbn zeta. rewrite Hd, Hp. split; [exact Hchk|apply I4; lia].
    + specialize (I2 i ltac:(lia)). unfold linkedAs in *. cbn zeta in *.
      rewrite Hchne; [done|].
      intros Heq. apply cell_inj in Heq. lia.
  - intros q Hq. rewrite Hchne by (apply Hq; lia). apply I3.
    intros i Hi. apply Hq. lia.
  - intros i Hi. apply I4. lia.
  - intros q p HP. destruct (decide (q ∈ resolved k)) as [Hin|Hnin].
    + rewrite HPin' in HP by done. injection HP as <-.
      right. exists k. split; [lia|]. split; [done|]. by rewrite Hchk.
    + rewrite HPout' in HP by done.
      destruct (I5 q p HP) as [?|(i & Hi & -> & Hc)]; [by left|].
      right. exists i. split; [lia|]. split; [done|].
      rewrite Hchne; [done|]. intros Heq. apply cell_inj in Heq. lia.
  - intros i c Hi Hd' Hp' Hc'. destruct (decide (c ∈ resolved k)) as [Hin|Hnin].
    + exists k. split; [lia|]. split; [by apply HPin'|]. by rewrite Hchk.
    + destruct (decide (i = k)) as [->|Hne]; [done|].
      destruct (I6 i c ltac:(lia) Hd' Hp' Hc') as (j & Hj & HPj & Hcj).
      exists j. split; [lia|]. rewrite HPout' by done. split; [done|].
      rewrite Hchne; [done|]. intros Heq. apply cell_inj in Heq. lia.
Qed.

End LinkProof.

Section LinkTheorem.
Context `{K : Krb}.

(** A loop panics when one of its rounds does and the rounds before it
    keep an invariant. *)
Lemma forRange_panics {S : Type} (I : S -> Prop) (n k : nat)
    (body : S -> nat -> outcome S) (s : S) :
  (k < n)%nat -> I s ->
  (forall j s, (j < k)%nat -> I s ->
     body s j = Panic \/ exists s', body s j = Done s' /\ I s') ->
  (forall s, I s -> body s k = Panic) ->
  forRange n body s = Panic.
Proof.
  intros Hk Hs Hbefore Hat. unfold forRange.
  assert (H : forall m a s, (a + m = n)%nat -> (a <= k)%nat -> I s ->
                forEach body (seq a m) s = Panic).
  { induction m as [|m IH]; intros a s0 Ha Hak Hs0; [lia|]. cbn [seq forEach].
    destruct (decide (a = k)) as [->|Hne].
    - by rewrite Hat.
    - destruct (Hbefore a s0 ltac:(lia) Hs0) as [->|(s' & -> & Hs')]; [done|].
      csimpl. apply IH; [lia|lia|done]. }
  apply (H n 0%nat); [lia|lia|done].
Qed.

Lemma elements_fold_update f xs :
  forall r, elements (fold_left (fun r x => update x f r) xs r) = elements r.
Proof. induction xs as [|x xs IH]; intros r; simpl; [done|]. by rewrite IH. Qed.

(** On a collection shorter than [n] the linker panics. *)
Lemma linkOriginalKrbChildren_short
    (doc : Document) (offsets : list Z) (n : nat)
    (m : gmap nat (list ptr)) (r : RaylibRenderer) :
  docRef r = Some doc ->
  ElementStartOffsets doc = Some offsets ->
  (s_len (elements r) < n)%nat ->
  linkOriginalKrbChildren n m r = Panic.
Proof.
  intros Hdoc Hoff Hlen.
  unfold linkOriginalKrbChildren. rewrite Hdoc, Hoff.
  match goal with
  | |- context [forRange n ?body ?s] => assert (Hloop : forRange n body s = Panic)
  end.
  { apply (forRange_panics (fun st => elements st.1 = elements r) n (s_len (elements r)));
      [done|done| |].
    - intros j [rj mj] Hj Hs. simpl in Hs. rewrite Hs.
      rewrite (proj2 (Nat.ltb_lt _ _) Hj). cbn [negb].
      destruct (Elements doc !! j) as [h|]; [|by left].
      cbn zeta. destruct (ChildCount h >? 0); [|right; by eexists].
      destruct (ChildRefs doc !! j) as [[refs|]|]; [|right; by eexists..].
      destruct (offsets !! j) as [off|]; [|right; by eexists].
      destruct (resolveChildRefs_elements j off (buildOffsetIndex n offsets) refs rj)
        as [->|([actual r1] & -> & He)]; [by left|]. csimpl. simpl in He.
      destruct (negb _); right; eexists; (split; [reflexivity|]); simpl.
      + congruence.
      + rewrite elements_fold_update. simpl. congruence.
    - intros [rs ms] Hs. simpl in Hs. rewrite Hs, Nat.ltb_irrefl. done. }
  by rewrite Hloop.
Qed.

(** The linker returns without error, its loop invariant holding for all
    [n] elements. *)
Lemma linkOriginalKrbChildren_inv
    (doc : Document) (offsets : list Z) (n : nat)
    (m : gmap nat (list ptr)) (r : RaylibRenderer) :
  docRef r = Some doc ->
  ElementStartOffsets doc = Some offsets ->
  (n <= s_len (elements r))%nat ->
  (n <= length (Elements doc))%nat ->
  (forall i, (i < n)%nat -> valid (heap r) (addr (elements r) i)) ->
  (forall e e', link_change_only e e' ->
     (GetCustomPropertyValue e' componentNameConventionKey doc).1
     = (GetCustomPropertyValue e componentNameConventionKey doc).1) ->
  exists r' m',
    linkOriginalKrbChildren n m r = Done (r', m', None)
    /\ linkInv doc offsets n m r n (r', m').
Proof.
  intros Hdoc Hoff Hlen Hn Hv Hcp.
  unfold linkOriginalKrbChildren. rewrite Hdoc, Hoff.
  match goal with
  | |- context [forRange n ?body ?s] =>
      assert (Hloop : returns_with true (linkInv doc offsets n m r n) (forRange n body s))
  end.
  { apply (forRange_ind true (linkInv doc offsets n m r)).
    - intros k [rk mk] Hk Hinv.
      assert (He : elements rk = elements r) by apply Hinv.
      rewrite He.
      rewrite (proj2 (Nat.ltb_lt k (s_len (elements r))) ltac:(lia)). cbn [negb].
      destruct (Elements doc !! k) as [h|] eqn:Hh;
        [|apply lookup_ge_None in Hh; lia].
      assert (Hpl : negb (String.eqb
                 (GetCustomPropertyValue (get rk (addr (elements r) k))
                    componentNameConventionKey doc).1 "") = isPlaceholder doc r k).
      { unfold isPlaceholder. rewrite (Hcp (get r (addr (elements r) k))); [done|].
        destruct Hinv as ((_ & _ & _ & _ & _ & _ & Hq) & _). apply Hq. }
      cbn zeta. rewrite Hpl.
      assert (Hdecl : declaresChildren doc offsets k =
                match ChildRefs doc !! k, offsets !! k with
                | Some (Some _), Some _ => ChildCount h >? 0
                | _, _ => false
                end).
      { unfold declaresChildren. rewrite Hh. done. }
      destruct (ChildCount h >? 0) eqn:Hcc.
      + destruct (ChildRefs doc !! k) as [[refs|]|] eqn:Hrefs.
        * destruct (offsets !! k) as [off|] eqn:Hoffk.
          -- destruct (resolveChildRefs_spec k off (buildOffsetIndex n offsets) refs rk)
               as ([actual r1] & Hrun & Hact & Hh1 & He1 & Hr1 & Hc1 & Hd1 & Hs1).
             { intros z j Hj. apply buildOffsetIndex_range in Hj as [Hj _].
               rewrite He. lia. }
             rewrite Hrun. csimpl. simpl in *.
             assert (Hactual : actual = resolvedChildren doc offsets n k (elements r)).
             { unfold resolvedChildren. rewrite Hrefs, Hoffk, Hact, He. done. }
             assert (Hinv1 : linkInv doc offsets n m r k (r1, mk))
               by (by apply (linkInv_same_store doc offsets n m r k rk mk)).
             destruct (isPlaceholder doc r k) eqn:Hp; simpl.
             ++ rewrite Hactual. by apply linkInv_placeholder.
             ++ rewrite Hactual. by apply linkInv_link.
          -- simpl.
             refine (linkInv_same_store doc offsets n m r (S k) rk mk _
                       eq_refl eq_refl eq_refl eq_refl eq_refl eq_refl _).
             apply linkInv_skip; [by rewrite Hdecl|done].
        * simpl.
          refine (linkInv_same_store doc offsets n m r (S k) rk mk _
                    eq_refl eq_refl eq_refl eq_refl eq_refl eq_refl _).
          apply linkInv_skip; [by rewrite Hdecl|done].
        * simpl.
          refine (linkInv_same_store doc offsets n m r (S k) rk mk _
                    eq_refl eq_refl eq_refl eq_refl eq_refl eq_refl _).
          apply linkInv_skip; [by rewrite Hdecl|done].
      + simpl. apply linkInv_skip; [|done].
        rewrite Hdecl. by destruct (ChildRefs doc !! k) as [[?|]|], (offsets !! k).
    - split; [apply related_refl; intros; apply link_change_only_refl|].
      split; [intros i Hi; lia|]. split; [done|]. split; [done|].
      split; [by left|]. intros i c Hi. lia. }
  destruct (returns_with_total _ _ Hloop) as ([r' m'] & Hrun & Hinv).
  rewrite Hrun. simpl. by exists r', m'.
Qed.

(** The linker, for a document with element offsets.  Over a collection of
    fewer than [n] elements it panics (index out of range).  Over one of at
    least [n] elements, for a document with at least [n] elements and [n]
    allocated cells (the component name looked up in the custom properties
    not depending on parent reference and children list): it returns
    without error; it changes parent references and children lists only, of
    cells below [n] only for the lists; an ordinary element that declares
    children (a count above 0 and a list of references that is not nil,
    possibly empty) gets as its children exactly the cells its child
    references resolve to, in order, a reference that meets no element being
    skipped; an instance keeps its children list, its resolved children
    being stashed under its index; a parent reference that the linker has
    set names a cell that lists the node; and every resolved child of an
    ordinary element ends with a parent that lists it. *)
Theorem linkOriginalKrbChildren_links_declared_children
    (doc : Document) (offsets : list Z) (n : nat)
    (m : gmap nat (list ptr)) (r : RaylibRenderer) :
  docRef r = Some doc ->
  ElementStartOffsets doc = Some offsets ->
  ((s_len (elements r) < n)%nat -> linkOriginalKrbChildren n m r = Panic)
  /\ ((n <= s_len (elements r))%nat ->
      (n <= length (Elements doc))%nat ->
      (forall i, (i < n)%nat -> valid (heap r) (addr (elements r) i)) ->
      (forall e e', link_change_only e e' ->
         (GetCustomPropertyValue e' componentNameConventionKey doc).1
         = (GetCustomPropertyValue e componentNameConventionKey doc).1) ->
      exists r' m',
        linkOriginalKrbChildren n m r = Done (r', m', None)
        /\ related Rlink r r'
        /\ (forall i, (i < n)%nat -> linkedAs doc offsets n r m r' m' i)
        /\ (forall q, (forall i, (i < n)%nat -> q <> addr (elements r) i) ->
              Children (get r' q) = Children (get r q))
        /\ (forall i, (n <= i)%nat -> m' !! i = m !! i)
        /\ (forall q p, Parent (get r' q) = Some p ->
              Parent (get r q) = Some p
              \/ exists i, (i < n)%nat /\ p = addr (elements r) i /\ q ∈ Children (get r' p))
        /\ (forall i c, (i < n)%nat -> declaresChildren doc offsets i = true ->
              isPlaceholder doc r i = false ->
              c ∈ resolvedChildren doc offsets n i (elements r) ->
              (exists j, (j < n)%nat /\ c = addr (elements r) j)
              /\ exists j, (j < n)%nat /\ Parent (get r' c) = Some (addr (elements r) j)
                           /\ c ∈ Children (get r' (addr (elements r) j)))).
Proof.
  intros Hdoc Hoff. split.
  { intros Hshort. by apply (linkOriginalKrbChildren_short doc offsets). }
  intros Hlen Hn Hv Hcp.
  destruct (linkOriginalKrbChildren_inv doc offsets n m r Hdoc Hoff Hlen Hn Hv Hcp)
    as (r' & m' & Hrun & I1 & I2 & I3 & I4 & I5 & I6).
  simpl in *. exists r', m'. split; [done|].
  split; [done|]. split; [done|]. split; [done|]. split; [done|]. split; [done|].
  intros i c Hi Hd Hp Hc. split; [by eapply resolved_cells|]. by eapply I6.
Qed.

End LinkTheorem.

(** The reference lookup of custom properties goes by the element's index. *)
Lemma Ref_custom_property_by_index (doc : Document) (e e' : RenderElement) :
  link_change_only e e' ->
  GetCustomPropertyValue (Krb := Ref.krb) e' componentNameConventionKey doc
  = GetCustomPropertyValue (Krb := Ref.krb) e componentNameConventionKey doc.
Proof.
  intros H. apply (f_equal OriginalIndex) in H.
  assert (Hi : OriginalIndex e' = OriginalIndex e) by (by destruct e').
  simpl. unfold Ref.GetCustomPropertyValue. by rewrite Hi.
Qed.

Lemma linkOriginalKrbChildren_links_declared_children_witness :
  exists r' m',
    linkOriginalKrbChildren (K := Ref.krb) 2 ∅ Examples.rAlign = Done (r', m', None)
    /\ related Rlink Examples.rAlign r'
    /\ (forall i, (i < 2)%nat ->
          linkedAs (K := Ref.krb) Examples.docAlign [0; 19] 2 Examples.rAlign ∅ r' m' i)
    /\ (forall q, (forall i, (i < 2)%nat -> q <> addr (elements Examples.rAlign) i) ->
          Children (get r' q) = Children (get Examples.rAlign q))
    /\ (forall i, (2 <= i)%nat -> m' !! i = (∅ : gmap nat (list ptr)) !! i)
    /\ (forall q p, Parent (get r' q) = Some p ->
          Parent (get Examples.rAlign q) = Some p
          \/ exists i, (i < 2)%nat /\ p = addr (elements Examples.rAlign) i
                       /\ q ∈ Children (get r' p))
    /\ (forall i c, (i < 2)%nat ->
          declaresChildren Examples.docAlign [0; 19] i = true ->
          isPlaceholder (K := Ref.krb) Examples.docAlign Examples.rAlign i = false ->
          c ∈ resolvedChildren Examples.docAlign [0; 19] 2 i (elements Examples.rAlign) ->
          (exists j, (j < 2)%nat /\ c = addr (elements Examples.rAlign) j)
          /\ exists j, (j < 2)%nat
                       /\ Parent (get r' c) = Some (addr (elements Examples.rAlign) j)
                       /\ c ∈ Children (get r' (addr (elements Examples.rAlign) j))).
Proof.
  apply (proj2 (linkOriginalKrbChildren_links_declared_children (K := Ref.krb)
                  Examples.docAlign [0; 19] 2 ∅ Examples.rAlign eq_refl eq_refl)).
  - simpl. lia.
  - simpl. lia.
  - intros i Hi. destruct i as [|[|i]]; [vm_compute; eauto|vm_compute; eauto|lia].
  - intros e e' He. by rewrite (Ref_custom_property_by_index _ e e' He).
Defined.

(** * Drawing borders; the tab-bar application *)

Lemma int32_small n : in_int32 n -> int32 n = n.
Proof. unfold in_int32, int32. intros H. rewrite Z.mod_small; lia. Qed.

Lemma wrap_int_small n : - 2 ^ 63 <= n < 2 ^ 63 -> wrap_int n = n.
Proof. unfold wrap_int. intros H. rewrite Z.mod_small; lia. Qed.

(** The border strips stay inside the element and never overlap.  For a
    non-empty box within the range of [int32], with border widths that are
    not negative and fit (top and bottom within the height, left and right
    within the width), [drawBorders] draws at most four rectangles, none
    when the colour is transparent; each has a positive width and height,
    lies within the box and has the border colour; and no two of them share
    a pixel. *)
Theorem drawBorders_strips_inside_and_disjoint
    (x y w h top right bottom left : Z) (color : Color) :
  in_int32 x -> in_int32 y -> in_int32 w -> in_int32 h -> 0 < w -> 0 < h ->
  in_int32 (x + w) -> in_int32 (y + h) ->
  0 <= top -> 0 <= bottom -> 0 <= left -> 0 <= right ->
  top + bottom <= h -> left + right <= w ->
  let drawn := drawBorders x y w h top right bottom left color in
  (length drawn <= 4)%nat
  /\ (cA color = 0%N -> drawn = [])
  /\ Forall (fun a => rectWithin x y w h a /\ rcolor a = color) drawn
  /\ (forall i j a b, (i < j)%nat -> drawn !! i = Some a -> drawn !! j = Some b ->
        rectDisjoint a b).
Proof.
  intros Hx Hy Hw Hh' Hw0 Hh0 Hxw Hyh Ht Hb Hl Hr Hv Hh. unfold in_int32 in *.
  unfold drawBorders. cbv zeta.
  destruct (cA color =? 0)%N eqn:Hc.
  { simpl. split; [lia|]. split; [done|]. split; [constructor|].
    intros i j a b _ Hi. by rewrite lookup_nil in Hi. }
  rewrite !(wrap_int_small (y + h)), !(wrap_int_small (x + w)),
    !(wrap_int_small (h - top)), !(wrap_int_small (y + top)) by lia.
  rewrite !(wrap_int_small (y + h - bottom)), !(wrap_int_small (x + w - right)),
    !(wrap_int_small (h - top - bottom)) by lia.
  rewrite !int32_small by (unfold in_int32; lia).
  split; [|split; [intros H0; apply N.eqb_neq in Hc; done|]].
  { destruct (top >? 0), (bottom >? 0), (h - top - bottom >? 0), (left >? 0), (right >? 0);
      simpl; lia. }
  destruct (Z.gtb_spec top 0), (Z.gtb_spec bottom 0), (Z.gtb_spec (h - top - bottom) 0),
    (Z.gtb_spec left 0), (Z.gtb_spec right 0); simpl;
    (split;
     [repeat first
        [ apply List.Forall_nil
        | apply List.Forall_cons; [split; [unfold rectWithin; simpl; lia|reflexivity]|] ]
     |intros i j a b Hij Hi Hj;
      repeat (destruct i as [|i]; simpl in Hi; try discriminate);
      repeat (destruct j as [|j]; simpl in Hj; try discriminate; try lia);
      try (by rewrite ?lookup_nil in Hi); try (by rewrite ?lookup_nil in Hj);
      simplify_eq; unfold rectDisjoint; simpl; lia]).
Qed.

Lemma firstIndexOf_fun strs s i j : firstIndexOf strs s i -> firstIndexOf strs s j -> i = j.
Proof.
  intros [Hi Hi'] [Hj Hj'].
  destruct (Nat.lt_trichotomy i j) as [H|[H|H]]; [|done|].
  - by destruct (Hj' i H).
  - by destruct (Hi' j H).
Qed.

Lemma targetStringIndexFrom_spec idName : forall strs k,
  (k + length strs <= 255)%nat ->
  (exists i, firstIndexOf strs idName i
             /\ targetStringIndexFrom k strs idName = Z.of_nat (k + i))
  \/ ((forall i, strs !! i <> Some idName)
      /\ targetStringIndexFrom k strs idName = 255).
Proof.
  induction strs as [|s strs IH]; intros k Hk; simpl.
  - right. split; [|done]. intros i. by rewrite lookup_nil.
  - destruct (String.eqb_spec s idName) as [->|Hne].
    + left. exists 0%nat. split.
      * split; [done|]. intros j Hj. lia.
      * unfold uint8. rewrite Nat.add_0_r, Z.mod_small; simpl in *; lia.
    + destruct (IH (S k)) as [(i & [Hi Hfirst] & Ht)|[Hnone Ht]]; [simpl in *; lia| |].
      * left. exists (S i). split.
        -- split; [done|]. intros [|j] Hj; simpl; [congruence|]. apply Hfirst. lia.
        -- rewrite Ht. lia.
      * right. split; [|done]. intros [|i]; simpl; [congruence|apply Hnone].
Qed.

Lemma findElementByID_first
    (a : App) (doc : Document) (els : list ptr) (idName : string) :
  krbDocument a = Some doc -> allElements a = Some els ->
  (length (Strings doc) <= 255)%nat ->
  match findElementByID a idName with
  | Some el =>
      exists i k,
        firstIndexOf (Strings doc) idName i
        /\ ID (Header (get (appRenderer a) el)) = Z.of_nat i
        /\ els !! k = Some el
        /\ forall k' el', (k' < k)%nat -> els !! k' = Some el' ->
             ID (Header (get (appRenderer a) el')) <> Z.of_nat i
  | None =>
      forall i, firstIndexOf (Strings doc) idName i ->
        forall el, el ∈ els -> ID (Header (get (appRenderer a) el)) <> Z.of_nat i
  end.
Proof.
  intros Hdoc Hels Hlen. unfold findElementByID. rewrite Hdoc, Hels. cbv zeta.
  destruct (targetStringIndexFrom_spec idName (Strings doc) 0 ltac:(lia))
    as [(i & Hfirst & Ht)|[Hnone Ht]]; rewrite Ht.
  - assert (Hi : (i < 255)%nat).
    { destruct Hfirst as [Hi _]. apply lookup_lt_Some in Hi. lia. }
    destruct (Z.eqb_spec (Z.of_nat (0 + i)) 255) as [?|_]; [lia|].
    simpl (0 + i)%nat.
    assert (Hfind : forall l : list ptr,
      match List.find (fun el => ID (Header (get (appRenderer a) el)) =? Z.of_nat i) l with
      | Some el => exists k, ID (Header (get (appRenderer a) el)) = Z.of_nat i
                     /\ l !! k = Some el
                     /\ forall k' el', (k' < k)%nat -> l !! k' = Some el' ->
                          ID (Header (get (appRenderer a) el')) <> Z.of_nat i
      | None => forall el, el ∈ l -> ID (Header (get (appRenderer a) el)) <> Z.of_nat i
      end).
    { induction l as [|e l IH]; simpl.
      - intros el Hel. inversion Hel.
      - destruct (Z.eqb_spec (ID (Header (get (appRenderer a) e))) (Z.of_nat i)) as [He|He].
        + exists 0%nat. split; [done|]. split; [done|]. intros k' el' Hk'. lia.
        + destruct (List.find _ l) as [el|].
          * destruct IH as (k & H1 & H2 & H3). exists (S k). split; [done|].
            split; [done|]. intros [|k'] el' Hk' Hl'; simpl in Hl'.
            -- by injection Hl' as <-.
            -- apply (H3 k'); [lia|done].
          * intros el Hel. apply elem_of_cons in Hel as [->|Hel]; auto. }
    specialize (Hfind els).
    destruct (List.find _ els) as [el|].
    + destruct Hfind as (k & H1 & H2 & H3). exists i, k. done.
    + intros i' Hi' el Hel. rewrite (firstIndexOf_fun _ _ _ _ Hi' Hfirst). by apply Hfind.
  - simpl. intros i [Hi _]. by destruct (Hnone i).
Qed.

(** [findElementByID], for a string table of at most 255 entries: an
    element it returns is the first of [allElements] whose header id is the
    first index of the name in the string table; when it returns none, no
    element of [allElements] has that index as its id.  (An element whose id
    is the index of a later copy of the same string is not found.) *)
Theorem findElementByID_finds_first_index
    (a : App) (doc : Document) (els : list ptr) (idName : string) :
  krbDocument a = Some doc -> allElements a = Some els ->
  (length (Strings doc) <= 255)%nat ->
  match findElementByID a idName with
  | Some el =>
      exists i k,
        firstIndexOf (Strings doc) idName i
        /\ ID (Header (get (appRenderer a) el)) = Z.of_nat i
        /\ els !! k = Some el
        /\ forall k' el', (k' < k)%nat -> els !! k' = Some el' ->
             ID (Header (get (appRenderer a) el')) <> Z.of_nat i
  | None =>
      forall i, firstIndexOf (Strings doc) idName i ->
        forall el, el ∈ els -> ID (Header (get (appRenderer a) el)) <> Z.of_nat i
  end.
Proof. apply findElementByID_first. Qed.

Lemma visibility_change_only_refl e : visibility_change_only e e.
Proof. unfold visibility_change_only. by destruct e. Qed.

Lemma visibility_change_only_trans e1 e2 e3 :
  visibility_change_only e1 e2 -> visibility_change_only e2 e3 ->
  visibility_change_only e1 e3.
Proof.
  unfold visibility_change_only. destruct e1, e2, e3. unfold set_IsVisible. simpl.
  intros H1 H2. injection H1. injection H2. intros. subst. reflexivity.
Qed.

Lemma visibility_change_only_set e v : visibility_change_only e (set_IsVisible v e).
Proof. unfold visibility_change_only. by destruct e. Qed.

Lemma visibility_change_only_Header e e' :
  visibility_change_only e e' -> Header e' = Header e.
Proof. intros H. apply (f_equal Header) in H. by destruct e'. Qed.

Lemma findElementByID_stable (a a' : App) idName :
  krbDocument a' = krbDocument a -> allElements a' = allElements a ->
  (forall q, Header (get (appRenderer a') q) = Header (get (appRenderer a) q)) ->
  findElementByID a' idName = findElementByID a idName.
Proof.
  intros Hd He Hh. unfold findElementByID. rewrite Hd, He.
  destruct (krbDocument a); [|done]. destruct (allElements a) as [els|]; [|done].
  cbv zeta. destruct (_ =? 255); [done|].
  clear He. induction els as [|e els IH]; simpl; [done|]. by rewrite Hh, IH.
Qed.

Lemma findElementByID_elem (a : App) doc els idName el :
  krbDocument a = Some doc -> allElements a = Some els ->
  findElementByID a idName = Some el -> el ∈ els.
Proof.
  intros Hd He. unfold findElementByID. rewrite Hd, He. cbv zeta.
  destruct (_ =? 255); [done|]. intros H. apply find_some in H as [H _].
  by apply list_elem_of_In.
Qed.

Lemma findElementByID_distinct (a : App) doc els id1 id2 el :
  krbDocument a = Some doc -> allElements a = Some els ->
  (length (Strings doc) <= 255)%nat ->
  findElementByID a id1 = Some el -> findElementByID a id2 = Some el -> id1 = id2.
Proof.
  intros Hd He Hl H1 H2.
  pose proof (findElementByID_first a doc els id1 Hd He Hl) as F1.
  pose proof (findElementByID_first a doc els id2 Hd He Hl) as F2.
  rewrite H1 in F1. rewrite H2 in F2.
  destruct F1 as (i1 & _ & [Hs1 _] & Hi1 & _). destruct F2 as (i2 & _ & [Hs2 _] & Hi2 & _).
  assert (i1 = i2) by lia. subst. congruence.
Qed.

Section Pages.

Variables (doc : Document) (els : list ptr) (activePageID : string).

Lemma pageStep_facts a pageID :
  krbDocument a = Some doc -> allElements a = Some els ->
  (forall el, el ∈ els -> valid (heap (appRenderer a)) el) ->
  let a' := pageStep activePageID a pageID in
  krbDocument a' = Some doc /\ allElements a' = Some els
  /\ tabItemStyleBaseID a' = tabItemStyleBaseID a
  /\ tabItemStyleActiveID a' = tabItemStyleActiveID a
  /\ related (fun _ => visibility_change_only) (appRenderer a) (appRenderer a')
  /\ (forall el, el ∈ els -> valid (heap (appRenderer a')) el)
  /\ (forall el, findElementByID a pageID = Some el ->
        IsVisible (get (appRenderer a') el) = String.eqb pageID activePageID)
  /\ (forall q, findElementByID a pageID <> Some q ->
        get (appRenderer a') q = get (appRenderer a) q).
Proof.
  intros Hd He Hv. unfold pageStep. cbv zeta.
  destruct (findElementByID a pageID) as [el|] eqn:Hf; simpl.
  - assert (Hin : el ∈ els) by (by eapply findElementByID_elem).
    repeat split; try done.
    + apply modify_shape.
    + intros q. destruct (get_update_cases (set_IsVisible (String.eqb pageID activePageID))
                            el q (appRenderer a)) as [->|(-> & _ & ->)].
      * apply visibility_change_only_refl.
      * apply visibility_change_only_set.
    + intros el' Hel'. apply valid_modify. auto.
    + intros el' [= <-]. rewrite get_update_eq by auto. done.
    + intros q Hq. apply get_update_ne. congruence.
  - repeat split; try done. intros q. apply visibility_change_only_refl.
Qed.

Lemma updatePages_facts (Hlen : (length (Strings doc) <= 255)%nat) :
  forall ids a,
    krbDocument a = Some doc -> allElements a = Some els ->
    (forall el, el ∈ els -> valid (heap (appRenderer a)) el) ->
    let a' := fold_left (pageStep activePageID) ids a in
    krbDocument a' = Some doc /\ allElements a' = Some els
    /\ tabItemStyleBaseID a' = tabItemStyleBaseID a
    /\ tabItemStyleActiveID a' = tabItemStyleActiveID a
    /\ related (fun _ => visibility_change_only) (appRenderer a) (appRenderer a')
    /\ (forall pageID el, pageID ∈ ids -> findElementByID a pageID = Some el ->
          IsVisible (get (appRenderer a') el) = String.eqb pageID activePageID)
    /\ (forall q, (forall pageID, pageID ∈ ids -> findElementByID a pageID <> Some q) ->
          get (appRenderer a') q = get (appRenderer a) q).
Proof.
  induction ids as [|id0 ids IH]; intros a Hd He Hv; cbv zeta; simpl.
  - repeat split; try done.
    + intros q. apply visibility_change_only_refl.
    + intros pageID el Hin. inversion Hin.
  - destruct (pageStep_facts a id0 Hd He Hv) as (Hd1 & He1 & Hb1 & Ha1 & Hrel1 & Hv1 & Hvis1 & Hout1).
    cbv zeta in *. set (a1 := pageStep activePageID a id0) in *.
    destruct (IH a1 Hd1 He1 Hv1) as (Hd2 & He2 & Hb2 & Ha2 & Hrel2 & Hvis2 & Hout2).
    cbv zeta in *. set (a2 := fold_left (pageStep activePageID) ids a1) in *.
    assert (Hstable : forall idName, findElementByID a1 idName = findElementByID a idName).
    { intros idName. apply findElementByID_stable; [congruence|congruence|].
      intros q. apply visibility_change_only_Header.
      destruct Hrel1 as (_ & _ & _ & _ & _ & _ & Hq). apply Hq. }
    split; [done|]. split; [done|]. split; [congruence|]. split; [congruence|].
    split; [|split].
    + eapply related_trans; [|exact Hrel1|exact Hrel2].
      intros ?. apply visibility_change_only_trans.
    + intros pageID el Hin Hf.
      destruct (decide (pageID ∈ ids)) as [Hids|Hids].
      * apply (Hvis2 pageID el Hids). by rewrite Hstable.
      * apply elem_of_cons in Hin as [->|?]; [|done].
        rewrite Hout2; [by apply Hvis1|].
        intros pageID Hp. rewrite Hstable. intros Hf'.
        apply Hids. rewrite (findElementByID_distinct a doc els id0 pageID el); done.
    + intros q Hq. rewrite Hout2, Hout1; [done| |].
      * apply Hq. by left.
      * intros pageID Hp. rewrite Hstable. apply Hq. by right.
Qed.

End Pages.

(** [updatePageVisibility], for a string table of at most 255 entries and
    allocated elements: afterwards each of the three pages that
    [findElementByID] finds is visible exactly when its name is the active
    page's; of any element only the visibility may have changed; an element
    that is none of the pages found is left as it was; and the package
    variables are unchanged. *)
Theorem updatePageVisibility_shows_the_active_page
    (a : App) (doc : Document) (els : list ptr) (activePageID : string) :
  krbDocument a = Some doc -> allElements a = Some els ->
  (length (Strings doc) <= 255)%nat ->
  (forall el, el ∈ els -> valid (heap (appRenderer a)) el) ->
  let a' := updatePageVisibility a activePageID in
  krbDocument a' = Some doc /\ allElements a' = Some els
  /\ tabItemStyleBaseID a' = tabItemStyleBaseID a
  /\ tabItemStyleActiveID a' = tabItemStyleActiveID a
  /\ related (fun _ => visibility_change_only) (appRenderer a) (appRenderer a')
  /\ (forall pageID el, pageID ∈ pageIDs -> findElementByID a pageID = Some el ->
        IsVisible (get (appRenderer a') el) = String.eqb pageID activePageID)
  /\ (forall q, (forall pageID, pageID ∈ pageIDs -> findElementByID a pageID <> Some q) ->
        get (appRenderer a') q = get (appRenderer a) q).
Proof.
  intros Hd He Hl Hv. apply (updatePages_facts doc els activePageID Hl pageIDs a Hd He Hv).
Qed.

Lemma drawBorders_strips_inside_and_disjoint_witness :
  let drawn := drawBorders 10 20 100 50 2 3 4 5 Gray in
  (length drawn <= 4)%nat
  /\ (cA Gray = 0%N -> drawn = [])
  /\ Forall (fun a => rectWithin 10 20 100 50 a /\ rcolor a = Gray) drawn
  /\ (forall i j a b, (i < j)%nat -> drawn !! i = Some a -> drawn !! j = Some b ->
        rectDisjoint a b).
Proof.
  apply (drawBorders_strips_inside_and_disjoint 10 20 100 50 2 3 4 5 Gray);
    unfold in_int32; lia.
Defined.

Lemma pages_example_valid :
  forall el : ptr, el ∈ [(0, 0)%nat; (0, 1)%nat; (0, 2)%nat] ->
    valid (heap (appRenderer PagesExample.appPages)) el.
Proof.
  intros el Hel.
  repeat (apply elem_of_cons in Hel as [->|Hel]; [vm_compute; eauto|]).
  inversion Hel.
Qed.

Lemma findElementByID_finds_first_index_witness :
  match findElementByID PagesExample.appPages "page_search" with
  | Some el =>
      exists i k,
        firstIndexOf (Strings PagesExample.docPages) "page_search" i
        /\ ID (Header (get (appRenderer PagesExample.appPages) el)) = Z.of_nat i
        /\ [(0, 0)%nat; (0, 1)%nat; (0, 2)%nat] !! k = Some el
        /\ forall k' el', (k' < k)%nat ->
             [(0, 0)%nat; (0, 1)%nat; (0, 2)%nat] !! k' = Some el' ->
             ID (Header (get (appRenderer PagesExample.appPages) el')) <> Z.of_nat i
  | None =>
      forall i, firstIndexOf (Strings PagesExample.docPages) "page_search" i ->
        forall el, el ∈ [(0, 0)%nat; (0, 1)%nat; (0, 2)%nat] ->
          ID (Header (get (appRenderer PagesExample.appPages) el)) <> Z.of_nat i
  end.
Proof.
  apply (findElementByID_finds_first_index PagesExample.appPages PagesExample.docPages
           [(0, 0)%nat; (0, 1)%nat; (0, 2)%nat] "page_search").
  - reflexivity.
  - reflexivity.
  - simpl. lia.
Defined.

Lemma updatePageVisibility_shows_the_active_page_witness :
  let a := PagesExample.appPages in
  let a' := updatePageVisibility a "page_search" in
  krbDocument a' = Some PagesExample.docPages
  /\ allElements a' = Some [(0, 0)%nat; (0, 1)%nat; (0, 2)%nat]
  /\ tabItemStyleBaseID a' = tabItemStyleBaseID a
  /\ tabItemStyleActiveID a' = tabItemStyleActiveID a
  /\ related (fun _ => visibility_change_only) (appRenderer a) (appRenderer a')
  /\ (forall pageID el, pageID ∈ pageIDs -> findElementByID a pageID = Some el ->
        IsVisible (get (appRenderer a') el) = String.eqb pageID "page_search")
  /\ (forall q, (forall pageID, pageID ∈ pageIDs -> findElementByID a pageID <> Some q) ->
        get (appRenderer a') q = get (appRenderer a) q).
Proof.
  apply (updatePageVisibility_shows_the_active_page PagesExample.appPages
           PagesExample.docPages [(0, 0)%nat; (0, 1)%nat; (0, 2)%nat] "page_search").
  - reflexivity.
  - reflexivity.
  - simpl. lia.
  - exact pages_example_valid.
Defined.

(** * Inheritance fills what is unset and keeps what is set *)

Lemma related_update_at (R : ptr -> RenderElement -> RenderElement -> Prop) f p r :
  (forall q e, R q e e) -> R p (get r p) (f (get r p)) -> related R r (update p f r).
Proof.
  intros Hrefl Hf. repeat split; try reflexivity.
  - simpl. apply modify_shape.
  - intros q. destruct (get_update_cases f p q r) as [->|(-> & _ & ->)]; auto.
Qed.

Lemma returns_with_forEach_prefix {A S : Type} total (I : list A -> S -> Prop)
    (body : S -> A -> outcome S) (xs : list A) :
  (forall pre x post s, xs = pre ++ x :: post -> I pre s ->
     returns_with total (I (pre ++ [x])) (body s x)) ->
  forall s, I [] s -> returns_with total (I xs) (forEach body xs s).
Proof.
  intros Hbody.
  assert (H : forall post pre s, xs = pre ++ post -> I pre s ->
                returns_with total (I xs) (forEach body post s)).
  { induction post as [|x post IH]; intros pre s Hxs Hs; simpl.
    - rewrite Hxs, app_nil_r. done.
    - apply returns_with_bind.
      eapply returns_with_mono; [|apply (Hbody pre x post); done].
      intros s1 Hs1. apply (IH (pre ++ [x])); [|done].
      by rewrite <- app_assoc. }
  intros s Hs. by apply (H xs []).
Qed.

Section Keep.
Context `{K : Krb}.
Implicit Types (r s : RaylibRenderer) (p q c : ptr) (e : RenderElement).

Lemma isTextBearing_Header e e' : Header e' = Header e -> isTextBearing e' = isTextBearing e.
Proof. unfold isTextBearing. by intros ->. Qed.

Lemma keeps_set_refl e : keeps_set e e.
Proof. split; [apply inherited_change_only_refl|done]. Qed.

Lemma keeps_set_trans e1 e2 e3 : keeps_set e1 e2 -> keeps_set e2 e3 -> keeps_set e1 e3.
Proof.
  intros (Hi1 & Hf1 & Ha1 & Hc1) (Hi2 & Hf2 & Ha2 & Hc2).
  split; [by eapply inherited_change_only_trans|]. split; [|split].
  - intros H. rewrite Hf2, Hf1; [done|done|]. by rewrite Hf1.
  - intros H. rewrite Ha2, Ha1; [done|done|]. by rewrite Ha1.
  - intros H. rewrite Hc2, Hc1; [done|done|]. rewrite Hc1 by done.
    rewrite (isTextBearing_Header e1 e2); [done|].
    destruct Hi1 as [Hv _]. unfold visual_change_only in Hv. tauto.
Qed.

#[global] Instance Rkeep_struct : StructRel Rkeep.
Proof.
  split; unfold Rkeep.
  - intros. apply keeps_set_refl.
  - intros ?. apply keeps_set_trans.
  - intros q e e' [[Hv _] _]. unfold visual_change_only in Hv. tauto.
Qed.

Lemma Rkeep_Rinh q e e' : Rkeep q e e' -> Rinh q e e'.
Proof. by intros [H _]. Qed.

Lemma resolvedNode_keeps e e' : keeps_set e e' -> resolvedNode e -> resolvedNode e'.
Proof.
  intros (Hi & Hf & Ha & Hc) (Rf & Ra & Rc).
  assert (HH : Header e' = Header e).
  { destruct Hi as [Hv _]. unfold visual_change_only in Hv. tauto. }
  split; [by rewrite Hf|]. split; [by rewrite Ha|].
  rewrite (isTextBearing_Header e e' HH). intros Htb. specialize (Rc Htb).
  rewrite Hc; [done|].
  rewrite Htb. simpl. unfold fgUnset, hasAlpha in *.
  apply N.ltb_lt in Rc. apply orb_false_iff. split.
  - unfold Color_eqb, Blank. destruct (FgColor e) as [a b c d]. simpl in *.
    rewrite !andb_false_iff. right. apply N.eqb_neq. lia.
  - apply N.eqb_neq. lia.
Qed.

Lemma Frame_update_at (R : ptr -> RenderElement -> RenderElement -> Prop)
    `{!StructRel R} p f r :
  R p (get r p) (f (get r p)) -> Frame R p r (update p f r).
Proof.
  intros Hf. split; [apply related_update_at; [apply sr_refl|done]|].
  intros q Hq. apply get_update_ne. intros ->. apply Hq, rtc_refl.
Qed.

End Keep.

Section Fill.
Context `{K : Krb}.
Implicit Types (r s : RaylibRenderer) (p q c : ptr) (e : RenderElement).

Lemma fgUnset_false_hasAlpha (col : Color) : fgUnset col = false -> hasAlpha col = true.
Proof.
  unfold fgUnset, hasAlpha. intros H. apply orb_false_iff in H as [_ H].
  apply N.eqb_neq in H. apply N.ltb_lt. lia.
Qed.

Lemma inherited_change_only_setters e :
  (forall x, inherited_change_only e (set_FgColor x e))
  /\ (forall x, inherited_change_only e (set_ResolvedFontSize x e))
  /\ (forall x, inherited_change_only e (set_TextAlignment x e)).
Proof.
  unfold inherited_change_only, visual_change_only. simpl. repeat split; reflexivity.
Qed.

Lemma keeps_set_FgColor e (col : Color) :
  isTextBearing e && fgUnset (FgColor e) = true -> keeps_set e (set_FgColor col e).
Proof.
  intros H. split; [apply inherited_change_only_setters|].
  split; [done|]. split; [done|]. intros H'. by rewrite H in H'.
Qed.

Lemma keeps_set_FontSize e x :
  F32.eqb (ResolvedFontSize e) F32.zero = true -> keeps_set e (set_ResolvedFontSize x e).
Proof.
  intros H. split; [apply inherited_change_only_setters|].
  split; [|done]. intros H'. by rewrite H in H'.
Qed.

Lemma keeps_set_TextAlignment e x :
  TextAlignment e = UnsetTextAlignmentSentinel -> keeps_set e (set_TextAlignment x e).
Proof.
  intros H. split; [apply inherited_change_only_setters|].
  split; [done|]. split; [done|done].
Qed.

(** The three writes to the node itself. *)
Lemma inherit_own_fields r0 r p (fgc dflt : Color) (fs : float32) (ta : Z) :
  valid (heap r) p ->
  Frame Rkeep p r0 r ->
  hasAlpha dflt = true ->
  F32.eqb fs F32.zero = false -> ta <> UnsetTextAlignmentSentinel ->
  let r1 :=
    if isTextBearing (get r p) && fgUnset (FgColor (get r p)) then
      if hasAlpha fgc then update p (set_FgColor fgc) r
      else update p (set_FgColor dflt) r
    else r in
  let r2 :=
    if F32.eqb (ResolvedFontSize (get r1 p)) F32.zero
    then update p (set_ResolvedFontSize fs) r1 else r1 in
  let r3 :=
    if TextAlignment (get r2 p) =? UnsetTextAlignmentSentinel
    then update p (set_TextAlignment ta) r2 else r2 in
  Frame Rkeep p r0 r1 /\ Frame Rkeep p r0 r2 /\ Frame Rkeep p r0 r3
  /\ F32.eqb (ResolvedFontSize (get r2 p)) F32.zero = false
  /\ resolvedNode (get r3 p).
Proof.
  intros Hv H0 Hd Hfs Hta r1 r2 r3.
  assert (H1 : Frame Rkeep p r0 r1 /\ valid (heap r1) p
               /\ (isTextBearing (get r1 p) = true -> hasAlpha (FgColor (get r1 p)) = true)).
  { subst r1. destruct (isTextBearing (get r p) && fgUnset (FgColor (get r p))) eqn:Hc.
    - destruct (hasAlpha fgc) eqn:Hfg.
      + split; [|split].
        * eapply Frame_trans; [tc_solve|exact H0|].
          apply Frame_update_at; [tc_solve|]. by apply keeps_set_FgColor.
        * by apply valid_modify.
        * intros _. by rewrite get_update_eq.
      + split; [|split].
        * eapply Frame_trans; [tc_solve|exact H0|].
          apply Frame_update_at; [tc_solve|]. by apply keeps_set_FgColor.
        * by apply valid_modify.
        * intros _. by rewrite get_update_eq.
    - split; [done|]. split; [done|]. intros Htb. rewrite Htb in Hc. simpl in Hc.
      by apply fgUnset_false_hasAlpha. }
  destruct H1 as (H1 & Hv1 & Hfg1). clearbody r1.
  assert (H2 : Frame Rkeep p r0 r2 /\ valid (heap r2) p
               /\ F32.eqb (ResolvedFontSize (get r2 p)) F32.zero = false
               /\ (isTextBearing (get r2 p) = true -> hasAlpha (FgColor (get r2 p)) = true)).
  { subst r2. destruct (F32.eqb (ResolvedFontSize (get r1 p)) F32.zero) eqn:Hc.
    - split; [|split; [|split]].
      + eapply Frame_trans; [tc_solve|exact H1|].
        apply Frame_update_at; [tc_solve|]. by apply keeps_set_FontSize.
      + by apply valid_modify.
      + by rewrite get_update_eq.
      + rewrite get_update_eq by done. exact Hfg1.
    - done. }
  destruct H2 as (H2 & Hv2 & Hfs2 & Hfg2). clearbody r2.
  assert (H3 : Frame Rkeep p r0 r3 /\ resolvedNode (get r3 p)).
  { subst r3. destruct (Z.eqb_spec (TextAlignment (get r2 p)) UnsetTextAlignmentSentinel)
      as [Hc|Hc].
    - split.
      + eapply Frame_trans; [tc_solve|exact H2|].
        apply Frame_update_at; [tc_solve|]. by apply keeps_set_TextAlignment.
      + rewrite get_update_eq by done. split; [done|]. split; [done|]. exact Hfg2.
    - done. }
  tauto.
Qed.

Lemma applyInheritanceRecursive_fills :
  forall fuel d r p (fg : Color) (fs : float32) (ta : Z),
    (d <= fuel)%nat -> height_le r d p ->
    (forall q, desc r p q -> valid (heap r) q) ->
    hasAlpha (DefaultFgColor (config r)) = true ->
    F32.eqb fs F32.zero = false -> ta <> UnsetTextAlignmentSentinel ->
    returns_with true
      (fun r' => Frame Rkeep p r r' /\ forall q, desc r p q -> resolvedNode (get r' q))
      (applyInheritanceRecursive fuel r p fg fs ta).
Proof.
  induction fuel as [|fuel IH]; intros d r p fg fs ta Hle Hh Hv Hd Hfs Hta.
  - inversion Hh; subst. lia.
  - cbn beta iota delta [applyInheritanceRecursive].
    pose proof (inherit_own_fields r r p fg (DefaultFgColor (config r)) fs ta
                  (Hv p (rtc_refl _ _)) (Frame_refl Rkeep p r) Hd Hfs Hta) as Hown.
    cbv zeta in Hown.
    intro_let. fold r0 in Hown. destruct Hown as (H1 & Hown). clearbody r0.
    intro_let. clearbody fgColorForChildren.
    intro_let. fold r1 in Hown. destruct Hown as (H2 & Hown). clearbody r1.
    intro_let.
    intro_let. fold r2 in Hown. destruct Hown as (H3 & Hfs2 & Hres). clearbody r2.
    intro_let.
    assert (Htac : textAlignmentForChildren <> UnsetTextAlignmentSentinel)
      by (subst textAlignmentForChildren; apply Hres).
    assert (Hfsc : F32.eqb fontSizeForChildren F32.zero = false)
      by (by subst fontSizeForChildren).
    clearbody textAlignmentForChildren fontSizeForChildren.
    assert (Hcs : Children (get r2 p) = Children (get r p))
      by (apply (related_children_eq Rkeep), H3).
    rewrite Hcs.
    eapply returns_with_mono;
      [|apply (returns_with_forEach_prefix true
                 (fun pre s => Frame Rkeep p r s /\ resolvedNode (get s p)
                               /\ forall c q, c ∈ pre -> desc r c q -> resolvedNode (get s q)))].
    + intros r' (Hf & Hp & Hq). split; [done|].
      intros q Hdq. unfold desc in Hdq. apply rtc_inv in Hdq as [->|(c & Hc & Hcq)]; [done|].
      by apply (Hq c q).
    + intros pre c post s Hsplit (Hf & Hp & Hq).
      assert (Hcin : c ∈ Children (get r p)).
      { rewrite Hsplit. apply elem_of_app. right. by left. }
      assert (Hrel : related Rkeep r s) by apply Hf.
      inversion Hh as [d' p' Hch]; subst.
      eapply returns_with_mono; [|apply (IH d' s c)].
      * intros s' (Hf' & Hq'). split; [|split].
        -- eapply (Frame_child Rkeep Rkeep); eauto.
        -- eapply resolvedNode_keeps; [|exact Hp]. apply Hf'.
        -- intros c' q Hc' Hdq. apply elem_of_app in Hc' as [Hc'|Hc'].
           ++ eapply resolvedNode_keeps; [|by apply (Hq c' q)]. apply Hf'.
           ++ apply list_elem_of_singleton in Hc' as ->. apply Hq'.
              eapply desc_same_children; [|exact Hdq].
              intros x. by apply (related_children_eq Rkeep).
      * lia.
      * eapply (height_le_related Rkeep); [exact Hrel|]. by apply Hch.
      * intros q Hdq. eapply valid_shape; [apply Hrel|]. apply Hv.
        eapply desc_child; [exact Hcin|]. by eapply (desc_related Rkeep).
      * destruct Hrel as (_ & _ & -> & _). done.
      * done.
      * done.
    + split; [done|]. split; [done|]. intros c q Hc. inversion Hc.
Qed.

End Fill.

Section Roots.
Context `{K : Krb}.
Implicit Types (r s : RaylibRenderer) (p q c : ptr) (e : RenderElement).

Lemma resolveRootInheritance_fills fuel d r rootEl :
  (d <= fuel)%nat -> height_le r d rootEl ->
  (forall q, desc r rootEl q -> valid (heap r) q) ->
  hasAlpha (DefaultFgColor (config r)) = true ->
  F32.eqb (DefaultFontSize (config r)) F32.zero = false ->
  LayoutAlignStart <> UnsetTextAlignmentSentinel ->
  returns_with true
    (fun r' => Frame Rkeep rootEl r r'
               /\ forall q, desc r rootEl q -> resolvedNode (get r' q))
    (resolveRootInheritance fuel r rootEl).
Proof.
  intros Hle Hh Hv Hd Hfs Hta.
  cbv beta iota delta [resolveRootInheritance].
  assert (Hvr : valid (heap r) rootEl) by apply Hv, rtc_refl.
  intro_let. intro_let. intro_let. intro_let.
  intro_let.
  assert (H1 : Frame Rkeep rootEl r r0 /\ valid (heap r0) rootEl).
  { subst r0. destruct (isTextBearingRoot && fgUnset (FgColor (get r rootEl))) eqn:Hc.
    - split; [|by apply valid_modify].
      apply Frame_update_at; [tc_solve|]. by apply keeps_set_FgColor.
    - split; [apply Frame_refl; tc_solve|done]. }
  destruct H1 as [H1 Hv1]. clearbody r0.
  intro_let. clearbody fgColorToPassToChildren.
  intro_let.
  assert (H2 : exists r1 fs1,
             (if F32.eqb resolvedRootFontSize F32.zero
              then (update rootEl (set_ResolvedFontSize initialFontSize) r0, initialFontSize)
              else (r0, resolvedRootFontSize)) = (r1, fs1)
             /\ Frame Rkeep rootEl r r1 /\ valid (heap r1) rootEl
             /\ F32.eqb fs1 F32.zero = false).
  { subst resolvedRootFontSize.
    destruct (F32.eqb (ResolvedFontSize (get r0 rootEl)) F32.zero) eqn:Hc.
    - eexists _, _. split; [reflexivity|]. split; [|split; [by apply valid_modify|done]].
      eapply Frame_trans; [tc_solve|exact H1|].
      apply Frame_update_at; [tc_solve|]. by apply keeps_set_FontSize.
    - eexists _, _. split; [reflexivity|]. done. }
  destruct H2 as (r1 & fs1 & -> & H2 & Hv2 & Hfs1). cbv beta iota.
  intro_let.
  assert (H3 : exists r2 ta2,
             (if TextAlignment (get r1 rootEl) =? UnsetTextAlignmentSentinel
              then (update rootEl (set_TextAlignment initialTextAlignment) r1,
                    initialTextAlignment)
              else (r1, resolvedRootTextAlignment)) = (r2, ta2)
             /\ Frame Rkeep rootEl r r2 /\ ta2 <> UnsetTextAlignmentSentinel).
  { subst resolvedRootTextAlignment.
    destruct (Z.eqb_spec (TextAlignment (get r1 rootEl)) UnsetTextAlignmentSentinel)
      as [Hc|Hc].
    - eexists _, _. split; [reflexivity|]. split; [|done].
      eapply Frame_trans; [tc_solve|exact H2|].
      apply Frame_update_at; [tc_solve|]. by apply keeps_set_TextAlignment.
    - eexists _, _. split; [reflexivity|]. done. }
  destruct H3 as (r2 & ta2 & -> & H3 & Hta2). cbv beta iota.
  assert (Hrel : related Rkeep r r2) by apply H3.
  eapply returns_with_mono; [|apply (applyInheritanceRecursive_fills fuel d r2 rootEl)].
  - intros r' (Hf & Hq). split.
    + eapply Frame_trans; [tc_solve|exact H3|exact Hf].
    + intros q Hdq. apply Hq. eapply desc_same_children; [|exact Hdq].
      intros x. by apply (related_children_eq Rkeep).
  - done.
  - by eapply (height_le_related Rkeep).
  - intros q Hdq. eapply valid_shape; [apply Hrel|]. apply Hv.
    by eapply (desc_related Rkeep).
  - destruct Hrel as (_ & _ & -> & _). done.
  - done.
  - done.
Qed.

(** The inheritance pass leaves nothing unresolved and overrides nothing.
    Over roots whose children graphs have height at most [d] and allocated
    nodes, with a document loaded, a visible default foreground colour, a
    default font size that is not 0.0 and a start alignment that is not the
    sentinel: [resolvePropertyInheritance] returns; afterwards every node
    reached from a root has a font size that is not 0.0, a text alignment
    that is not the sentinel and, if it bears text, a visible foreground
    colour; a node changes in inherited fields only, and in those only where
    it had no value of its own. *)
Theorem resolvePropertyInheritance_leaves_nothing_unresolved
    (fuel d : nat) (r : RaylibRenderer) :
  is_Some (docRef r) ->
  LayoutAlignStart <> UnsetTextAlignmentSentinel ->
  hasAlpha (DefaultFgColor (config r)) = true ->
  F32.eqb (DefaultFontSize (config r)) F32.zero = false ->
  (d <= fuel)%nat ->
  (forall root, root ∈ roots r -> height_le r d root) ->
  (forall root q, root ∈ roots r -> desc r root q -> valid (heap r) q) ->
  exists r',
    resolvePropertyInheritance fuel r = Done r'
    /\ related Rkeep r r'
    /\ forall root q, root ∈ roots r -> desc r root q -> resolvedNode (get r' q).
Proof.
  intros [doc Hdoc] Hta Hd Hfs Hle Hh Hv.
  apply returns_with_total. unfold resolvePropertyInheritance. rewrite Hdoc.
  destruct (roots r) as [|root0 rest] eqn:Hroots.
  { simpl. split; [apply related_refl; intros; apply keeps_set_refl|].
    intros root q Hin. inversion Hin. }
  rewrite <- Hroots in *. clear Hroots root0 rest.
  assert (Hloop : returns_with true
            (fun s => related Rkeep r s
                      /\ forall root q, root ∈ roots r -> desc r root q ->
                           resolvedNode (get s q))
            (forEach (resolveRootInheritance fuel) (roots r) r)).
  { eapply returns_with_mono;
      [|apply (returns_with_forEach_prefix true
                 (fun pre s => related Rkeep r s
                               /\ forall root q, root ∈ pre -> desc r root q ->
                                    resolvedNode (get s q)))].
    - intros s Hs. exact Hs.
    - intros pre root post s Hsplit (Hrel & Hq).
      assert (Hin : root ∈ roots r).
      { rewrite Hsplit. apply elem_of_app. right. by left. }
      eapply returns_with_mono; [|apply (resolveRootInheritance_fills fuel d s root)].
      + intros s' (Hf & Hq'). split.
        * eapply related_trans; [intros ?; apply keeps_set_trans|exact Hrel|apply Hf].
        * intros root' q Hin' Hdq. apply elem_of_app in Hin' as [Hin'|Hin'].
          -- eapply resolvedNode_keeps; [|by apply (Hq root' q)]. apply Hf.
          -- apply list_elem_of_singleton in Hin' as ->. apply Hq'.
             eapply desc_same_children; [|exact Hdq].
             intros x. by apply (related_children_eq Rkeep).
      + done.
      + eapply (height_le_related Rkeep); [exact Hrel|]. by apply Hh.
      + intros q Hdq. eapply valid_shape; [apply Hrel|]. apply (Hv root); [done|].
        by eapply (desc_related Rkeep).
      + destruct Hrel as (_ & _ & -> & _). done.
      + destruct Hrel as (_ & _ & -> & _). done.
      + done.
    - split; [apply related_refl; intros; apply keeps_set_refl|].
      intros root q Hin. inversion Hin. }
  destruct (roots r); [|exact Hloop]. exact Hloop.
Qed.

End Roots.

Lemma rAlign_reached (q : ptr) :
  desc Examples.rAlign (0, 0)%nat q -> q = (0, 0)%nat \/ q = (0, 1)%nat.
Proof.
  intros Hd. unfold desc in Hd. apply rtc_inv in Hd as [<-|(c & Hc & Hd)]; [by left|].
  unfold is_child in Hc. vm_compute in Hc. apply list_elem_of_singleton in Hc as ->.
  apply rtc_inv in Hd as [<-|(c & Hc & Hd)]; [by right|].
  unfold is_child in Hc. vm_compute in Hc. inversion Hc.
Qed.

Lemma resolvePropertyInheritance_leaves_nothing_unresolved_witness :
  exists r',
    resolvePropertyInheritance (K := Ref.krb) 5 Examples.rAlign = Done r'
    /\ related (Rkeep (K := Ref.krb)) Examples.rAlign r'
    /\ forall root q, root ∈ roots Examples.rAlign -> desc Examples.rAlign root q ->
          resolvedNode (K := Ref.krb) (get r' q).
Proof.
  apply (resolvePropertyInheritance_leaves_nothing_unresolved (K := Ref.krb) 5 2
           Examples.rAlign).
  - vm_compute. eauto.
  - vm_compute. lia.
  - reflexivity.
  - reflexivity.
  - lia.
  - intros root Hroot. vm_compute in Hroot. apply list_elem_of_singleton in Hroot as ->.
    constructor. intros c Hc. vm_compute in Hc.
    apply list_elem_of_singleton in Hc as ->.
    constructor. intros c Hc. vm_compute in Hc. inversion Hc.
  - intros root q Hroot Hd. vm_compute in Hroot.
    apply list_elem_of_singleton in Hroot as ->.
    destruct (rAlign_reached q Hd) as [->| ->]; vm_compute; eauto.
Defined.

(** * Foreground colours come from the nearest ancestor *)

Section FgTree.
Context `{K : Krb}.
Implicit Types (r s : RaylibRenderer) (p q c a : ptr) (e : RenderElement).

Lemma NearestAncestorFg_transparent r x (v : Color) :
  NearestAncestorFg r x v -> cA v = 0%N -> v = DefaultFgColor (config r).
Proof. induction 1; intros Hv; auto. done. Qed.

Lemma NearestAncestorFg_transport s s' x (v : Color) :
  config s' = config s ->
  (forall m a, x = Some m -> rtc (parent_of s) m a ->
     FgColor (get s' a) = FgColor (get s a) /\ Parent (get s' a) = Parent (get s a)) ->
  NearestAncestorFg s x v -> NearestAncestorFg s' x v.
Proof.
  intros Hc Hsame Hn. induction Hn as [|p Ha|p v Ha Hn IH].
  - rewrite <- Hc. constructor.
  - destruct (Hsame p p eq_refl (rtc_refl _ _)) as [Hf _].
    rewrite <- Hf. apply naf_here. by rewrite Hf.
  - destruct (Hsame p p eq_refl (rtc_refl _ _)) as [Hf Hp].
    apply naf_up; [by rewrite Hf|].
    rewrite Hp. apply IH.
    intros m a Hm Hma. apply (Hsame p a eq_refl).
    eapply rtc_l; [|exact Hma]. exact Hm.
Qed.

Lemma is_tree_related (R : ptr -> RenderElement -> RenderElement -> Prop) r s d p :
  (forall q e e', R q e e' -> Parent e' = Parent e /\ Children e' = Children e) ->
  related R r s -> is_tree r d p -> is_tree s d p.
Proof.
  intros HR Hrel. revert p. induction d as [|d IH]; intros p Ht; inversion Ht; subst.
  assert (Hq : forall q, Parent (get s q) = Parent (get r q)
                         /\ Children (get s q) = Children (get r q)).
  { intros q. apply (HR q). apply Hrel. }
  constructor.
  - eapply valid_shape; [apply Hrel|done].
  - by rewrite (proj2 (Hq p)).
  - intros c. rewrite (proj2 (Hq p)), (proj1 (Hq c)). auto.
  - intros c. rewrite (proj2 (Hq p)). auto.
Qed.

Lemma Rinh_keeps_links q e e' :
  Rinh q e e' -> Parent e' = Parent e /\ Children e' = Children e.
Proof. intros [Hv _]. unfold visual_change_only in Hv. tauto. Qed.

(** Proper ancestors, along parent references. *)
Lemma ancestors_outside_child r d p c :
  is_tree r d p -> ancestors_outside r p -> c ∈ Children (get r p) ->
  ancestors_outside r c.
Proof.
  intros Ht Hout Hc a Ha Hd.
  destruct d as [|d]; [inversion Ht|].
  destruct (is_tree_child r d p c Ht Hc) as [Htc Hpc].
  assert (Hcases : a = p \/ tc (parent_of r) p a).
  { clear Hd. inversion Ha as [? ? Hca|? m ? Hcm Hma]; subst; unfold parent_of in *.
    - left. congruence.
    - right. assert (m = p) as -> by congruence. done. }
  destruct Hcases as [->|Hpa].
  - exact (is_tree_no_cycle r (S d) p c Ht Hc Hd).
  - apply (Hout a Hpa). exact (desc_child r p c a Hc Hd).
Qed.



(** What the walk does to the foreground colour of the node it is at, when
    the value handed down is that of the nearest ancestor, or when the node
    has a visible colour of its own. *)
Lemma inherit_fg_here r p (fg : Color) :
  valid (heap r) p ->
  ancestors_outside r p ->
  NearestAncestorFg r (Parent (get r p)) fg \/ cA (FgColor (get r p)) <> 0%N ->
  let r1 :=
    if isTextBearing (get r p) && fgUnset (FgColor (get r p)) then
      if hasAlpha fg then update p (set_FgColor fg) r
      else update p (set_FgColor (DefaultFgColor (config r))) r
    else r in
  let fgColorForChildren :=
    if (cA (FgColor (get r1 p)) =? 0)%N then fg else FgColor (get r1 p) in
  Frame Rinh p r r1
  /\ (forall q, q <> p -> get r1 q = get r q)
  /\ FgSpec r r1 p
  /\ NearestAncestorFg r1 (Some p) fgColorForChildren.
Proof.
  intros Hv Hout Hn r1 fgC.
  destruct Hn as [Hn|Hown].
  2: { assert (Hu : fgUnset (FgColor (get r p)) = false).
       { unfold fgUnset. apply orb_false_iff. split; [|by apply N.eqb_neq].
         unfold Color_eqb, Blank. destruct (FgColor (get r p)) as [a b c d]. simpl in *.
         rewrite !andb_false_iff. right. by apply N.eqb_neq. }
       subst r1 fgC. rewrite Hu, andb_false_r.
       split; [apply Frame_refl; tc_solve|]. split; [done|]. split.
       - unfold FgSpec. by rewrite Hu, andb_false_r.
       - apply N.eqb_neq in Hown. rewrite Hown. apply naf_here. by apply N.eqb_neq. }
  assert (Hnp : forall m a, Parent (get r p) = Some m -> rtc (parent_of r) m a -> a <> p).
  { intros m a Hm Hma ->. apply (Hout p); [|apply rtc_refl].
    eapply tc_rtc_r; [|exact Hma]. by apply tc_once. }
  assert (H1 : Frame Rinh p r r1 /\ (forall q, q <> p -> get r1 q = get r q)
               /\ Parent (get r1 p) = Parent (get r p)
               /\ FgColor (get r1 p) =
                    (if isTextBearing (get r p) && fgUnset (FgColor (get r p))
                     then (if hasAlpha fg then fg else DefaultFgColor (config r))
                     else FgColor (get r p))).
  { subst r1. destruct (isTextBearing (get r p) && fgUnset (FgColor (get r p))).
    - destruct (hasAlpha fg).
      + split; [apply Frame_update; [tc_solve|setter_keeps]|].
        split; [intros q Hq; by apply get_update_ne|].
        split; [by apply get_update_field|]. by rewrite get_update_eq.
      + split; [apply Frame_update; [tc_solve|setter_keeps]|].
        split; [intros q Hq; by apply get_update_ne|].
        split; [by apply get_update_field|]. by rewrite get_update_eq.
    - split; [apply Frame_refl; tc_solve|]. done. }
  destruct H1 as (Hf & Hne & Hpar & Hfg).
  assert (Hcfg : config r1 = config r) by apply Hf.
  assert (Hn1 : NearestAncestorFg r1 (Parent (get r1 p)) fg).
  { rewrite Hpar. eapply NearestAncestorFg_transport; [exact Hcfg| |exact Hn].
    intros m a Hm Hma. by rewrite Hne by (by eapply Hnp). }
  split; [done|]. split; [done|]. split.
  - unfold FgSpec. rewrite Hfg.
    destruct (isTextBearing (get r p) && fgUnset (FgColor (get r p))); [|done].
    destruct (hasAlpha fg) eqn:Ha; [done|].
    assert (fg = DefaultFgColor (config r)) as <-; [|done].
    eapply NearestAncestorFg_transparent; [exact Hn|].
    unfold hasAlpha in Ha. apply N.ltb_ge in Ha. lia.
  - subst fgC. destruct (N.eqb_spec (cA (FgColor (get r1 p))) 0) as [Hz|Hz].
    + by apply naf_up.
    + by apply naf_here.
Qed.

End FgTree.

Section FgWalk.
Context `{K : Krb}.
Implicit Types (r s : RaylibRenderer) (p q c a : ptr) (e : RenderElement).

(** [FgSpec] from a later state on: the node and the chain above it are as
    they were. *)
Lemma FgSpec_later r s s' q :
  config s' = config s ->
  FgColor (get s' q) = FgColor (get s q) ->
  Parent (get s' q) = Parent (get s q) ->
  (forall m a, Parent (get s q) = Some m -> rtc (parent_of s) m a ->
     FgColor (get s' a) = FgColor (get s a) /\ Parent (get s' a) = Parent (get s a)) ->
  FgSpec r s q -> FgSpec r s' q.
Proof.
  intros Hc Hf Hp Hchain. unfold FgSpec.
  destruct (isTextBearing (get r q) && fgUnset (FgColor (get r q))).
  - rewrite Hf, Hp. by apply NearestAncestorFg_transport.
  - by rewrite Hf.
Qed.

(** [FgSpec] from an earlier state that agrees on the node. *)
Lemma FgSpec_earlier r s s' q :
  get s q = get r q -> FgSpec s s' q -> FgSpec r s' q.
Proof. unfold FgSpec. by intros ->. Qed.

Lemma parent_chain_related r s m a :
  (forall q, Parent (get s q) = Parent (get r q)) ->
  rtc (parent_of s) m a -> rtc (parent_of r) m a.
Proof.
  intros HP. apply rtc_subrel. intros x y. unfold parent_of. by rewrite HP.
Qed.

Lemma applyInheritanceRecursive_fg :
  forall fuel d r p (fg : Color) (fs : float32) (ta : Z),
    (d <= fuel)%nat -> is_tree r d p -> ancestors_outside r p ->
    NearestAncestorFg r (Parent (get r p)) fg \/ cA (FgColor (get r p)) <> 0%N ->
    returns_with true
      (fun r' => Frame Rinh p r r' /\ forall q, desc r p q -> FgSpec r r' q)
      (applyInheritanceRecursive fuel r p fg fs ta).
Proof.
  induction fuel as [|fuel IH]; intros d r p fg fs ta Hle Ht Hout Hn.
  - inversion Ht; subst. lia.
  - cbn beta iota delta [applyInheritanceRecursive].
    assert (Hvp : valid (heap r) p) by (by inversion Ht).
    pose proof (inherit_fg_here r p fg Hvp Hout Hn) as Hown. cbv zeta in Hown.
    intro_let. fold r0 in Hown.
    intro_let. fold fgColorForChildren in Hown.
    destruct Hown as (H1 & Hne1 & Hspec1 & Hn1).
    clearbody fgColorForChildren. clearbody r0.
    (* font size and alignment *)
    intro_let.
    assert (H2 : Frame Rinh p r r1 /\ (forall q, q <> p -> get r1 q = get r0 q)
                 /\ FgColor (get r1 p) = FgColor (get r0 p)
                 /\ Parent (get r1 p) = Parent (get r0 p)).
    { subst r1. destruct (F32.eqb _ _).
      - split; [eapply Frame_trans; [tc_solve|exact H1|];
                apply Frame_update; [tc_solve|setter_keeps]|].
        split; [intros q Hq; by apply get_update_ne|].
        split; by apply get_update_field.
      - done. }
    destruct H2 as (H2 & Hne2 & Hfg2 & Hp2). clearbody r1.
    intro_let. clearbody fontSizeForChildren.
    intro_let.
    assert (H3 : Frame Rinh p r r2 /\ (forall q, q <> p -> get r2 q = get r1 q)
                 /\ FgColor (get r2 p) = FgColor (get r1 p)
                 /\ Parent (get r2 p) = Parent (get r1 p)).
    { subst r2. destruct (_ =? _).
      - split; [eapply Frame_trans; [tc_solve|exact H2|];
                apply Frame_update; [tc_solve|setter_keeps]|].
        split; [intros q Hq; by apply get_update_ne|].
        split; by apply get_update_field.
      - done. }
    destruct H3 as (H3 & Hne3 & Hfg3 & Hp3). clearbody r2.
    intro_let. clearbody textAlignmentForChildren.
    (* the state x = r2 *)
    assert (Hne : forall q, q <> p -> get r2 q = get r q).
    { intros q Hq. by rewrite Hne3, Hne2, Hne1. }
    assert (Hfgx : FgColor (get r2 p) = FgColor (get r0 p)) by congruence.
    assert (Hpx : Parent (get r2 p) = Parent (get r p)).
    { rewrite Hp3, Hp2. destruct H1 as [(_ & _ & _ & _ & _ & _ & Hq) _].
      by apply (Rinh_keeps_links p). }
    assert (Hanc : forall m a, Parent (get r p) = Some m -> rtc (parent_of r) m a -> a <> p).
    { intros m a Hm Hma ->. apply (Hout p); [|apply rtc_refl].
      eapply tc_rtc_r; [|exact Hma]. by apply tc_once. }
    assert (HPr0 : forall q, Parent (get r0 q) = Parent (get r q)).
    { intros q. destruct H1 as [(_ & _ & _ & _ & _ & _ & Hq) _].
      by apply (Rinh_keeps_links q). }
    assert (Hcfg0 : config r0 = config r) by apply H1.
    assert (Hcfg2 : config r2 = config r) by apply H3.
    assert (Hspecx : FgSpec r r2 p).
    { eapply (FgSpec_later r r0 r2); [congruence|done|congruence| |done].
      intros m a Hm Hma. rewrite HPr0 in Hm.
      assert (a <> p).
      { eapply (Hanc m); [done|]. eapply parent_chain_related; [exact HPr0|done]. }
      by rewrite Hne3, Hne2. }
    assert (Hnx : NearestAncestorFg r2 (Some p) fgColorForChildren).
    { eapply (NearestAncestorFg_transport r0 r2); [congruence| |exact Hn1].
      intros m a [= <-] Hma.
      destruct (decide (a = p)) as [->|Hap]; [split; congruence|].
      by rewrite Hne3, Hne2. }
    assert (Hcs : Children (get r2 p) = Children (get r p))
      by (apply (related_children_eq Rinh), H3).
    rewrite Hcs.
    destruct d as [|d']; [inversion Ht|].
    eapply returns_with_mono;
      [|apply (returns_with_forEach_prefix true
                 (fun pre s =>
                    Frame Rinh p r s
                    /\ get s p = get r2 p
                    /\ (forall q, q <> p -> (forall c, c ∈ pre -> ~ desc r c q) ->
                          get s q = get r q)
                    /\ (forall c q, c ∈ pre -> desc r c q -> FgSpec r s q)))].
    + (* after the loop *)
      intros r' (Hf & Hp' & _ & Hq). split; [done|].
      intros q Hdq. unfold desc in Hdq. apply rtc_inv in Hdq as [<-|(c & Hc & Hcq)].
      * eapply (FgSpec_later r r2 r'); [|by rewrite Hp'|by rewrite Hp'| |done].
        -- destruct Hf as [(_ & _ & -> & _) _]. done.
        -- intros m a Hm Hma. rewrite Hpx in Hm.
           assert (Hra : rtc (parent_of r) m a).
           { eapply parent_chain_related; [|exact Hma].
             intros x. destruct H3 as [(_ & _ & _ & _ & _ & _ & Hx) _].
             by apply (Rinh_keeps_links x). }
           assert (Hap : a <> p) by (by eapply Hanc).
           assert (Hnd : ~ desc r p a).
           { apply Hout. eapply tc_rtc_r; [|exact Hra]. by apply tc_once. }
           destruct Hf as [_ Hfr]. rewrite (Hfr a Hnd), Hne by done. done.
      * by apply (Hq c q).
    + (* one child *)
      intros pre c post s Hsplit (Hf & Hsp & Hrest & Hq).
      assert (Hcin : c ∈ Children (get r p)).
      { rewrite Hsplit. apply elem_of_app. right. by left. }
      assert (Hnd : NoDup (Children (get r p))) by (by inversion Ht).
      assert (Hcpre : c ∉ pre).
      { rewrite Hsplit in Hnd. apply NoDup_app in Hnd as (_ & Hdis & _).
        intros Hin. apply (Hdis c Hin). by left. }
      destruct (is_tree_child r d' p c Ht Hcin) as [Htc Hpc].
      assert (Hrel : related Rinh r s) by apply Hf.
      assert (HPs : forall q, Parent (get s q) = Parent (get r q)).
      { intros q. destruct Hrel as (_ & _ & _ & _ & _ & _ & Hx).
        by apply (Rinh_keeps_links q). }
      assert (HCs : forall q, Children (get s q) = Children (get r q))
        by (by apply (related_children_eq Rinh)).
      assert (Hcfgs : config s = config r) by apply Hrel.
      assert (Houtc : ancestors_outside r c)
        by exact (ancestors_outside_child r (S d') p c Ht Hout Hcin).
      (* what the walks so far have left alone *)
      assert (Hsame_c : forall q, desc r c q -> get s q = get r q).
      { intros q Hdq. apply Hrest.
        - intros ->. exact (is_tree_no_cycle r (S d') p c Ht Hcin Hdq).
        - intros c0 Hc0 Hd0.
          assert (Hc0in : c0 ∈ Children (get r p)).
          { rewrite Hsplit. apply elem_of_app. by left. }
          assert (Hne0 : c0 <> c) by (intros ->; done).
          exact (siblings_disjoint r (S d') p c0 c q Ht Hc0in Hcin Hne0 Hd0 Hdq). }
      eapply returns_with_mono; [|apply (IH d' s c fgColorForChildren)].
      * intros s' (Hf' & Hq').
        assert (Hout' : forall q, ~ desc r c q -> get s' q = get s q).
        { intros q Hndq. destruct Hf' as [_ Hfr]. apply Hfr. intros Hd. apply Hndq.
          by eapply (desc_related Rinh). }
        assert (Hcfg' : config s' = config s) by apply Hf'.
        split; [|split; [|split]].
        -- eapply (Frame_child Rinh Rinh); eauto.
        -- rewrite Hout'; [done|]. exact (is_tree_no_cycle r (S d') p c Ht Hcin).
        -- intros q Hqp Hpre. rewrite Hout'.
           ++ apply Hrest; [done|]. intros c0 Hc0. apply Hpre.
              apply elem_of_app. by left.
           ++ apply Hpre. apply elem_of_app. right. by left.
        -- intros c0 q Hc0 Hdq. apply elem_of_app in Hc0 as [Hc0|Hc0].
           ++ (* an earlier sibling's subtree *)
              assert (Hc0in : c0 ∈ Children (get r p)).
              { rewrite Hsplit. apply elem_of_app. by left. }
              assert (Hne0 : c0 <> c) by (intros ->; done).
              destruct (is_tree_child r d' p c0 Ht Hc0in) as [Htc0 Hpc0].
              assert (Hq0 : ~ desc r c q)
                by (intros Hd;
                    exact (siblings_disjoint r (S d') p c0 c q Ht Hc0in Hcin Hne0 Hdq Hd)).
              eapply (FgSpec_later r s s'); [done|by rewrite Hout'|by rewrite Hout'|
                                            |by apply (Hq c0 q)].
              intros m a Hm Hma.
              assert (Hra : rtc (parent_of r) q a).
              { eapply rtc_l; [|eapply parent_chain_related; [exact HPs|exact Hma]].
                unfold parent_of. by rewrite <- HPs. }
              assert (Hna : ~ desc r c a).
              { destruct (ancestor_in_tree r d' c0 q a Htc0 Hdq Hra) as [Hin|Hup].
                - intros Hd.
                  exact (siblings_disjoint r (S d') p c0 c a Ht Hc0in Hcin Hne0 Hin Hd).
                - intros Hd. apply rtc_inv in Hup as [<-|(m' & Hm' & Hup)].
                  + exact (siblings_disjoint r (S d') p c0 c c0 Ht Hc0in Hcin Hne0
                             (rtc_refl _ _) Hd).
                  + unfold parent_of in Hm'. rewrite Hpc0 in Hm'. injection Hm' as <-.
                    apply rtc_inv in Hup as [<-|(m'' & Hm'' & Hup)].
                    * exact (is_tree_no_cycle r (S d') p c Ht Hcin Hd).
                    * apply (Hout a).
                      -- eapply tc_rtc_r; [apply tc_once; exact Hm''|exact Hup].
                      -- exact (desc_child r p c a Hcin Hd). }
              by rewrite Hout'.
           ++ apply list_elem_of_singleton in Hc0 as ->.
              eapply FgSpec_earlier; [by apply Hsame_c|]. apply Hq'.
              eapply desc_same_children; [|exact Hdq]. done.
      * lia.
      * eapply (is_tree_related Rinh); [apply Rinh_keeps_links|exact Hrel|done].
      * intros a Ha Hd. apply (Houtc a).
        -- clear -Ha HPs. induction Ha as [x y Hxy|x y z Hxy Hyz IHa].
           ++ apply tc_once. unfold parent_of in *. by rewrite <- HPs.
           ++ eapply tc_l; [|exact IHa]. unfold parent_of in *. by rewrite <- HPs.
        -- by eapply (desc_related Rinh).
      * left. rewrite HPs, Hpc.
        eapply (NearestAncestorFg_transport r2 s); [congruence| |exact Hnx].
        intros m a [= <-] Hma.
        destruct (decide (a = p)) as [->|Hap]; [by rewrite Hsp|].
        assert (Hra : rtc (parent_of r) p a).
        { eapply parent_chain_related; [|exact Hma].
          intros x. destruct H3 as [(_ & _ & _ & _ & _ & _ & Hx) _].
          by apply (Rinh_keeps_links x). }
        assert (Hnda : ~ desc r p a).
        { apply Hout. apply rtc_tc in Hra as [?|?]; [done|done]. }
        destruct Hf as [_ Hfr]. rewrite (Hfr a Hnda), Hne by done. done.
    + (* before the loop *)
      split; [done|]. split; [done|]. split; [|intros c q Hc; inversion Hc].
      intros q Hqp _. by apply Hne.
Qed.

End FgWalk.

Section FgRoots.
Context `{K : Krb}.
Implicit Types (r s : RaylibRenderer) (p q c a : ptr) (e : RenderElement).

(** A parentless node has no proper ancestor. *)
Lemma ancestors_outside_root r p : Parent (get r p) = None -> ancestors_outside r p.
Proof.
  intros Hp a Ha _.
  inversion Ha as [? ? H|? m ? H _]; subst; unfold parent_of in H; congruence.
Qed.

(** From a parentless node upwards there is the node only. *)
Lemma parent_chain_root r p a : Parent (get r p) = None -> rtc (parent_of r) p a -> a = p.
Proof.
  intros Hp Ha. inversion Ha as [|? m ? H _]; subst; [done|].
  unfold parent_of in H. congruence.
Qed.

(** A write through the root that keeps the foreground colour. *)
Lemma root_write_keeps r s root f :
  (forall e, inherited_change_only e (f e)) -> (forall e, FgColor (f e) = FgColor e) ->
  Frame Rinh root r s /\ (forall q, q <> root -> get s q = get r q) ->
  Frame Rinh root r (update root f s)
  /\ (forall q, q <> root -> get (update root f s) q = get r q)
  /\ FgColor (get (update root f s) root) = FgColor (get s root).
Proof.
  intros Hf Hfg [HF Hne]. split; [|split].
  - eapply Frame_trans; [tc_solve|exact HF|].
    split; [apply related_update; [apply sr_refl|apply Hf]|].
    intros q Hq. apply get_update_ne. intros ->. apply Hq.
    eapply desc_same_children; [|apply rtc_refl]. done.
  - intros q Hq. rewrite get_update_ne by done. by apply Hne.
  - by apply get_update_field.
Qed.

Lemma resolveRootInheritance_fg fuel d r root :
  (d <= fuel)%nat -> is_tree r d root -> Parent (get r root) = None ->
  returns_with true
    (fun r' => Frame Rinh root r r' /\ forall q, desc r root q -> FgSpec r r' q)
    (resolveRootInheritance fuel r root).
Proof.
  intros Hle Ht Hp.
  assert (Hvr : valid (heap r) root) by (by inversion Ht).
  cbv beta iota delta [resolveRootInheritance].
  intro_let. intro_let. intro_let. intro_let. intro_let.
  assert (H0 : Frame Rinh root r r0 /\ (forall q, q <> root -> get r0 q = get r q)
               /\ FgColor (get r0 root) =
                    (if isTextBearing (get r root) && fgUnset (FgColor (get r root))
                     then DefaultFgColor (config r) else FgColor (get r root))).
  { subst r0 isTextBearingRoot initialFgColor.
    destruct (isTextBearing (get r root) && fgUnset (FgColor (get r root))).
    - split; [apply Frame_update; [tc_solve|setter_keeps]|].
      split; [intros q Hq; by apply get_update_ne|]. by rewrite get_update_eq.
    - split; [apply Frame_refl; tc_solve|]. done. }
  destruct H0 as (HF0 & Hne0 & Hfg0). clearbody r0.
  intro_let. intro_let.
  assert (H1 : exists r1 fs1,
             (if F32.eqb resolvedRootFontSize F32.zero
              then (update root (set_ResolvedFontSize initialFontSize) r0, initialFontSize)
              else (r0, resolvedRootFontSize)) = (r1, fs1)
             /\ Frame Rinh root r r1 /\ (forall q, q <> root -> get r1 q = get r q)
             /\ FgColor (get r1 root) = FgColor (get r0 root)).
  { destruct (F32.eqb resolvedRootFontSize F32.zero).
    - eexists _, _. split; [reflexivity|].
      apply root_write_keeps; [intros e; setter_keeps|done|done].
    - eexists _, _. split; [reflexivity|]. done. }
  destruct H1 as (r1 & fs1 & -> & HF1 & Hne1 & Hfg1). cbv beta iota.
  intro_let.
  assert (H2 : exists r2 ta2,
             (if TextAlignment (get r1 root) =? UnsetTextAlignmentSentinel
              then (update root (set_TextAlignment initialTextAlignment) r1,
                    initialTextAlignment)
              else (r1, resolvedRootTextAlignment)) = (r2, ta2)
             /\ Frame Rinh root r r2 /\ (forall q, q <> root -> get r2 q = get r q)
             /\ FgColor (get r2 root) = FgColor (get r1 root)).
  { destruct (TextAlignment (get r1 root) =? UnsetTextAlignmentSentinel).
    - eexists _, _. split; [reflexivity|].
      apply root_write_keeps; [intros e; setter_keeps|done|done].
    - eexists _, _. split; [reflexivity|]. done. }
  destruct H2 as (r2 & ta2 & -> & HF2 & Hne2 & Hfg2). cbv beta iota.
  assert (Hrel : related Rinh r r2) by apply HF2.
  assert (Hcfg : config r2 = config r) by apply Hrel.
  assert (Hlinks : forall q, Parent (get r2 q) = Parent (get r q)
                             /\ Children (get r2 q) = Children (get r q)).
  { intros q. apply (Rinh_keeps_links q). apply Hrel. }
  assert (Hhdr : isTextBearing (get r2 root) = isTextBearing (get r root)).
  { apply isTextBearing_Header.
    destruct Hrel as (_ & _ & _ & _ & _ & _ & Hq). destruct (Hq root) as [Hv _].
    unfold visual_change_only in Hv. tauto. }
  assert (Hp2 : Parent (get r2 root) = None) by (by rewrite (proj1 (Hlinks root))).
  eapply returns_with_mono; [|apply (applyInheritanceRecursive_fg fuel d r2 root)].
  - intros r' (HF' & Hspec). split; [eapply Frame_trans; [tc_solve|exact HF2|exact HF']|].
    intros q Hdq.
    assert (Hdq2 : desc r2 root q).
    { eapply desc_same_children; [|exact Hdq]. intros x. apply Hlinks. }
    specialize (Hspec q Hdq2).
    destruct (decide (q = root)) as [->|Hq]; [|by apply (FgSpec_earlier r r2), Hspec; auto].
    assert (Hrel' : related Rinh r2 r') by apply HF'.
    unfold FgSpec in *. rewrite Hhdr, Hfg2, Hfg1, Hfg0 in Hspec.
    destruct (isTextBearing (get r root) && fgUnset (FgColor (get r root))) eqn:Hc.
    + apply andb_true_iff in Hc as [Htb _]. rewrite Htb in Hspec. simpl in Hspec.
      destruct (fgUnset (DefaultFgColor (config r))); [done|].
      rewrite Hspec.
      rewrite (proj1 (Rinh_keeps_links root _ _ (proj2 (proj2 (proj2 (proj2 (proj2 (proj2 Hrel'))))) root))).
      rewrite Hp2.
      replace (config r) with (config r') by (destruct Hrel' as (_ & _ & -> & _); done).
      constructor.
    + rewrite Hc in Hspec. done.
  - done.
  - eapply (is_tree_related Rinh); [apply Rinh_keeps_links|exact Hrel|exact Ht].
  - by apply ancestors_outside_root.
  - subst fgColorToPassToChildren initialFgColor.
    destruct (N.eqb_spec (cA (FgColor (get r0 root))) 0) as [Hz|Hz].
    + left. rewrite Hp2, <- Hcfg. constructor.
    + right. by rewrite Hfg2, Hfg1.
Qed.

End FgRoots.

Section FgForest.
Context `{K : Krb}.
Implicit Types (r s : RaylibRenderer) (p q c a : ptr) (e : RenderElement).

(** The trees of two distinct roots of a forest share no node. *)
Lemma forest_disjoint r d t1 t2 q :
  wf_forest r d -> t1 ∈ roots r -> t2 ∈ roots r -> t1 <> t2 ->
  desc r t1 q -> desc r t2 q -> False.
Proof.
  intros [_ Hw] H1 H2 Hne.
  destruct (Hw t1 H1) as [Hp1 Ht1]. destruct (Hw t2 H2) as [Hp2 Ht2].
  apply (trees_disjoint r d d t1 t2 q Ht1 Ht2 Hne); intros m Hm; congruence.
Qed.

(** The chain of parents of a node of a root's tree stays in that tree. *)
Lemma forest_chain_in_tree r d root q a :
  Parent (get r root) = None -> is_tree r d root ->
  desc r root q -> rtc (parent_of r) q a -> desc r root a.
Proof.
  intros Hp Ht Hd Ha.
  destruct (ancestor_in_tree r d root q a Ht Hd Ha) as [H|H]; [done|].
  rewrite (parent_chain_root r root a Hp H). apply rtc_refl.
Qed.

Lemma resolvePropertyInheritance_fg fuel d r :
  (d <= fuel)%nat -> wf_forest r d ->
  returns_with true
    (fun r' => related Rinh r r'
               /\ forall root q, root ∈ roots r -> desc r root q -> FgSpec r r' q)
    (forEach (resolveRootInheritance fuel) (roots r) r).
Proof.
  intros Hle Hwf.
  pose (I := fun (pre : list ptr) s =>
               related Rinh r s
               /\ (forall q, (forall root, root ∈ pre -> ~ desc r root q) -> get s q = get r q)
               /\ (forall root q, root ∈ pre -> desc r root q -> FgSpec r s q)).
  eapply returns_with_mono;
    [|apply (returns_with_forEach_prefix true I (resolveRootInheritance fuel) (roots r))].
  - intros r' (Hrel & _ & Hspec). split; [exact Hrel|exact Hspec].
  - intros pre x post s Hxs (Hrel & Hout & Hspec).
    assert (Hx : x ∈ roots r) by (rewrite Hxs; apply elem_of_app; right; apply elem_of_cons; by left).
    assert (Hpre : forall root, root ∈ pre -> root ∈ roots r /\ root <> x).
    { intros root Hroot. split; [rewrite Hxs; apply elem_of_app; by left|].
      intros ->. destruct Hwf as [Hnd _]. rewrite Hxs in Hnd.
      apply NoDup_app in Hnd as (_ & Hnd & _). apply (Hnd x Hroot). apply elem_of_cons. by left. }
    destruct (proj2 Hwf x Hx) as [Hpx Htx].
    assert (Hlinks : forall q, Parent (get s q) = Parent (get r q)
                               /\ Children (get s q) = Children (get r q)).
    { intros q. apply (Rinh_keeps_links q). apply Hrel. }
    assert (Hds : forall p q, desc s p q <-> desc r p q).
    { intros p q. split; apply desc_same_children; intros y; [symmetry|]; apply Hlinks. }
    eapply returns_with_mono; [|apply (resolveRootInheritance_fg fuel d s x)].
    + intros s' ([Hrel' Hout'] & Hspec').
      assert (Hlinks' : forall q, Parent (get s' q) = Parent (get s q)
                                  /\ Children (get s' q) = Children (get s q)).
      { intros q. apply (Rinh_keeps_links q). apply Hrel'. }
      split; [eapply related_trans; [apply sr_trans|exact Hrel|exact Hrel']|]. split.
      * intros q Hq. rewrite Hout'.
        -- apply Hout. intros root Hroot. apply Hq, elem_of_app. by left.
        -- intros Hd. apply (Hq x); [apply elem_of_app; right; by apply list_elem_of_singleton|].
           by apply Hds.
      * intros root q Hroot Hd. apply elem_of_app in Hroot as [Hroot|Hroot].
        -- destruct (Hpre root Hroot) as [Hr Hne].
           destruct (proj2 Hwf root Hr) as [Hproot Htroot].
           assert (Hsame : forall a, desc r root a -> get s' a = get s a).
           { intros a Ha. apply Hout'. intros Hxa. apply Hds in Hxa.
             exact (forest_disjoint r d root x a Hwf Hr Hx Hne Ha Hxa). }
           apply (FgSpec_later r s s' q).
           ++ destruct Hrel' as (_ & _ & -> & _). done.
           ++ by rewrite Hsame.
           ++ by rewrite Hsame.
           ++ intros m a Hm Hma.
              rewrite Hsame; [done|].
              apply (forest_chain_in_tree r d root q a Hproot Htroot Hd).
              eapply rtc_l; [|eapply parent_chain_related; [|exact Hma]].
              ** unfold parent_of. by rewrite <- (proj1 (Hlinks q)).
              ** intros y. apply Hlinks.
           ++ exact (Hspec root q Hroot Hd).
        -- apply list_elem_of_singleton in Hroot as ->.
           apply (FgSpec_earlier r s).
           ++ apply Hout. intros root Hroot Hdr.
              destruct (Hpre root Hroot) as [Hr Hne].
              exact (forest_disjoint r d root x q Hwf Hr Hx Hne Hdr Hd).
           ++ apply Hspec'. by apply Hds.
    + done.
    + eapply (is_tree_related Rinh); [apply Rinh_keeps_links|exact Hrel|exact Htx].
    + by rewrite (proj1 (Hlinks x)).
  - split; [apply related_refl, sr_refl|]. split; [done|].
    intros root q Hroot. inversion Hroot.
Qed.

(** C6.  Foreground colours come from the nearest ancestor.  Over a forest (the
    roots distinct and parentless, each over a tree of height at most [d]
    whose children refer back to their parents) and with a document loaded,
    [resolvePropertyInheritance] returns, and in the tree it leaves behind,
    every text-bearing node that had no foreground colour (blank or alpha 0)
    has that of its nearest ancestor, along parent references, whose own
    alpha is not 0, or the configured default when there is no such ancestor;
    every other node keeps the colour it had. *)
Theorem resolvePropertyInheritance_fg_from_nearest_ancestor (fuel d : nat) (r : RaylibRenderer) :
  is_Some (docRef r) -> (d <= fuel)%nat -> wf_forest r d ->
  exists r',
    resolvePropertyInheritance fuel r = Done r'
    /\ related Rinh r r'
    /\ forall root q, root ∈ roots r -> desc r root q -> FgSpec r r' q.
Proof.
  intros [doc Hdoc] Hle Hwf.
  pose proof (resolvePropertyInheritance_fg fuel d r Hle Hwf) as H.
  unfold resolvePropertyInheritance. rewrite Hdoc.
  destruct (roots r) as [|x xs] eqn:Hroots.
  - exists r. split; [done|]. split; [apply related_refl, sr_refl|].
    intros root q Hroot. inversion Hroot.
  - destruct (forEach (resolveRootInheritance fuel) (x :: xs) r) as [r'| |]; simpl in H;
      [|done|done].
    exists r'. done.
Qed.

End FgForest.

Lemma rBlank_forest : wf_forest FgExample.rBlank 2.
Proof.
  split; [vm_compute; apply NoDup_singleton|].
  intros root Hroot. vm_compute in Hroot. apply list_elem_of_singleton in Hroot as ->.
  split; [reflexivity|].
  constructor.
  - vm_compute. eauto.
  - vm_compute. apply NoDup_singleton.
  - intros c Hc. vm_compute in Hc. apply list_elem_of_singleton in Hc as ->. reflexivity.
  - intros c Hc. vm_compute in Hc. apply list_elem_of_singleton in Hc as ->.
    constructor.
    + vm_compute. eauto.
    + vm_compute. apply NoDup_nil_2.
    + intros c Hc. vm_compute in Hc. inversion Hc.
    + intros c Hc. vm_compute in Hc. inversion Hc.
Qed.

Lemma resolvePropertyInheritance_fg_from_nearest_ancestor_witness :
  exists r',
    resolvePropertyInheritance (K := Ref.krb) 5 FgExample.rBlank = Done r'
    /\ related Rinh FgExample.rBlank r'
    /\ forall root q, root ∈ roots FgExample.rBlank -> desc FgExample.rBlank root q ->
         FgSpec (K := Ref.krb) FgExample.rBlank r' q.
Proof.
  apply (resolvePropertyInheritance_fg_from_nearest_ancestor (K := Ref.krb) 5 2
           FgExample.rBlank).
  - vm_compute. eauto.
  - lia.
  - exact rBlank_forest.
Defined.

(** * Claims on the finished tree *)

(** C9, with visibility among the fields that may change.
    [ReResolveElementVisuals] on a node [el] returns (the children graph
    below [el] and the chain of parents above it being finite, of height at
    most [d]) and leaves the structure as it was: the flat collection
    [r.elements] (same backing array, length and order), the roots, the
    shape of every backing array, and every node's parent reference,
    children list, header and index.  Of [el] it changes visual state only
    (colours, border widths, padding, font size, text alignment, text and
    resource, and visibility); of the other nodes only the inherited fields
    (foreground colour, font size, text alignment), and nothing at all of a
    node that [el] does not reach through children lists.  No node is
    created: component expansion is not re-run. *)
Theorem C9_ReResolveElementVisuals_keeps_structure `{K : Krb}
    (fuel d : nat) (r : RaylibRenderer) (el : ptr) :
  (d <= fuel)%nat ->
  height_le r d el ->
  chain_le r d (Parent (get r el)) ->
  exists r',
    ReResolveElementVisuals fuel r (Some el) = Done r'
    /\ elements r' = elements r
    /\ roots r' = roots r
    /\ map length (heap r') = map length (heap r)
    /\ (forall q, Parent (get r' q) = Parent (get r q)
                  /\ Children (get r' q) = Children (get r q)
                  /\ Header (get r' q) = Header (get r q)
                  /\ OriginalIndex (get r' q) = OriginalIndex (get r q))
    /\ visual_change_only (get r el) (get r' el)
    /\ (forall q, q <> el -> inherited_change_only (get r q) (get r' q))
    /\ (forall q, ~ desc r el q -> get r' q = get r q).
Proof.
  intros Hle Hh Hc.
  destruct (returns_with_total _ _
              (ReResolveElementVisuals_returns true fuel d r el (fun _ => conj Hle (conj Hh Hc))))
    as (r' & Hrun & (He & Hr & _ & _ & _ & Hshape & Hcells) & Hout).
  exists r'. split; [exact Hrun|].
  split; [exact He|]. split; [exact Hr|]. split; [exact Hshape|].
  split.
  { intros q. destruct (Hcells q) as [Hv _]. unfold visual_change_only in Hv. tauto. }
  split; [exact (proj1 (Hcells el))|].
  split; [|exact Hout].
  intros q Hq. by apply (Hcells q).
Qed.

#[local] Existing Instance Ref.krb.

Lemma C9_witness :
  exists r',
    ReResolveElementVisuals 50 Examples.rAlign (Some (0, 1)%nat) = Done r'
    /\ elements r' = elements Examples.rAlign
    /\ roots r' = roots Examples.rAlign
    /\ map length (heap r') = map length (heap Examples.rAlign)
    /\ (forall q, Parent (get r' q) = Parent (get Examples.rAlign q)
                  /\ Children (get r' q) = Children (get Examples.rAlign q)
                  /\ Header (get r' q) = Header (get Examples.rAlign q)
                  /\ OriginalIndex (get r' q) = OriginalIndex (get Examples.rAlign q))
    /\ visual_change_only (get Examples.rAlign (0, 1)%nat) (get r' (0, 1)%nat)
    /\ (forall q, q <> (0, 1)%nat ->
                  inherited_change_only (get Examples.rAlign q) (get r' q))
    /\ (forall q, ~ desc Examples.rAlign (0, 1)%nat q -> get r' q = get Examples.rAlign q).
Proof.
  apply (C9_ReResolveElementVisuals_keeps_structure 50 2 Examples.rAlign (0, 1)%nat).
  - lia.
  - constructor. intros c Hc. vm_compute in Hc. inversion Hc.
  - replace (Parent (get Examples.rAlign (0, 1)%nat)) with (Some (0, 0)%nat)
      by (vm_compute; reflexivity).
    constructor.
    replace (Parent (get Examples.rAlign (0, 0)%nat)) with (@None ptr)
      by (vm_compute; reflexivity).
    constructor.
Defined.

(** C9 as stated fails on the list of fields: the visibility of [el] changes
    too.  The element of [docHidden] carries a direct property that hides
    it; once the application has made it visible, re-resolving its visuals
    applies the property again and hides it. *)
Lemma C9_counterexample_visibility_changes :
  exists r',
    ReResolveElementVisuals (K := Ref.krb) 50 HiddenExample.rShown (Some (0, 0)%nat) = Done r'
    /\ IsVisible (get HiddenExample.rShown (0, 0)%nat) = true
    /\ IsVisible (get r' (0, 0)%nat) = false.
Proof.
  eexists. split; [vm_compute; reflexivity|]. split; reflexivity.
Qed.

(** * Alignment and font size are inherited from the parent *)

Section InhWalk.
Context `{K : Krb}.
Implicit Types (r s : RaylibRenderer) (p q c a : ptr) (e : RenderElement).

(** From a later state on: the node and its parent are as they were. *)
Lemma InhSpec_later r s s' q :
  config s' = config s ->
  get s' q = get s q ->
  (forall m, Parent (get s q) = Some m -> get s' m = get s m) ->
  InhSpec r s q -> InhSpec r s' q.
Proof.
  intros Hc Hq Hm. unfold InhSpec, AlignSpec, FontSizeSpec. rewrite Hq, Hc.
  destruct (Parent (get s q)) as [m|]; [|done]. by rewrite (Hm m).
Qed.

(** From an earlier state that agrees on the node. *)
Lemma InhSpec_earlier r s s' q :
  get s q = get r q -> InhSpec s s' q -> InhSpec r s' q.
Proof. unfold InhSpec, AlignSpec, FontSizeSpec. by intros ->. Qed.

Lemma applyInheritanceRecursive_inh :
  forall fuel d r p (fg : Color) (fs : float32) (ta : Z),
    (d <= fuel)%nat -> is_tree r d p ->
    (forall m, Parent (get r p) = Some m -> ~ desc r p m) ->
    handedDown r p fs ta ->
    returns_with true
      (fun r' => Frame Rinh p r r' /\ forall q, desc r p q -> InhSpec r r' q)
      (applyInheritanceRecursive fuel r p fg fs ta).
Proof.
  induction fuel as [|fuel IH]; intros d r p fg fs ta Hle Ht Hout [Hta Hfs].
  - inversion Ht; subst. lia.
  - cbn beta iota delta [applyInheritanceRecursive].
    assert (Hvp : valid (heap r) p) by (by inversion Ht).
    intro_let.
    assert (H0 : Frame Rinh p r r0 /\ (forall q, q <> p -> get r0 q = get r q)
                 /\ TextAlignment (get r0 p) = TextAlignment (get r p)
                 /\ ResolvedFontSize (get r0 p) = ResolvedFontSize (get r p)
                 /\ valid (heap r0) p).
    { subst r0. destruct (isTextBearing (get r p) && fgUnset (FgColor (get r p))).
      - destruct (hasAlpha fg).
        + split; [apply Frame_update; [tc_solve|setter_keeps]|].
          split; [intros q Hq; by apply get_update_ne|].
          split; [by apply get_update_field|]. split; [by apply get_update_field|].
          by apply valid_modify.
        + split; [apply Frame_update; [tc_solve|setter_keeps]|].
          split; [intros q Hq; by apply get_update_ne|].
          split; [by apply get_update_field|]. split; [by apply get_update_field|].
          by apply valid_modify.
      - split; [apply Frame_refl; tc_solve|]. done. }
    destruct H0 as (H0 & Hne0 & Hta0 & Hfs0 & Hv0). clearbody r0.
    intro_let. clearbody fgColorForChildren.
    intro_let.
    assert (H1 : Frame Rinh p r r1 /\ (forall q, q <> p -> get r1 q = get r q)
                 /\ TextAlignment (get r1 p) = TextAlignment (get r p)
                 /\ ResolvedFontSize (get r1 p) =
                      (if F32.eqb (ResolvedFontSize (get r p)) F32.zero
                       then fs else ResolvedFontSize (get r p))
                 /\ valid (heap r1) p).
    { subst r1. rewrite Hfs0.
      destruct (F32.eqb (ResolvedFontSize (get r p)) F32.zero).
      - split; [eapply Frame_trans; [tc_solve|exact H0|];
                apply Frame_update; [tc_solve|setter_keeps]|].
        split; [intros q Hq; rewrite get_update_ne by done; by apply Hne0|].
        split; [rewrite <- Hta0; by apply get_update_field|].
        split; [by rewrite get_update_eq|]. by apply valid_modify.
      - done. }
    destruct H1 as (H1 & Hne1 & Hta1 & Hfs1 & Hv1). clearbody r1.
    intro_let.
    intro_let.
    assert (H2 : Frame Rinh p r r2 /\ (forall q, q <> p -> get r2 q = get r q)
                 /\ TextAlignment (get r2 p) =
                      (if TextAlignment (get r p) =? UnsetTextAlignmentSentinel
                       then ta else TextAlignment (get r p))
                 /\ ResolvedFontSize (get r2 p) = ResolvedFontSize (get r1 p)).
    { subst r2. rewrite Hta1.
      destruct (TextAlignment (get r p) =? UnsetTextAlignmentSentinel).
      - split; [eapply Frame_trans; [tc_solve|exact H1|];
                apply Frame_update; [tc_solve|setter_keeps]|].
        split; [intros q Hq; rewrite get_update_ne by done; by apply Hne1|].
        split; [by rewrite get_update_eq|]. by apply get_update_field.
      - done. }
    destruct H2 as (H2 & Hne & Hta2 & Hfs2').
    assert (Hfs2 := Hfs2'). rewrite Hfs1 in Hfs2. clearbody r2.
    intro_let.
    assert (Hrel2 : related Rinh r r2) by apply H2.
    assert (HP2 : forall q, Parent (get r2 q) = Parent (get r q)).
    { intros q. destruct Hrel2 as (_ & _ & _ & _ & _ & _ & Hx).
      by apply (Rinh_keeps_links q). }
    assert (Hcfg2 : config r2 = config r) by apply Hrel2.
    assert (Hmp : forall m, Parent (get r p) = Some m -> m <> p).
    { intros m Hm ->. apply (Hout p Hm). apply rtc_refl. }
    (* the node itself *)
    assert (Hspecx : InhSpec r r2 p).
    { split.
      - unfold AlignSpec. rewrite Hta2, HP2.
        destruct (Z.eqb_spec (TextAlignment (get r p)) UnsetTextAlignmentSentinel)
          as [Hs|Hs]; [|done].
        destruct Hta as [Hta| ->]; [done|].
        destruct (Parent (get r p)) as [m|] eqn:Hm; [|done].
        by rewrite Hne by (by apply Hmp).
      - unfold FontSizeSpec. rewrite Hfs2, HP2, Hcfg2.
        destruct (F32.eqb (ResolvedFontSize (get r p)) F32.zero) eqn:Hs; [|done].
        destruct Hfs as [Hfs| ->]; [done|].
        destruct (Parent (get r p)) as [m|] eqn:Hm; [|done].
        by rewrite Hne by (by apply Hmp). }
    assert (Hcs : Children (get r2 p) = Children (get r p))
      by (apply (related_children_eq Rinh), H2).
    rewrite Hcs.
    destruct d as [|d']; [inversion Ht|].
    eapply returns_with_mono;
      [|apply (returns_with_forEach_prefix true
                 (fun pre s =>
                    Frame Rinh p r s
                    /\ get s p = get r2 p
                    /\ (forall q, q <> p -> (forall c, c ∈ pre -> ~ desc r c q) ->
                          get s q = get r q)
                    /\ (forall c q, c ∈ pre -> desc r c q -> InhSpec r s q)))].
    + (* after the loop *)
      intros r' (Hf & Hp' & _ & Hq). split; [done|].
      intros q Hdq. unfold desc in Hdq. apply rtc_inv in Hdq as [<-|(c & Hc & Hcq)].
      * eapply (InhSpec_later r r2 r'); [|done| |done].
        -- destruct Hf as [(_ & _ & -> & _) _]. done.
        -- intros m Hm. rewrite HP2 in Hm.
           destruct Hf as [_ Hfr]. rewrite (Hfr m (Hout m Hm)).
           symmetry. apply Hne. by apply Hmp.
      * by apply (Hq c q).
    + (* one child *)
      intros pre c post s Hsplit (Hf & Hsp & Hrest & Hq).
      assert (Hcin : c ∈ Children (get r p)).
      { rewrite Hsplit. apply elem_of_app. right. by left. }
      assert (Hnd : NoDup (Children (get r p))) by (by inversion Ht).
      assert (Hcpre : c ∉ pre).
      { rewrite Hsplit in Hnd. apply NoDup_app in Hnd as (_ & Hdis & _).
        intros Hin. apply (Hdis c Hin). by left. }
      destruct (is_tree_child r d' p c Ht Hcin) as [Htc Hpc].
      assert (Hrel : related Rinh r s) by apply Hf.
      assert (HPs : forall q, Parent (get s q) = Parent (get r q)).
      { intros q. destruct Hrel as (_ & _ & _ & _ & _ & _ & Hx).
        by apply (Rinh_keeps_links q). }
      assert (HCs : forall q, Children (get s q) = Children (get r q))
        by (by apply (related_children_eq Rinh)).
      assert (Hcfgs : config s = config r) by apply Hrel.
      assert (Hncyc : ~ desc r c p) by exact (is_tree_no_cycle r (S d') p c Ht Hcin).
      assert (Hsame_c : forall q, desc r c q -> get s q = get r q).
      { intros q Hdq. apply Hrest.
        - intros ->. exact (Hncyc Hdq).
        - intros c0 Hc0 Hd0.
          assert (Hc0in : c0 ∈ Children (get r p)).
          { rewrite Hsplit. apply elem_of_app. by left. }
          assert (Hc0c : c0 <> c) by (intros ->; done).
          exact (siblings_disjoint r (S d') p c0 c q Ht Hc0in Hcin Hc0c Hd0 Hdq). }
      eapply returns_with_mono;
        [|apply (IH d' s c fgColorForChildren fontSizeForChildren textAlignmentForChildren)].
      * intros s' (Hf' & Hq').
        assert (Hout' : forall q, ~ desc r c q -> get s' q = get s q).
        { intros q Hndq. destruct Hf' as [_ Hfr]. apply Hfr. intros Hd. apply Hndq.
          by eapply (desc_related Rinh). }
        assert (Hcfg' : config s' = config s) by apply Hf'.
        split; [|split; [|split]].
        -- eapply (Frame_child Rinh Rinh); eauto.
        -- rewrite Hout'; [done|]. exact Hncyc.
        -- intros q Hqp Hpre. rewrite Hout'.
           ++ apply Hrest; [done|]. intros c0 Hc0. apply Hpre.
              apply elem_of_app. by left.
           ++ apply Hpre. apply elem_of_app. right. by left.
        -- intros c0 q Hc0 Hdq. apply elem_of_app in Hc0 as [Hc0|Hc0].
           ++ (* an earlier sibling's subtree *)
              assert (Hc0in : c0 ∈ Children (get r p)).
              { rewrite Hsplit. apply elem_of_app. by left. }
              assert (Hc0c : c0 <> c) by (intros ->; done).
              destruct (is_tree_child r d' p c0 Ht Hc0in) as [Htc0 Hpc0].
              assert (Hq0 : forall x, desc r c0 x -> ~ desc r c x).
              { intros x Hx Hd.
                exact (siblings_disjoint r (S d') p c0 c x Ht Hc0in Hcin Hc0c Hx Hd). }
              eapply (InhSpec_later r s s'); [done|by apply Hout', Hq0| |by apply (Hq c0 q)].
              intros m Hm. rewrite HPs in Hm. apply Hout'.
              destruct (decide (q = c0)) as [->|Hqc0].
              ** rewrite Hpc0 in Hm. injection Hm as <-. exact Hncyc.
              ** destruct (desc_parent r d' c0 q Htc0 Hdq Hqc0) as (m' & Hm' & Hdm' & _).
                 rewrite Hm in Hm'. injection Hm' as <-. by apply Hq0.
           ++ apply list_elem_of_singleton in Hc0 as ->.
              eapply InhSpec_earlier; [by apply Hsame_c|]. apply Hq'.
              eapply desc_same_children; [|exact Hdq]. done.
      * lia.
      * eapply (is_tree_related Rinh); [apply Rinh_keeps_links|exact Hrel|done].
      * intros m Hm Hd. rewrite HPs, Hpc in Hm. injection Hm as <-.
        apply Hncyc. by eapply (desc_related Rinh).
      * subst fontSizeForChildren textAlignmentForChildren.
        split; right; rewrite HPs, Hpc, Hsp; [done|]. by rewrite Hfs2'.
    + (* before the loop *)
      split; [done|]. split; [done|]. split; [|intros c q Hc; inversion Hc].
      intros q Hqp _. by apply Hne.
Qed.

End InhWalk.

Section InhRoots.
Context `{K : Krb}.
Implicit Types (r s : RaylibRenderer) (p q c a : ptr) (e : RenderElement).

Lemma resolveRootInheritance_inh fuel d r root :
  (d <= fuel)%nat -> is_tree r d root -> Parent (get r root) = None ->
  returns_with true
    (fun r' => Frame Rinh root r r' /\ forall q, desc r root q -> InhSpec r r' q)
    (resolveRootInheritance fuel r root).
Proof.
  intros Hle Ht Hp.
  assert (Hvr : valid (heap r) root) by (by inversion Ht).
  cbv beta iota delta [resolveRootInheritance].
  intro_let. intro_let. intro_let. intro_let. intro_let.
  assert (H0 : Frame Rinh root r r0 /\ (forall q, q <> root -> get r0 q = get r q)
               /\ TextAlignment (get r0 root) = TextAlignment (get r root)
               /\ ResolvedFontSize (get r0 root) = ResolvedFontSize (get r root)
               /\ valid (heap r0) root).
  { subst r0 isTextBearingRoot initialFgColor.
    destruct (isTextBearing (get r root) && fgUnset (FgColor (get r root))).
    - split; [apply Frame_update; [tc_solve|setter_keeps]|].
      split; [intros q Hq; by apply get_update_ne|].
      split; [by apply get_update_field|]. split; [by apply get_update_field|].
      by apply valid_modify.
    - split; [apply Frame_refl; tc_solve|]. done. }
  destruct H0 as (HF0 & Hne0 & Hta0 & Hfs0 & Hv0). clearbody r0.
  intro_let. clearbody fgColorToPassToChildren. intro_let.
  assert (H1 : exists r1 fs1,
             (if F32.eqb resolvedRootFontSize F32.zero
              then (update root (set_ResolvedFontSize initialFontSize) r0, initialFontSize)
              else (r0, resolvedRootFontSize)) = (r1, fs1)
             /\ Frame Rinh root r r1 /\ (forall q, q <> root -> get r1 q = get r q)
             /\ TextAlignment (get r1 root) = TextAlignment (get r root)
             /\ ResolvedFontSize (get r1 root) = fs1
             /\ fs1 = (if F32.eqb (ResolvedFontSize (get r root)) F32.zero
                       then DefaultFontSize (config r) else ResolvedFontSize (get r root))
             /\ valid (heap r1) root).
  { subst resolvedRootFontSize initialFontSize. rewrite Hfs0.
    destruct (F32.eqb (ResolvedFontSize (get r root)) F32.zero).
    - eexists _, _. split; [reflexivity|].
      split; [eapply Frame_trans; [tc_solve|exact HF0|];
              apply Frame_update; [tc_solve|setter_keeps]|].
      split; [intros q Hq; rewrite get_update_ne by done; by apply Hne0|].
      split; [rewrite <- Hta0; by apply get_update_field|].
      split; [by rewrite get_update_eq|]. split; [done|]. by apply valid_modify.
    - eexists _, _. split; [reflexivity|]. done. }
  destruct H1 as (r1 & fs1 & -> & HF1 & Hne1 & Hta1 & Hfs1 & Hfs1v & Hv1). cbv beta iota.
  intro_let.
  assert (H2 : exists r2 ta2,
             (if TextAlignment (get r1 root) =? UnsetTextAlignmentSentinel
              then (update root (set_TextAlignment initialTextAlignment) r1,
                    initialTextAlignment)
              else (r1, resolvedRootTextAlignment)) = (r2, ta2)
             /\ Frame Rinh root r r2 /\ (forall q, q <> root -> get r2 q = get r q)
             /\ TextAlignment (get r2 root) = ta2
             /\ ta2 = (if TextAlignment (get r root) =? UnsetTextAlignmentSentinel
                       then LayoutAlignStart else TextAlignment (get r root))
             /\ ResolvedFontSize (get r2 root) = fs1).
  { subst resolvedRootTextAlignment initialTextAlignment. rewrite Hta1.
    destruct (TextAlignment (get r root) =? UnsetTextAlignmentSentinel).
    - eexists _, _. split; [reflexivity|].
      split; [eapply Frame_trans; [tc_solve|exact HF1|];
              apply Frame_update; [tc_solve|setter_keeps]|].
      split; [intros q Hq; rewrite get_update_ne by done; by apply Hne1|].
      split; [by rewrite get_update_eq|]. split; [done|].
      rewrite <- Hfs1. by apply get_update_field.
    - eexists _, _. split; [reflexivity|]. done. }
  destruct H2 as (r2 & ta2 & -> & HF2 & Hne2 & Hta2 & Hta2v & Hfs2). cbv beta iota.
  assert (Hrel : related Rinh r r2) by apply HF2.
  assert (Hcfg : config r2 = config r) by apply Hrel.
  assert (Hlinks : forall q, Parent (get r2 q) = Parent (get r q)
                             /\ Children (get r2 q) = Children (get r q)).
  { intros q. apply (Rinh_keeps_links q). apply Hrel. }
  assert (Hp2 : Parent (get r2 root) = None) by (by rewrite (proj1 (Hlinks root))).
  eapply returns_with_mono; [|apply (applyInheritanceRecursive_inh fuel d r2 root)].
  - intros r' (HF' & Hspec). split; [eapply Frame_trans; [tc_solve|exact HF2|exact HF']|].
    intros q Hdq.
    assert (Hdq2 : desc r2 root q).
    { eapply desc_same_children; [|exact Hdq]. intros x. apply Hlinks. }
    specialize (Hspec q Hdq2).
    destruct (decide (q = root)) as [->|Hq]; [|by apply (InhSpec_earlier r r2), Hspec; auto].
    assert (Hrel' : related Rinh r2 r') by apply HF'.
    assert (Hp' : Parent (get r' root) = None).
    { rewrite <- Hp2. destruct Hrel' as (_ & _ & _ & _ & _ & _ & Hx).
      by apply (Rinh_keeps_links root). }
    assert (Hcfg' : config r' = config r).
    { destruct Hrel' as (_ & _ & -> & _). done. }
    destruct Hspec as [Ha Hf]. unfold InhSpec, AlignSpec, FontSizeSpec in *.
    rewrite Hp' in *. rewrite Hta2 in Ha. rewrite Hfs2 in Hf. rewrite Hcfg' in *.
    split.
    + rewrite Ha, Hta2v.
      destruct (Z.eqb_spec (TextAlignment (get r root)) UnsetTextAlignmentSentinel)
        as [Hs|Hs].
      * by destruct (LayoutAlignStart =? UnsetTextAlignmentSentinel).
      * by rewrite (proj2 (Z.eqb_neq _ _) Hs).
    + rewrite Hf, Hfs1v.
      destruct (F32.eqb (ResolvedFontSize (get r root)) F32.zero) eqn:Hs.
      * by destruct (F32.eqb (DefaultFontSize (config r)) F32.zero).
      * by rewrite Hs.
  - done.
  - eapply (is_tree_related Rinh); [apply Rinh_keeps_links|exact Hrel|exact Ht].
  - intros m Hm. congruence.
  - split.
    + rewrite Hp2, Hta2, Hta2v.
      destruct (Z.eqb_spec (TextAlignment (get r root)) UnsetTextAlignmentSentinel)
        as [Hs|Hs]; [by right|by left].
    + rewrite Hp2, Hfs2, Hfs1v, Hcfg.
      destruct (F32.eqb (ResolvedFontSize (get r root)) F32.zero) eqn:Hs;
        [by right|by left].
Qed.

Lemma resolvePropertyInheritance_inh fuel d r :
  (d <= fuel)%nat -> wf_forest r d ->
  returns_with true
    (fun r' => related Rinh r r'
               /\ forall root q, root ∈ roots r -> desc r root q -> InhSpec r r' q)
    (forEach (resolveRootInheritance fuel) (roots r) r).
Proof.
  intros Hle Hwf.
  pose (I := fun (pre : list ptr) s =>
               related Rinh r s
               /\ (forall q, (forall root, root ∈ pre -> ~ desc r root q) -> get s q = get r q)
               /\ (forall root q, root ∈ pre -> desc r root q -> InhSpec r s q)).
  eapply returns_with_mono;
    [|apply (returns_with_forEach_prefix true I (resolveRootInheritance fuel) (roots r))].
  - intros r' (Hrel & _ & Hspec). split; [exact Hrel|exact Hspec].
  - intros pre x post s Hxs (Hrel & Hout & Hspec).
    assert (Hx : x ∈ roots r) by (rewrite Hxs; apply elem_of_app; right; apply elem_of_cons; by left).
    assert (Hpre : forall root, root ∈ pre -> root ∈ roots r /\ root <> x).
    { intros root Hroot. split; [rewrite Hxs; apply elem_of_app; by left|].
      intros ->. destruct Hwf as [Hnd _]. rewrite Hxs in Hnd.
      apply NoDup_app in Hnd as (_ & Hnd & _). apply (Hnd x Hroot). apply elem_of_cons. by left. }
    destruct (proj2 Hwf x Hx) as [Hpx Htx].
    assert (Hlinks : forall q, Parent (get s q) = Parent (get r q)
                               /\ Children (get s q) = Children (get r q)).
    { intros q. apply (Rinh_keeps_links q). apply Hrel. }
    assert (Hds : forall p q, desc s p q <-> desc r p q).
    { intros p q. split; apply desc_same_children; intros y; [symmetry|]; apply Hlinks. }
    eapply returns_with_mono; [|apply (resolveRootInheritance_inh fuel d s x)].
    + intros s' ([Hrel' Hout'] & Hspec').
      split; [eapply related_trans; [apply sr_trans|exact Hrel|exact Hrel']|]. split.
      * intros q Hq. rewrite Hout'.
        -- apply Hout. intros root Hroot. apply Hq, elem_of_app. by left.
        -- intros Hd. apply (Hq x); [apply elem_of_app; right; by apply list_elem_of_singleton|].
           by apply Hds.
      * intros root q Hroot Hd. apply elem_of_app in Hroot as [Hroot|Hroot].
        -- destruct (Hpre root Hroot) as [Hr Hne].
           destruct (proj2 Hwf root Hr) as [Hproot Htroot].
           assert (Hsame : forall a, desc r root a -> get s' a = get s a).
           { intros a Ha. apply Hout'. intros Hxa. apply Hds in Hxa.
             exact (forest_disjoint r d root x a Hwf Hr Hx Hne Ha Hxa). }
           apply (InhSpec_later r s s' q).
           ++ destruct Hrel' as (_ & _ & -> & _). done.
           ++ by apply Hsame.
           ++ intros m Hm. apply Hsame.
              apply (forest_chain_in_tree r d root q m Hproot Htroot Hd).
              apply rtc_once. unfold parent_of. by rewrite <- (proj1 (Hlinks q)).
           ++ exact (Hspec root q Hroot Hd).
        -- apply list_elem_of_singleton in Hroot as ->.
           apply (InhSpec_earlier r s).
           ++ apply Hout. intros root Hroot Hdr.
              destruct (Hpre root Hroot) as [Hr Hne].
              exact (forest_disjoint r d root x q Hwf Hr Hx Hne Hdr Hd).
           ++ apply Hspec'. by apply Hds.
    + done.
    + eapply (is_tree_related Rinh); [apply Rinh_keeps_links|exact Hrel|exact Htx].
    + by rewrite (proj1 (Hlinks x)).
  - split; [apply related_refl, sr_refl|]. split; [done|].
    intros root q Hroot. inversion Hroot.
Qed.

End InhRoots.


Lemma rUnset_forest : wf_forest AlignExample.rUnset 2.
Proof.
  split; [vm_compute; apply NoDup_singleton|].
  intros root Hroot. vm_compute in Hroot. apply list_elem_of_singleton in Hroot as ->.
  split; [reflexivity|].
  constructor.
  - vm_compute. eauto.
  - vm_compute. apply NoDup_singleton.
  - intros c Hc. vm_compute in Hc. apply list_elem_of_singleton in Hc as ->. reflexivity.
  - intros c Hc. vm_compute in Hc. apply list_elem_of_singleton in Hc as ->.
    constructor.
    + vm_compute. eauto.
    + vm_compute. apply NoDup_nil_2.
    + intros c Hc. vm_compute in Hc. inversion Hc.
    + intros c Hc. vm_compute in Hc. inversion Hc.
Qed.


(** * The tree that PrepareTree builds *)

Section DeclaredTree.
Context `{K : Krb}.
Implicit Types (r s : RaylibRenderer) (p q c a : ptr) (e : RenderElement).

Lemma declaredChildren_lt doc offsets n i j :
  j ∈ declaredChildren doc offsets n i -> (j < n)%nat.
Proof.
  unfold declaredChildren, resolvedIndices.
  destruct (declaresChildren doc offsets i); [|intros H; inversion H].
  destruct (ChildRefs doc !! i) as [[refs|]|]; [|intros H; inversion H..].
  destruct (offsets !! i) as [off|]; [|intros H; inversion H].
  intros Hj. apply list_elem_of_omap in Hj as (ref & _ & Hj).
  by apply buildOffsetIndex_range in Hj as [? _].
Qed.

Lemma resolvedChildren_indices doc offsets n i (s : slice) :
  resolvedChildren doc offsets n i s = addr s <$> resolvedIndices doc offsets n i.
Proof.
  unfold resolvedChildren, resolvedIndices.
  destruct (ChildRefs doc !! i) as [[refs|]|]; [|done..].
  destruct (offsets !! i) as [off|]; [|done].
  induction refs as [|ref refs IH]; [done|]. csimpl.
  destruct (buildOffsetIndex n offsets !! wrap32 (off + ChildOffset ref)); csimpl;
    by rewrite IH.
Qed.

Section Facts.
Variables (doc : Document) (offsets : list Z) (n : nat) (r : RaylibRenderer).
Hypothesis Hforest : forestDoc doc offsets n.
Hypothesis Htree : declaredTree doc offsets n r.

Local Abbreviation cell i := (addr (elements r) i).
Local Abbreviation kids i := (declaredChildren doc offsets n i).

Lemma dt_live p : live r p <-> exists i, (i < n)%nat /\ p = cell i.
Proof.
  destruct Htree as (Hlen & _). unfold live. destruct p as [a i]. simpl. split.
  - intros [-> Hi]. exists i. split; [lia|done].
  - intros (j & Hj & Hp). injection Hp as -> ->. split; [done|lia].
Qed.

Lemma dt_child i c :
  (i < n)%nat -> c ∈ Children (get r (cell i)) <-> exists j, j ∈ kids i /\ c = cell j.
Proof.
  intros Hi. destruct Htree as (_ & _ & Hc & _). rewrite (Hc i Hi).
  rewrite list_elem_of_fmap. split; intros (j & H1 & H2); exists j; done.
Qed.

Lemma dt_cell_inj i j : cell i = cell j -> i = j.
Proof. unfold addr. congruence. Qed.

Lemma dt_tree i : (i < n)%nat -> is_tree r (n - i) (cell i).
Proof.
  remember (n - i)%nat as d eqn:Hd. revert i Hd.
  induction d as [d IH] using lt_wf_ind. intros i Hd Hi.
  destruct d as [|d]; [lia|].
  destruct Htree as (Hlen & Hv & Hc & Hp & _).
  destruct (Hforest i Hi) as (Hnd & Hlt & _).
  constructor.
  - by apply Hv.
  - rewrite (Hc i Hi). apply NoDup_fmap_2; [|done]. intros x y. apply dt_cell_inj.
  - intros c Hcc. apply dt_child in Hcc as (j & Hj & ->); [|done].
    apply Hp; [done|by eapply declaredChildren_lt|done].
  - intros c Hcc. apply dt_child in Hcc as (j & Hj & ->); [|done].
    assert (Hjn : (j < n)%nat) by (by eapply declaredChildren_lt).
    specialize (Hlt j Hj).
    apply (is_tree_mono r (n - j)); [lia|].
    apply (IH (n - j)%nat); [lia|done|done].
Qed.

Lemma dt_forest : wf_forest r n.
Proof.
  destruct Htree as (Hlen & Hv & Hc & Hp & Hpc & Hroots).
  split.
  - rewrite Hroots. apply NoDup_filter, NoDup_cells.
  - intros root Hroot. rewrite Hroots in Hroot.
    apply list_elem_of_filter in Hroot as [Hpl Hin].
    unfold parentless in Hpl. apply bool_decide_eq_true in Hpl.
    split; [done|].
    apply elem_of_cells, dt_live in Hin as (i & Hi & ->).
    apply (is_tree_mono r (n - i)); [lia|]. by apply dt_tree.
Qed.

(** Along children lists the index grows. *)
Lemma dt_child_grows i c :
  (i < n)%nat -> is_child r (cell i) c -> exists j, (i < j < n)%nat /\ c = cell j.
Proof.
  intros Hi Hc. apply dt_child in Hc as (j & Hj & ->); [|done].
  exists j. split; [|done]. split.
  - by apply (proj1 (proj2 (Hforest i Hi))).
  - by eapply declaredChildren_lt.
Qed.

Lemma dt_tc_grows i q :
  (i < n)%nat -> tc (is_child r) (cell i) q -> exists j, (i < j < n)%nat /\ q = cell j.
Proof.
  intros Hi Ht. remember (cell i) as p eqn:Hp. revert i Hi Hp.
  induction Ht as [p q H|p c q H Ht IH]; intros i Hi ->.
  - by apply dt_child_grows.
  - apply dt_child_grows in H as (j & Hj & ->); [|done].
    destruct (IH j) as (k & Hk & ->); [lia|done|]. exists k. split; [lia|done].
Qed.

Lemma dt_invariant : TreeInvariant r.
Proof.
  pose proof Htree as (Hlen & Hv & Hc & Hp & Hpc & Hroots).
  split.
  - intros x Hx Hnr. apply dt_live in Hx as (j & Hj & ->).
    destruct (Parent (get r (cell j))) as [p|] eqn:Hpar.
    + destruct (Hpc j p Hj Hpar) as (i & Hi & ->).
      assert (Hji : j ∈ kids i) by (by apply Hp).
      exists (cell i). split; [apply dt_live; eauto|]. split; [done|].
      split; [apply dt_child; eauto|].
      intros q Hq Hqc. apply dt_live in Hq as (i' & Hi' & ->).
      apply dt_child in Hqc as (j' & Hj' & Hjj); [|done].
      apply dt_cell_inj in Hjj as <-.
      f_equal. by apply (proj2 (proj2 (Hforest i Hi)) i' j).
    + exfalso. apply Hnr. rewrite Hroots. apply list_elem_of_filter. split.
      * unfold parentless. by apply bool_decide_eq_true.
      * apply elem_of_cells, dt_live. by exists j.
  - intros p Hlive. apply dt_live in Hlive as (i & Hi & ->).
    rewrite (Hc i Hi). apply NoDup_fmap_2; [intros x y; apply dt_cell_inj|].
    apply (Hforest i Hi).
  - intros p q c Hplive Hqlive Hpc' Hqc. apply dt_live in Hplive as (i & Hi & ->).
    apply dt_live in Hqlive as (i' & Hi' & ->).
    apply dt_child in Hpc' as (j & Hj & ->); [|done].
    apply dt_child in Hqc as (j' & Hj' & Hjj); [|done].
    apply dt_cell_inj in Hjj as <-.
    f_equal. symmetry. by apply (proj2 (proj2 (Hforest i Hi)) i' j).
  - intros p Hlive Hcyc. apply dt_live in Hlive as (i & Hi & ->).
    apply dt_tc_grows in Hcyc as (j & Hj & Hjj); [|done].
    apply dt_cell_inj in Hjj. lia.
Qed.

End Facts.
End DeclaredTree.

Section Build.
Context `{K : Krb}.
Implicit Types (r s : RaylibRenderer) (p q c a : ptr) (e : RenderElement).

Lemma Rlinks_refl q e : Rlinks q e e.
Proof. done. Qed.

Lemma Rlinks_trans q e1 e2 e3 : Rlinks q e1 e2 -> Rlinks q e2 e3 -> Rlinks q e1 e3.
Proof. unfold Rlinks. intros [? ?] [? ?]. split; congruence. Qed.

Lemma visual_Rlinks q e e' : visual_change_only e e' -> Rlinks q e e'.
Proof. unfold visual_change_only, Rlinks. tauto. Qed.

Lemma Rinh_Rlinks q e e' : Rinh q e e' -> Rlinks q e e'.
Proof. intros [H _]. by apply visual_Rlinks. Qed.


(** A loop whose body does nothing. *)
Lemma forEach_skip {A S : Type} (body : S -> A -> outcome S) (xs : list A) (s : S) :
  (forall x, x ∈ xs -> body s x = Done s) -> forEach body xs s = Done s.
Proof.
  induction xs as [|x xs IH]; intros H; simpl; [done|].
  rewrite H by apply list_elem_of_here. simpl. apply IH.
  intros y Hy. apply H. by apply list_elem_of_further.
Qed.

Lemma applyDirectVisualPropertiesToAppElement_visual props doc e :
  visual_change_only e (applyDirectVisualPropertiesToAppElement props doc e).
Proof.
  apply fold_left_visual. intros e0 prop.
  unfold applyDirectVisualProperty, applyColorProp, applyBorderWidthProp, applyPaddingProp,
    applyVisibilityProp, applyFontSizeProp.
  setter_keeps.
Qed.

Lemma Rlinks_update p f r :
  (forall e, Parent (f e) = Parent e /\ Children (f e) = Children e) ->
  related Rlinks r (update p f r).
Proof. intros Hf. apply related_update; [apply Rlinks_refl|exact Hf]. Qed.

Ltac links_setter :=
  intros;
  first [ apply (visual_Rlinks (0, 0)%nat);
          first [ apply applyStylePropertiesToElement_visual
                | apply applyDirectPropertiesToElement_visual
                | apply applyDirectVisualPropertiesToAppElement_visual
                | apply resolveElementTextAndImage_visual
                | apply applyContextualDefaults_visual ]
        | split; reflexivity ].

(** [related Rlinks r0 v] for a state [v] reached from states related to
    [r0] by writes that keep the links. *)
Ltac solve_links :=
  repeat match goal with
         | |- related _ _ (if ?b then _ else _) => destruct b
         | |- related _ _ (match ?x with _ => _ end) => destruct x
         | H : related ?R ?r ?s |- related ?R ?r ?s => exact H
         | |- related _ ?r ?r => apply related_refl; apply Rlinks_refl
         | |- related _ _ (update _ _ _) =>
             eapply related_trans;
             [apply Rlinks_trans| |apply Rlinks_update; links_setter]
         | |- related _ _ (log _ _) =>
             eapply related_trans; [apply Rlinks_trans| |apply related_log; apply Rlinks_refl]
         end.

Ltac links_let r0 :=
  lazymatch goal with
  | |- related ?R r0 (let x := ?v in @?B x) =>
      change (let x := v in related R r0 (B x)); cbv beta; intro;
      lazymatch goal with
      | x := _ : RaylibRenderer |- _ =>
          let H := fresh "Hl" in
          assert (H : related R r0 x) by (subst x; solve_links);
          clearbody x
      | x := _ |- _ => idtac
      end
  end.

(** Initialising an element touches no parent reference or children list. *)
Lemma initElement_links doc cfg b i h r :
  related Rlinks r (initElement doc cfg b i h r).
Proof.
  cbv beta delta [initElement].
  repeat links_let r.
  solve_links.
Qed.

End Build.

Section Pipeline.
Context `{K : Krb}.
Implicit Types (r s : RaylibRenderer) (p q c a : ptr) (e : RenderElement).

(** Without component instances the expansion loop does nothing. *)
Lemma expandInstances_none fuel doc n (m : gmap nat (list ptr)) r :
  (forall e, (GetCustomPropertyValue e componentNameConventionKey doc).1 = EmptyString) ->
  expandInstances fuel doc n m r = Done (r, n).
Proof.
  intros Hno. unfold expandInstances, forRange.
  apply forEach_skip. intros i _. cbn zeta. by rewrite Hno.
Qed.

(** A fresh array: its cells are allocated and zero. *)
Lemma fresh_cells (h : Store) (cap i : nat) :
  (i < cap)%nat ->
  valid (h ++ [replicate cap zeroElement]) (length h, i)
  /\ load (h ++ [replicate cap zeroElement]) (length h, i) = zeroElement.
Proof.
  intros Hi. unfold valid, load. simpl.
  rewrite lookup_app_r by lia. rewrite Nat.sub_diag. simpl.
  rewrite lookup_replicate_2 by done. split; [by eexists|done].
Qed.

(** The roots that [finalizeTreeStructureAndRoots] finds. *)
Lemma finalize_facts r :
  let r' := finalizeTreeStructureAndRoots (set_roots [] r) in
  heap r' = heap r /\ elements r' = elements r /\ config r' = config r
  /\ docRef r' = docRef r /\ scaleFactor r' = scaleFactor r
  /\ roots r' = filter (fun p => parentless r p = true) (cells r).
Proof.
  cbv zeta. unfold finalizeTreeStructureAndRoots.
  change (elements (set_roots [] r)) with (elements r).
  destruct (Nat.eqb_spec (s_len (elements r)) 0) as [Hz|Hz].
  - simpl. unfold cells. rewrite Hz. done.
  - pose proof (finalize_loop (set_roots [] r) (seq 0 (s_len (elements r)))
                  (set_roots [] (set_roots [] r)) eq_refl eq_refl) as H.
    cbv zeta in *. change (elements (set_roots [] r)) with (elements r) in H.
    match type of H with context [fold_left ?f ?l ?s] => set (x := fold_left f l s) in H end.
    match goal with |- context [fold_left ?f ?l ?s] => change (fold_left f l s) with x end.
    destruct H as (Hh & He & _ & Hc & Hd & Hs & Hr).
    assert (Hroots : roots x = filter (fun p => parentless r p = true) (cells r)).
    { rewrite Hr. simpl. unfold cells. apply list_filter_iff. intros p.
      unfold parentless, get. simpl. done. }
    destruct (roots x) eqn:Hrx; simpl; rewrite ?Hrx; repeat split; try done.
Qed.

End Pipeline.

Section Declared.
Context `{K : Krb}.
Implicit Types (r s : RaylibRenderer) (p q c a : ptr) (e : RenderElement).

(** The declared tree survives whatever keeps collection, roots and links. *)
Lemma declaredTree_same_links doc offsets n r r' :
  elements r' = elements r -> roots r' = roots r ->
  map length (heap r') = map length (heap r) ->
  (forall q, Parent (get r' q) = Parent (get r q)
             /\ Children (get r' q) = Children (get r q)) ->
  declaredTree doc offsets n r -> declaredTree doc offsets n r'.
Proof.
  intros He Hr Hs Hl (Hlen & Hv & Hc & Hp & Hpc & Hroots).
  unfold declaredTree. rewrite He, Hr.
  split; [done|]. split.
  { intros i Hi. eapply valid_shape; [exact Hs|]. by apply Hv. }
  split.
  { intros i Hi. rewrite (proj2 (Hl _)). by apply Hc. }
  split.
  { intros i j Hi Hj. rewrite (proj1 (Hl _)). by apply Hp. }
  split.
  { intros j p Hj. rewrite (proj1 (Hl _)). by apply Hpc. }
  rewrite Hroots. unfold cells. rewrite He. apply list_filter_iff.
  intros p. unfold parentless. by rewrite (proj1 (Hl p)).
Qed.

(** The linker, over clean cells and without component instances, leaves
    the links that the document declares. *)
Lemma link_declares doc offsets n r :
  docRef r = Some doc ->
  ElementStartOffsets doc = Some offsets ->
  s_len (elements r) = n ->
  (n <= length (Elements doc))%nat ->
  (forall i, (i < n)%nat -> valid (heap r) (addr (elements r) i)) ->
  (forall i, (i < n)%nat -> Parent (get r (addr (elements r) i)) = None
                            /\ Children (get r (addr (elements r) i)) = []) ->
  (forall e, (GetCustomPropertyValue e componentNameConventionKey doc).1 = EmptyString) ->
  forestDoc doc offsets n ->
  exists r' m',
    linkOriginalKrbChildren n ∅ r = Done (r', m', None)
    /\ related Rlink r r'
    /\ (forall i, (i < n)%nat ->
          Children (get r' (addr (elements r) i))
          = addr (elements r) <$> declaredChildren doc offsets n i)
    /\ (forall i j, (i < n)%nat -> (j < n)%nat ->
          Parent (get r' (addr (elements r) j)) = Some (addr (elements r) i)
          <-> j ∈ declaredChildren doc offsets n i)
    /\ (forall j p, (j < n)%nat -> Parent (get r' (addr (elements r) j)) = Some p ->
          exists i, (i < n)%nat /\ p = addr (elements r) i).
Proof.
  intros Hdoc Hoff Hlen Hn Hv Hclean Hno Hforest.
  destruct (linkOriginalKrbChildren_inv doc offsets n ∅ r Hdoc Hoff ltac:(lia) Hn Hv)
    as (r' & m' & Hrun & I1 & I2 & I3 & I4 & I5 & I6).
  { intros e e' _. by rewrite !Hno. }
  simpl in *.
  assert (Hnp : forall i, isPlaceholder doc r i = false).
  { intros i. unfold isPlaceholder. by rewrite Hno. }
  assert (Hch : forall i, (i < n)%nat ->
            Children (get r' (addr (elements r) i))
            = addr (elements r) <$> declaredChildren doc offsets n i).
  { intros i Hi. specialize (I2 i Hi). unfold linkedAs in I2. cbn zeta in I2.
    unfold declaredChildren. rewrite Hnp in I2.
    destruct (declaresChildren doc offsets i).
    - destruct I2 as [-> _]. apply resolvedChildren_indices.
    - destruct I2 as [-> _]. by apply Hclean. }
  assert (Hfwd : forall j p, (j < n)%nat -> Parent (get r' (addr (elements r) j)) = Some p ->
            exists i, (i < n)%nat /\ p = addr (elements r) i
                      /\ j ∈ declaredChildren doc offsets n i).
  { intros j p Hj HP. destruct (I5 _ _ HP) as [Hold|(i & Hi & -> & Hin)].
    - rewrite (proj1 (Hclean j Hj)) in Hold. done.
    - exists i. split; [done|]. split; [done|].
      rewrite (Hch i Hi) in Hin. apply list_elem_of_fmap in Hin as (j' & Hjj & Hin).
      unfold addr in Hjj. injection Hjj as ->. done. }
  exists r', m'. split; [done|]. split; [done|]. split; [done|]. split.
  - intros i j Hi Hj. split.
    + intros HP. destruct (Hfwd j _ Hj HP) as (i' & Hi' & Hii & Hin).
      unfold addr in Hii. injection Hii as <-. done.
    + intros Hin.
      assert (Hd : declaresChildren doc offsets i = true).
      { unfold declaredChildren in Hin. destruct (declaresChildren doc offsets i); [done|].
        inversion Hin. }
      destruct (I6 i (addr (elements r) j) Hi Hd (Hnp i)) as (i' & Hi' & HP & Hc).
      { rewrite resolvedChildren_indices. apply list_elem_of_fmap. exists j. split; [done|].
        unfold declaredChildren in Hin. by rewrite Hd in Hin. }
      rewrite HP. do 2 f_equal.
      rewrite (Hch i' Hi') in Hc. apply list_elem_of_fmap in Hc as (j' & Hjj & Hin').
      unfold addr in Hjj. injection Hjj as <-.
      by apply (proj2 (proj2 (Hforest i Hi)) i' j).
  - intros j p Hj HP. destruct (Hfwd j p Hj HP) as (i & Hi & -> & _). by exists i.
Qed.

End Declared.

Section Main.
Context `{K : Krb}.
Implicit Types (r s : RaylibRenderer) (p q c a : ptr) (e : RenderElement).

Lemma PrepareTree_declared (fuel : nat) (r : RaylibRenderer) (doc : Document)
    (offsets : list Z) (n : nat) :
  n = Z.to_nat (ElementCount (docHeader doc)) ->
  ElementStartOffsets doc = Some offsets ->
  (n <= length (Elements doc))%nat ->
  (n <= fuel)%nat ->
  (forall e, (GetCustomPropertyValue e componentNameConventionKey doc).1 = EmptyString) ->
  forestDoc doc offsets n ->
  exists r',
    PrepareTree fuel r (Some doc) = Done (r', None)
    /\ declaredTree doc offsets n r'.
Proof.
  intros Hn Hoff Hlen Hfuel Hno Hforest.
  unfold PrepareTree.
  set (r0 := set_docRef (Some doc) r).
  (* the App element *)
  assert (Happ : exists b,
    (if negb (Z.land (Flags (docHeader doc)) FlagHasApp =? 0)
        && (ElementCount (docHeader doc) >? 0)
     then match Elements doc !! 0%nat with
          | Some e0 => Done (Type_ e0 =? ElemTypeApp)
          | None => Panic
          end
     else Done false) = Done b).
  { destruct (negb _ && (ElementCount (docHeader doc) >? 0)) eqn:Hc; [|by eexists].
    apply andb_true_iff in Hc as [_ Hc].
    destruct (Elements doc !! 0%nat) eqn:He; [by eexists|].
    apply lookup_ge_None in He. lia. }
  destruct Happ as [b ->]. csimpl. rewrite <- Hn.
  (* the window configuration *)
  match goal with
  | |- context [let '(windowConfig, r1) := ?X in _] =>
      assert (Hw : exists wc r1, X = (wc, r1) /\ docRef r1 = Some doc)
  end.
  { destruct b; [|by eexists _, _].
    destruct (findStyle doc _); [|destruct (negb _)];
      destruct (Properties doc !! 0%nat) as [[|? ?]|]; by eexists _, _. }
  destruct Hw as (wc & r1 & -> & Hdoc1).
  destruct (Nat.eqb_spec n 0) as [Hz|Hz].
  { eexists. split; [reflexivity|]. unfold declaredTree, cells. simpl.
    split; [lia|]. split; [intros i Hi; lia|]. split; [intros i Hi; lia|].
    split; [intros i j Hi; lia|]. split; [intros j p Hj; lia|]. done. }
  (* the elements of the document *)
  match goal with
  | |- context [forRange n ?body ?s] =>
      set (rs := s);
      assert (Hinit : returns_with true (related Rlinks rs) (forRange n body rs))
  end.
  { apply (forRange_ind true (fun _ s => related Rlinks rs s)).
    - intros k s Hk Hs. destruct (Elements doc !! k) as [h|] eqn:Hh;
        [|apply lookup_ge_None in Hh; lia].
      simpl. eapply related_trans; [apply Rlinks_trans|exact Hs|apply initElement_links].
    - apply related_refl, Rlinks_refl. }
  destruct (returns_with_total _ _ Hinit) as (r2 & -> & Hrel2). csimpl.
  assert (Hers : elements rs = mkSlice (length (heap r1)) n (n * 2)) by done.
  assert (Hcell : forall i, (i < n)%nat ->
            valid (heap rs) (addr (elements rs) i)
            /\ get rs (addr (elements rs) i) = zeroElement).
  { intros i Hi. apply (fresh_cells (heap r1) (n * 2) i). lia. }
  destruct Hrel2 as (He2 & Hr2 & Hc2 & Hd2 & Hs2 & Hsh2 & Hq2).
  (* linking *)
  destruct (link_declares doc offsets n r2) as (r3 & m3 & -> & Hrel3 & Hch3 & Hp3 & Hpc3);
    try done.
  { by rewrite Hd2. }
  { by rewrite He2. }
  { intros i Hi. rewrite He2. eapply valid_shape; [exact Hsh2|]. by apply Hcell. }
  { intros i Hi. rewrite He2. destruct (Hq2 (addr (elements rs) i)) as [-> ->].
    by rewrite (proj2 (Hcell i Hi)). }
  csimpl. rewrite (expandInstances_none fuel doc n m3 r3 Hno). csimpl.
  (* the roots *)
  destruct (finalize_facts r3) as (HhF & HeF & HcF & HdF & HsF & HrF).
  set (rF := finalizeTreeStructureAndRoots (set_roots [] r3)) in *.
  destruct Hrel3 as (He3 & Hr3 & Hc3 & Hd3 & Hs3 & Hsh3 & Hq3).
  assert (HgF : forall q, get rF q = get r3 q) by (intros q; unfold get; by rewrite HhF).
  assert (HtF : declaredTree doc offsets n rF).
  { unfold declaredTree, cells. rewrite HeF, He3.
    split; [by rewrite He2|]. split.
    { intros i Hi. rewrite HhF. eapply valid_shape; [exact Hsh3|].
      rewrite He2. eapply valid_shape; [exact Hsh2|]. by apply Hcell. }
    split; [intros i Hi; rewrite HgF; by apply Hch3|].
    split; [intros i j Hi Hj; rewrite HgF; by apply Hp3|].
    split; [intros j p Hj; rewrite HgF; by apply Hpc3|].
    rewrite HrF. unfold cells. rewrite He3. apply list_filter_iff.
    intros p. unfold parentless. by rewrite HgF. }
  (* inheritance *)
  pose proof (resolvePropertyInheritance_fg fuel n rF Hfuel
                (dt_forest doc offsets n rF Hforest HtF)) as Hinh.
  assert (Hrun : exists r5, resolvePropertyInheritance fuel rF = Done r5
                            /\ related Rinh rF r5).
  { unfold resolvePropertyInheritance.
    rewrite HdF, Hd3, Hd2. change (docRef rs) with (docRef r1). rewrite Hdoc1.
    destruct (roots rF) as [|x xs] eqn:Hroots.
    - exists rF. split; [done|]. apply related_refl, sr_refl.
    - destruct (forEach (resolveRootInheritance fuel) (x :: xs) rF) as [r5| |];
        simpl in Hinh; [|done|done].
      exists r5. split; [done|apply Hinh]. }
  destruct Hrun as (r5 & -> & Hrel5). csimpl.
  exists r5. split; [done|].
  destruct Hrel5 as (He5 & Hr5 & _ & _ & _ & Hsh5 & Hq5).
  apply (declaredTree_same_links doc offsets n rF r5); try done.
  intros q. apply (Rinh_keeps_links q), Hq5.
Qed.


End Main.

Lemma docAlign_children (i : nat) :
  declaredChildren Examples.docAlign [0; 19] 2 i = match i with 0%nat => [1%nat] | _ => [] end.
Proof.
  destruct i as [|[|i]]; [vm_compute; reflexivity..|].
  unfold declaredChildren, declaresChildren. simpl. done.
Qed.

Lemma docAlign_forest : forestDoc Examples.docAlign [0; 19] 2.
Proof.
  intros i Hi. rewrite docAlign_children.
  destruct i as [|[|i]]; [| |lia].
  - split; [apply NoDup_singleton|]. split.
    + intros j Hj. apply list_elem_of_singleton in Hj as ->. lia.
    + intros i' j Hi' Hj Hj'. rewrite docAlign_children in Hj'.
      destruct i' as [|i']; [done|]. inversion Hj'.
  - split; [apply NoDup_nil_2|]. split; intros; exfalso; by eapply not_elem_of_nil.
Qed.


(** * Properties *)

#[local] Existing Instance Ref.krb.

(** ** Identity of nodes across growth of the collection *)

(** C2 (the code departs from it).  The claim: appending nodes during
    [expandComponent] never leaves a parent or children reference pointing at
    a stale copy.  On [docGrowth] the collection has capacity 2; the second
    template element makes it move to a new backing array (number 1).  The
    template root, now cell 1 of array 1, still names cell 0 of the old array
    0 as its parent, and the instance that received the root as its child is
    that old cell: the live instance has no children. *)
Lemma C2_growth_leaves_stale_references :
  exists r,
    PrepareTree 50 Ref.newRenderer (Some Examples.docGrowth) = Done (r, None)
    /\ elements r = mkSlice 1 3 24
    /\ Parent (get r (addr (elements r) 1)) = Some (0, 0)%nat
    /\ Children (get r (addr (elements r) 0)) = []
    /\ Children (get r (0, 0)%nat) = [(1, 1)%nat]
    /\ roots r = [addr (elements r) 0].
Proof.
  eexists. split; [vm_compute; reflexivity|].
  repeat split.
Qed.

(** ** Structure of the finished tree *)

